(** * The c3c compilation driver (src/compiler/compiler.c)

    A shallow embedding of the driver of the C3 compiler: the scratch
    buffer, the arenas set up by [compiler_init], the public-symbol
    registry, the module registry, the expansion of source names and the
    staged analysis pipeline run by [compiler_compile].

    Conventions.
    - C strings and interned symbols are [string]; a [char] is an [ascii].
    - [size_t] and [uint32_t] values are [Z], with the wrap-around of the
      C arithmetic written out.
    - Hash tables ([STable]) are [gmap string _]: a missing key is the
      NULL that [stable_get] returns.
    - A function that may leave through [exit] or [error_exit] runs in the
      monad [M]: it returns, exits with a code, or (for the one loop whose
      bound is not known in advance) runs out of fuel. *)

From Stdlib Require Import ZArith Lia Ascii String.
From stdpp Require Import base option list gmap fin_maps strings.

Local Open Scope Z_scope.

(** ** Leaving the process *)

Definition EXIT_SUCCESS : Z := 0.
Definition EXIT_FAILURE : Z := 1.

Inductive Outcome (S A : Type) : Type :=
  | Returned (a : A) (s : S)
  | Exited (code : Z) (message : string) (s : S)
  | OutOfFuel (s : S).
Arguments Returned {S A} a s.
Arguments Exited {S A} code message s.
Arguments OutOfFuel {S A} s.

Definition M (S A : Type) : Type := S -> Outcome S A.

Definition ret {S A} (a : A) : M S A := fun s => Returned a s.

Definition bind {S A B} (m : M S A) (k : A -> M S B) : M S B :=
  fun s =>
    match m s with
    | Returned a s' => k a s'
    | Exited c msg s' => Exited c msg s'
    | OutOfFuel s' => OutOfFuel s'
    end.

Notation "x <- m ;; k" := (bind m (fun x => k))
  (at level 100, m at next level, right associativity).
Notation "m ;;; k" := (bind m (fun _ => k))
  (at level 100, right associativity).

Definition get {S} : M S S := fun s => Returned s s.
Definition modify {S} (f : S -> S) : M S unit := fun s => Returned tt (f s).

(** [exit(code)] of the C library. *)
Definition exit {S A} (code : Z) : M S A := fun s => Exited code "" s.

(** Modelled from the spec: [error_exit] (declared in the project's error
    header, not in this file) prints its message and leaves the process
    with a non-zero code. *)
Definition error_exit {S A} (message : string) : M S A :=
  fun s => Exited EXIT_FAILURE message s.

Definition final_state {S A} (o : Outcome S A) : S :=
  match o with
  | Returned _ s | Exited _ _ s | OutOfFuel s => s
  end.

Definition exit_code {S A} (o : Outcome S A) : option Z :=
  match o with
  | Exited c _ _ => Some c
  | _ => None
  end.

(** ** Integer types

    Conversion to an unsigned type is reduction modulo its range:
    [size_t] has 64 bits on the platforms of the compiler, and
    [scratch_buffer_len] is declared [uint32_t] in the project's headers. *)

Definition size_t (z : Z) : Z := z mod 2 ^ 64.
Definition uint32_t (z : Z) : Z := z mod 2 ^ 32.
Definition PTRDIFF_MAX : Z := 2 ^ 63 - 1.
Definition INT_MAX : Z := 2 ^ 31 - 1.

(** ** The scratch buffer

    [char scratch_buffer[MAX_STRING_BUFFER]] and [scratch_buffer_len] are
    two fields of the global context. No other function of the driver reads
    or writes them, and the scratch functions touch nothing else, so they
    are kept in a record of their own. *)

Record ScratchBuffer : Type := {
  scratch_buffer : list ascii;
  scratch_buffer_len : Z
}.

Definition NUL : ascii := "000"%char.

(** [strlen]: the number of characters before the first NUL. The list is
    the memory at the pointer; when it holds no NUL the terminator sits
    right after it. *)
Fixpoint strlen (s : list ascii) : nat :=
  match s with
  | [] => 0%nat
  | c :: s' => if decide (c = NUL) then 0%nat else S (strlen s')
  end.

(** The C string that starts at the beginning of [s]. *)
Definition c_str (s : list ascii) : list ascii := take (strlen s) s.

(** [memcpy(dst + off, src, n)]. *)
Definition memcpy (dst : list ascii) (off : nat) (src : list ascii) (n : nat)
  : list ascii :=
  take off dst ++ take n src ++ drop (off + n)%nat dst.

Section Scratch.

(** The capacity is a macro of the project's headers. *)
Variable MAX_STRING_BUFFER : Z.

Definition scratch_buffer_clear : M ScratchBuffer unit :=
  modify (fun g =>
    {| scratch_buffer := scratch_buffer g; scratch_buffer_len := 0 |}).

Definition scratch_buffer_append_len (string : list ascii) (len : Z)
  : M ScratchBuffer unit :=
  g <- get ;;
  if size_t (len + scratch_buffer_len g) >? MAX_STRING_BUFFER - 1
  then error_exit "Scratch buffer size (%d chars) exceeded"
  else
    modify (fun g =>
      {| scratch_buffer :=
           memcpy (scratch_buffer g) (Z.to_nat (scratch_buffer_len g))
                  string (Z.to_nat len);
         scratch_buffer_len := uint32_t (scratch_buffer_len g + len) |}).

Definition scratch_buffer_append (string : list ascii) : M ScratchBuffer unit :=
  scratch_buffer_append_len string (Z.of_nat (strlen string)).

Definition scratch_buffer_append_char (c : ascii) : M ScratchBuffer unit :=
  g <- get ;;
  if uint32_t (scratch_buffer_len g + 1) >? MAX_STRING_BUFFER - 1
  then error_exit "Scratch buffer size (%d chars) exceeded"
  else
    modify (fun g =>
      {| scratch_buffer :=
           <[Z.to_nat (scratch_buffer_len g) := c]> (scratch_buffer g);
         scratch_buffer_len := uint32_t (scratch_buffer_len g + 1) |}).

(** Writes the terminator in place and returns the buffer: the value
    returned is the C string found there. *)
Definition scratch_buffer_to_string : M ScratchBuffer (list ascii) :=
  modify (fun g =>
    {| scratch_buffer :=
         <[Z.to_nat (scratch_buffer_len g) := NUL]> (scratch_buffer g);
       scratch_buffer_len := scratch_buffer_len g |}) ;;;
  g <- get ;;
  ret (c_str (scratch_buffer g)).

(** The operations that build a string. *)
Inductive ScratchOp : Type :=
  | OpClear
  | OpAppend (string : list ascii)
  | OpAppendLen (string : list ascii) (len : Z)
  | OpAppendChar (c : ascii).

Definition scratch_op (op : ScratchOp) : M ScratchBuffer unit :=
  match op with
  | OpClear => scratch_buffer_clear
  | OpAppend s => scratch_buffer_append s
  | OpAppendLen s len => scratch_buffer_append_len s len
  | OpAppendChar c => scratch_buffer_append_char c
  end.

Fixpoint scratch_ops (ops : list ScratchOp) : M ScratchBuffer unit :=
  match ops with
  | [] => ret tt
  | op :: ops' => scratch_op op ;;; scratch_ops ops'
  end.

(** What a caller owes: the [len] characters read by [memcpy] exist, and no
    object is larger than [PTRDIFF_MAX]. *)
Definition op_valid (op : ScratchOp) : Prop :=
  match op with
  | OpAppendLen s len => 0 <= len <= Z.of_nat (length s) /\ len <= PTRDIFF_MAX
  | OpAppend s => Z.of_nat (length s) <= PTRDIFF_MAX
  | _ => True
  end.

(** The state of the two fields between calls. *)
Definition scratch_ok (g : ScratchBuffer) : Prop :=
  Z.of_nat (length (scratch_buffer g)) = MAX_STRING_BUFFER /\
  0 <= scratch_buffer_len g <= MAX_STRING_BUFFER - 1.

End Scratch.

Local Close Scope Z_scope.

(** ** Arenas *)

(** Modelled from the spec: [Vmem], [vmem_init] and the typed [*_calloc]
    allocators live in the project's library, not in this file. An arena
    is a bump allocator: it hands out dense indices in allocation order,
    and [allocated] counts the objects handed out so far. *)
Record Vmem : Type := {
  vmem_size : Z;
  allocated : nat
}.

(** Modelled from the spec: a fresh arena of the given size, nothing
    allocated. *)
Definition vmem_init (size_in_mb : Z) : Vmem :=
  {| vmem_size := size_in_mb; allocated := 0 |}.

(** Modelled from the spec: one allocation; the index returned is the
    number of objects allocated before it. *)
Definition vmem_calloc (v : Vmem) : nat * Vmem :=
  (allocated v, {| vmem_size := vmem_size v; allocated := S (allocated v) |}).

Inductive ArenaId : Type :=
  | ast | expr | sourceloc | toktype | tokdata | decl | type_info.

#[global] Instance ArenaId_eq_dec : EqDecision ArenaId.
Proof. solve_decision. Defined.

(** The seven global arenas of compiler.c. *)
Record Arenas : Type := {
  ast_arena : Vmem;
  expr_arena : Vmem;
  sourceloc_arena : Vmem;
  toktype_arena : Vmem;
  tokdata_arena : Vmem;
  decl_arena : Vmem;
  type_info_arena : Vmem
}.

Definition arena (a : ArenaId) (A : Arenas) : Vmem :=
  match a with
  | ast => ast_arena A
  | expr => expr_arena A
  | sourceloc => sourceloc_arena A
  | toktype => toktype_arena A
  | tokdata => tokdata_arena A
  | decl => decl_arena A
  | type_info => type_info_arena A
  end.

Definition set_arena (a : ArenaId) (v : Vmem) (A : Arenas) : Arenas :=
  {| ast_arena := if decide (a = ast) then v else ast_arena A;
     expr_arena := if decide (a = expr) then v else expr_arena A;
     sourceloc_arena := if decide (a = sourceloc) then v else sourceloc_arena A;
     toktype_arena := if decide (a = toktype) then v else toktype_arena A;
     tokdata_arena := if decide (a = tokdata) then v else tokdata_arena A;
     decl_arena := if decide (a = decl) then v else decl_arena A;
     type_info_arena := if decide (a = type_info) then v else type_info_arena A |}.

(** The arenas whose objects are referred to by index, as the spec lists
    them. *)
Definition indexed_arenas : list ArenaId := [ast; sourceloc; toktype; tokdata].

(** ** Declarations, modules and the global context *)

Abbreviation ModulePtr := nat (only parsing).
Abbreviation TokenId := nat (only parsing).
Abbreviation AnalysisStage := nat (only parsing).

(** Modelled from the spec: the enumeration of the stages is declared in
    the project's headers; the spec gives its order. *)
Definition ANALYSIS_NOT_BEGUN : AnalysisStage := 0%nat.
Definition ANALYSIS_IMPORTS : AnalysisStage := 1%nat.
Definition ANALYSIS_REGISTER_GLOBALS : AnalysisStage := 2%nat.
Definition ANALYSIS_CONDITIONAL_COMPILATION : AnalysisStage := 3%nat.
Definition ANALYSIS_DECLS : AnalysisStage := 4%nat.
Definition ANALYSIS_CT_ASSERT : AnalysisStage := 5%nat.
Definition ANALYSIS_FUNCTIONS : AnalysisStage := 6%nat.
Definition ANALYSIS_LAST : AnalysisStage := ANALYSIS_FUNCTIONS.

Record Path : Type := {
  path_module : string;
  path_len : nat
}.

(** A declaration, as far as the registry reads it: [decl_name] is
    [decl->name], [decl_module] is [decl->module->name->module], and
    [decl_id] tells two declarations apart (the address of the object). *)
Record Decl : Type := {
  decl_id : nat;
  decl_name : string;
  decl_module : string
}.

#[global] Instance Decl_eq_dec : EqDecision Decl.
Proof. solve_decision. Defined.

(** A [Decl*] stored in a symbol table: the sentinel [poisoned_decl] or a
    declaration. *)
Inductive DeclRef : Type :=
  | poisoned_decl
  | decl_ref (d : Decl).

#[global] Instance DeclRef_eq_dec : EqDecision DeclRef.
Proof. solve_decision. Defined.

(** [TokenId *parameters] is a pointer: [None] is NULL. *)
Record Module : Type := {
  module_name : Path;
  module_stage : AnalysisStage;
  module_parameters : option (list TokenId);
  module_symbols : gmap string DeclRef
}.

(** The fields of [GlobalContext] the driver uses ([scratch_table],
    [type], [std_module] and the scratch buffer apart). [errors_found]
    counts the diagnostics reported; [module_heap] is the memory holding
    the [Module] objects allocated so far, a [Module*] being an index into
    it. *)
Record GlobalContext : Type := {
  modules : gmap string ModulePtr;
  module_list : list ModulePtr;
  generic_module_list : list ModulePtr;
  global_symbols : gmap string DeclRef;
  qualified_symbols : gmap string (gmap string DeclRef);
  lib_dir : option string;
  sources : list string;
  in_panic_mode : bool;
  errors_found : nat;
  warnings_found : nat;
  module_heap : list Module
}.

Definition set_modules (v : gmap string ModulePtr) (g : GlobalContext) :=
  {| modules := v; module_list := module_list g;
     generic_module_list := generic_module_list g;
     global_symbols := global_symbols g;
     qualified_symbols := qualified_symbols g; lib_dir := lib_dir g;
     sources := sources g; in_panic_mode := in_panic_mode g;
     errors_found := errors_found g; warnings_found := warnings_found g;
     module_heap := module_heap g |}.

Definition set_module_list (v : list ModulePtr) (g : GlobalContext) :=
  {| modules := modules g; module_list := v;
     generic_module_list := generic_module_list g;
     global_symbols := global_symbols g;
     qualified_symbols := qualified_symbols g; lib_dir := lib_dir g;
     sources := sources g; in_panic_mode := in_panic_mode g;
     errors_found := errors_found g; warnings_found := warnings_found g;
     module_heap := module_heap g |}.

Definition set_generic_module_list (v : list ModulePtr) (g : GlobalContext) :=
  {| modules := modules g; module_list := module_list g;
     generic_module_list := v;
     global_symbols := global_symbols g;
     qualified_symbols := qualified_symbols g; lib_dir := lib_dir g;
     sources := sources g; in_panic_mode := in_panic_mode g;
     errors_found := errors_found g; warnings_found := warnings_found g;
     module_heap := module_heap g |}.

Definition set_global_symbols (v : gmap string DeclRef) (g : GlobalContext) :=
  {| modules := modules g; module_list := module_list g;
     generic_module_list := generic_module_list g;
     global_symbols := v;
     qualified_symbols := qualified_symbols g; lib_dir := lib_dir g;
     sources := sources g; in_panic_mode := in_panic_mode g;
     errors_found := errors_found g; warnings_found := warnings_found g;
     module_heap := module_heap g |}.

Definition set_qualified_symbols (v : gmap string (gmap string DeclRef))
    (g : GlobalContext) :=
  {| modules := modules g; module_list := module_list g;
     generic_module_list := generic_module_list g;
     global_symbols := global_symbols g;
     qualified_symbols := v; lib_dir := lib_dir g;
     sources := sources g; in_panic_mode := in_panic_mode g;
     errors_found := errors_found g; warnings_found := warnings_found g;
     module_heap := module_heap g |}.

Definition set_lib_dir (v : option string) (g : GlobalContext) :=
  {| modules := modules g; module_list := module_list g;
     generic_module_list := generic_module_list g;
     global_symbols := global_symbols g;
     qualified_symbols := qualified_symbols g; lib_dir := v;
     sources := sources g; in_panic_mode := in_panic_mode g;
     errors_found := errors_found g; warnings_found := warnings_found g;
     module_heap := module_heap g |}.

Definition set_sources (v : list string) (g : GlobalContext) :=
  {| modules := modules g; module_list := module_list g;
     generic_module_list := generic_module_list g;
     global_symbols := global_symbols g;
     qualified_symbols := qualified_symbols g; lib_dir := lib_dir g;
     sources := v; in_panic_mode := in_panic_mode g;
     errors_found := errors_found g; warnings_found := warnings_found g;
     module_heap := module_heap g |}.

Definition set_errors (panic : bool) (errors warnings : nat)
    (g : GlobalContext) :=
  {| modules := modules g; module_list := module_list g;
     generic_module_list := generic_module_list g;
     global_symbols := global_symbols g;
     qualified_symbols := qualified_symbols g; lib_dir := lib_dir g;
     sources := sources g; in_panic_mode := panic;
     errors_found := errors; warnings_found := warnings;
     module_heap := module_heap g |}.

Definition set_module_heap (v : list Module) (g : GlobalContext) :=
  {| modules := modules g; module_list := module_list g;
     generic_module_list := generic_module_list g;
     global_symbols := global_symbols g;
     qualified_symbols := qualified_symbols g; lib_dir := lib_dir g;
     sources := sources g; in_panic_mode := in_panic_mode g;
     errors_found := errors_found g; warnings_found := warnings_found g;
     module_heap := v |}.

(** [module->stage] for a pointer into the heap. *)
Definition stage_of (g : GlobalContext) (module : ModulePtr) : AnalysisStage :=
  match module_heap g !! module with
  | Some m => module_stage m
  | None => ANALYSIS_NOT_BEGUN
  end.

Definition global_context_clear_errors (g : GlobalContext) : GlobalContext :=
  set_errors false 0 0 g.

Definition compiler_find_symbol (string : string) (g : GlobalContext)
  : option DeclRef :=
  global_symbols g !! string.

Definition global_context_find_module (name : string) (g : GlobalContext)
  : option ModulePtr :=
  modules g !! name.

Definition compiler_find_or_create_module (module_name : Path)
    (parameters : option (list TokenId)) (g : GlobalContext)
  : ModulePtr * GlobalContext :=
  match global_context_find_module (path_module module_name) g with
  | Some module => (module, g)
  | None =>
      (* module = CALLOCS(Module) *)
      let module := length (module_heap g) in
      let m := {| module_name := module_name;
                  module_stage := ANALYSIS_NOT_BEGUN;
                  module_parameters := parameters;
                  module_symbols := ∅ |} in
      let g := set_module_heap (module_heap g ++ [m]) g in
      let g := set_modules (<[path_module module_name := module]> (modules g)) g in
      match parameters with
      | Some _ =>
          (module, set_generic_module_list (generic_module_list g ++ [module]) g)
      | None =>
          (module, set_module_list (module_list g ++ [module]) g)
      end
  end.

(** [stable_set(table, key, prev ? poisoned_decl : decl)] after
    [prev = stable_get(table, key)]. *)
Definition register_in (table : gmap string DeclRef) (d : Decl)
  : gmap string DeclRef :=
  match table !! decl_name d with
  | Some _ => <[decl_name d := poisoned_decl]> table
  | None => <[decl_name d := decl_ref d]> table
  end.

Definition compiler_register_public_symbol (d : Decl) (g : GlobalContext)
  : GlobalContext :=
  let g := set_global_symbols (register_in (global_symbols g) d) g in
  let sub_module_space :=
    match qualified_symbols g !! decl_module d with
    | Some space => space
    | None => ∅          (* malloc_arena, stable_init, stable_set *)
    end in
  (* the sub-table is written through its pointer *)
  set_qualified_symbols
    (<[decl_module d := register_in sub_module_space d]> (qualified_symbols g)) g.

(** ** The build target and the process *)

Record BuildTarget : Type := {
  target_sources : list string;
  lex_only : bool;
  parse_only : bool;
  output_headers : bool
}.

Definition set_target_sources (v : list string) (t : BuildTarget) :=
  {| target_sources := v; lex_only := lex_only t; parse_only := parse_only t;
     output_headers := output_headers t |}.

(** What the run of the driver leaves behind, in order: the start of each
    round of [analyze_to_stage], each analysis pass with the global context
    when it begins (the stage of its module already incremented) and when
    it returns, and the calls that start the back end. *)
Inductive Event : Type :=
  | EvStage (stage : AnalysisStage) (g : GlobalContext)
  | EvPass (module : ModulePtr) (stage : AnalysisStage)
           (before after : GlobalContext)
  | EvHeaderGen (module : ModulePtr)
  | EvCodegen.

(** The global variables of the driver, the table of the source loader
    and the events so far. *)
Record Process : Type := {
  global_context : GlobalContext;
  active_target : BuildTarget;
  arenas : Arenas;
  loaded_files : list string;
  trace : list Event
}.

Definition set_global_context (v : GlobalContext) (p : Process) :=
  {| global_context := v; active_target := active_target p;
     arenas := arenas p; loaded_files := loaded_files p; trace := trace p |}.

Definition set_active_target (v : BuildTarget) (p : Process) :=
  {| global_context := global_context p; active_target := v;
     arenas := arenas p; loaded_files := loaded_files p; trace := trace p |}.

Definition set_arenas (v : Arenas) (p : Process) :=
  {| global_context := global_context p; active_target := active_target p;
     arenas := v; loaded_files := loaded_files p; trace := trace p |}.

Definition set_loaded_files (v : list string) (p : Process) :=
  {| global_context := global_context p; active_target := active_target p;
     arenas := arenas p; loaded_files := v; trace := trace p |}.

Definition add_event (e : Event) (p : Process) :=
  {| global_context := global_context p; active_target := active_target p;
     arenas := arenas p; loaded_files := loaded_files p;
     trace := trace p ++ [e] |}.

Definition log (e : Event) : M Process unit := modify (add_event e).

Definition update_context (f : GlobalContext -> GlobalContext) : M Process unit :=
  modify (fun p => set_global_context (f (global_context p)) p).

(** One typed allocation, [sourceloc_calloc()] and the like. *)
Definition arena_calloc (a : ArenaId) : M Process nat :=
  p <- get ;;
  let '(index, v) := vmem_calloc (arena a (arenas p)) in
  modify (set_arenas (set_arena a v (arenas p))) ;;;
  ret index.

Fixpoint arena_callocs (l : list ArenaId) : M Process (list (ArenaId * nat)) :=
  match l with
  | [] => ret []
  | a :: l' =>
      i <- arena_calloc a ;;
      r <- arena_callocs l' ;;
      ret ((a, i) :: r)
  end.

(** ** Source names *)

(** [name[i]] for [i] below the length. *)
Definition char_at (name : string) (i : nat) : ascii :=
  match String.get i name with
  | Some c => c
  | None => NUL
  end.

(** What the body of the loop of [target_expand_source_names] does with
    one entry. *)
Inductive SourceName : Type :=
  | InvalidName
  | Wildcard (path : string) (recursive : bool)
  | SourceFile (name : string).

Definition classify_source_name (name : string) : SourceName :=
  let name_len := String.length name in
  if (name_len <? 1)%nat then InvalidName
  else if decide (char_at name (name_len - 1) = "*"%char) then
    if ((name_len =? 1)%nat || bool_decide (char_at name (name_len - 2) = "/"%char))
    then Wildcard (String.substring 0 (name_len - 1) name) false
    else if negb (bool_decide (char_at name (name_len - 2) = "*"%char))
    then InvalidName
    else if ((name_len =? 2)%nat || bool_decide (char_at name (name_len - 3) = "/"%char))
    then Wildcard (String.substring 0 (name_len - 2) name) true
    else InvalidName
  else if (name_len <? 4)%nat then InvalidName
  else if negb (bool_decide (String.substring (name_len - 3) 3 name = ".c3"%string))
  then InvalidName
  else SourceFile name.

(** The spec's words for the shapes of an entry. *)
Definition ends_with (suffix name : string) : Prop :=
  exists prefix, name = (prefix ++ suffix)%string.

(** ** The passes and the parser *)

(** Modelled from the spec: the parser and the six analysis passes are
    other files of the compiler. Towards the driver a parse or a pass
    creates modules through [compiler_find_or_create_module], registers
    public symbols through [compiler_register_public_symbol] and reports
    diagnostics by incrementing [errors_found]. *)
Record PassEffect : Type := {
  new_modules : list (Path * option (list TokenId));
  new_symbols : list Decl;
  new_errors : nat
}.

Definition create_modules (l : list (Path * option (list TokenId)))
    (g : GlobalContext) : GlobalContext :=
  foldl (fun g np => (compiler_find_or_create_module np.1 np.2 g).2) g l.

Definition register_symbols (l : list Decl) (g : GlobalContext) : GlobalContext :=
  foldl (fun g d => compiler_register_public_symbol d g) g l.

(** Modelled from the spec: what a parse or a pass with the effect [e]
    does to the global context. *)
Definition apply_effect (e : PassEffect) (g : GlobalContext) : GlobalContext :=
  let g := create_modules (new_modules e) g in
  let g := register_symbols (new_symbols e) g in
  set_errors (in_panic_mode g) (errors_found g + new_errors e)
             (warnings_found g) g.

(** [module->stage++]. *)
Definition increment_stage (module : ModulePtr) (g : GlobalContext)
  : GlobalContext :=
  set_module_heap
    (alter (fun m => {| module_name := module_name m;
                        module_stage := S (module_stage m);
                        module_parameters := module_parameters m;
                        module_symbols := module_symbols m |})
           module (module_heap g)) g.

Record Context : Type := {
  context_file : string
}.

(** ** The driver *)

(** What the rest of the compiler and the platform answer to the driver:
    the library directory found, the files of a directory, the canonical
    path of a file that can be read, the effect of parsing a file and of an
    analysis pass on a module, and whether a module gives an output. *)
Record Collaborators : Type := {
  find_lib_dir : option string;
  file_add_wildcard_files : list string -> string -> bool -> list string;
  source_full_path : string -> option string;
  parse_file : string -> GlobalContext -> PassEffect;
  sema_analysis_pass : AnalysisStage -> ModulePtr -> GlobalContext -> PassEffect;
  llvm_gen : ModulePtr -> GlobalContext -> bool
}.

Definition invalid_name_message : string :=
  "File names must end with .c3 or they cannot be compiled: '%s' is invalid.".

Section Driver.

Variable w : Collaborators.

Definition vmem_init_arena (a : ArenaId) (size : Z) : M Process unit :=
  modify (fun p => set_arenas (set_arena a (vmem_init size) (arenas p)) p).

Definition compiler_init (std_lib_dir : option string) : M Process unit :=
  (* stable_init of modules (and of scratch_table) *)
  update_context (set_modules ∅) ;;;
  update_context (set_module_list []) ;;;
  update_context (set_generic_module_list []) ;;;
  update_context (set_global_symbols ∅) ;;;
  vmem_init_arena ast (4 * 1024) ;;;
  vmem_init_arena expr (4 * 1024) ;;;
  vmem_init_arena decl 1024 ;;;
  vmem_init_arena sourceloc (4 * 1024) ;;;
  vmem_init_arena toktype (4 * 1024) ;;;
  vmem_init_arena tokdata (4 * 1024) ;;;
  vmem_init_arena type_info 1024 ;;;
  (* Create zero index value. *)
  _ <- arena_calloc sourceloc ;;
  _ <- arena_calloc toktype ;;
  _ <- arena_calloc tokdata ;;
  match std_lib_dir with
  | Some dir => update_context (set_lib_dir (Some dir))
  | None => update_context (set_lib_dir (find_lib_dir w))
  end.

(** Modelled from the spec: [source_file_load] belongs to the source
    loader. It canonicalizes the path, leaves the process when the file
    cannot be read, and reports a file it has loaded before as cached. *)
Definition source_file_load (path : string) : M Process (string * bool) :=
  match source_full_path w path with
  | None => error_exit "Failed to open file"
  | Some full =>
      p <- get ;;
      if bool_decide (full ∈ loaded_files p) then ret (full, true)
      else modify (set_loaded_files (loaded_files p ++ [full])) ;;;
           ret (full, false)
  end.

Definition run_effect (f : GlobalContext -> PassEffect) : M Process unit :=
  update_context (fun g => apply_effect (f g) g).

Fixpoint lex_sources (l : list string) : M Process unit :=
  match l with
  | [] => ret tt
  | path :: l' =>
      _ <- source_file_load path ;;
      lex_sources l'
  end.

Definition compiler_lex : M Process unit :=
  p <- get ;;
  lex_sources (sources (global_context p)) ;;;
  exit EXIT_SUCCESS.

Fixpoint parse_only_sources (l : list string) : M Process unit :=
  match l with
  | [] => ret tt
  | path :: l' =>
      r <- source_file_load path ;;
      if r.2 then parse_only_sources l'
      else
        update_context global_context_clear_errors ;;;
        run_effect (parse_file w r.1) ;;;
        parse_only_sources l'
  end.

Definition compiler_parse : M Process unit :=
  p <- get ;;
  parse_only_sources (sources (global_context p)) ;;;
  exit EXIT_SUCCESS.

Definition halt_on_error : M Process unit :=
  p <- get ;;
  if (0 <? errors_found (global_context p))%nat then exit EXIT_FAILURE
  else ret tt.

(** One case of the switch: the pass of [stage] on [module]. *)
Definition run_pass (stage : AnalysisStage) (module : ModulePtr)
  : M Process unit :=
  before <- get ;;
  run_effect (sema_analysis_pass w stage module) ;;;
  after <- get ;;
  log (EvPass module stage (global_context before) (global_context after)).

(** The switch on [module->stage]: the values are those of the
    enumeration, [ANALYSIS_NOT_BEGUN] to [ANALYSIS_FUNCTIONS]. *)
Definition sema_analysis_switch (module : ModulePtr) : M Process unit :=
  p <- get ;;
  match stage_of (global_context p) module with
  | 0 => error_exit "UNREACHABLE"
  | 1 => run_pass ANALYSIS_IMPORTS module
  | 2 => run_pass ANALYSIS_REGISTER_GLOBALS module
  | 3 => run_pass ANALYSIS_CONDITIONAL_COMPILATION module
  | 4 => run_pass ANALYSIS_DECLS module
  | 5 => run_pass ANALYSIS_CT_ASSERT module
  | 6 => run_pass ANALYSIS_FUNCTIONS module
  | _ => ret tt
  end.

(** The loop of [sema_analyze_stage]; [n] bounds its iterations. *)
Fixpoint sema_analyze_stage_loop (n : nat) (module : ModulePtr)
    (stage : AnalysisStage) : M Process unit :=
  match n with
  | O => fun p => OutOfFuel p
  | S n' =>
      p <- get ;;
      if stage_of (global_context p) module <? stage then
        update_context (increment_stage module) ;;;
        sema_analysis_switch module ;;;
        p <- get ;;
        if 0 <? errors_found (global_context p) then ret tt
        else sema_analyze_stage_loop n' module stage
      else ret tt
  end.

(** Every iteration increments [module->stage], so [stage] iterations and
    the last test are enough. *)
Definition sema_analyze_stage (module : ModulePtr) (stage : AnalysisStage)
  : M Process unit :=
  sema_analyze_stage_loop (S stage) module stage.

(** The loop of [analyze_to_stage], from index [i]: the size of
    [module_list] is read again at every iteration. *)
Fixpoint analyze_modules (fuel : nat) (stage : AnalysisStage) (i : nat)
  : M Process unit :=
  match fuel with
  | O => fun p => OutOfFuel p
  | S fuel' =>
      p <- get ;;
      match module_list (global_context p) !! i with
      | None => ret tt
      | Some module =>
          sema_analyze_stage module stage ;;;
          analyze_modules fuel' stage (S i)
      end
  end.

Definition analyze_to_stage (fuel : nat) (stage : AnalysisStage)
  : M Process unit :=
  p <- get ;;
  log (EvStage stage (global_context p)) ;;;
  analyze_modules fuel stage 0 ;;;
  halt_on_error.

Fixpoint analyze_stages (fuel : nat) (stages : list AnalysisStage)
  : M Process unit :=
  match stages with
  | [] => ret tt
  | stage :: stages' =>
      analyze_to_stage fuel stage ;;;
      analyze_stages fuel stages'
  end.

Definition vec_add_source (s : string) : M Process unit :=
  update_context (fun g => set_sources (sources g ++ [s]) g).

(** The first loop of [compiler_compile]: a context for every file newly
    loaded. *)
Fixpoint parse_sources (l : list string) (contexts : list Context)
  : M Process (list Context) :=
  match l with
  | [] => ret contexts
  | path :: l' =>
      r <- source_file_load path ;;
      if r.2 then parse_sources l' contexts
      else
        run_effect (parse_file w r.1) ;;;
        parse_sources l' (contexts ++ [{| context_file := r.1 |}])
  end.

Fixpoint header_gens (l : list ModulePtr) : M Process unit :=
  match l with
  | [] => ret tt
  | module :: l' => log (EvHeaderGen module) ;;; header_gens l'
  end.

(** The standard library sources are added when [lib_dir] is set. *)
Definition add_library_sources : M Process unit :=
  p <- get ;;
  match lib_dir (global_context p) with
  | Some dir =>
      vec_add_source (dir ++ "/std/runtime.c3") ;;;
      vec_add_source (dir ++ "/std/builtin.c3") ;;;
      vec_add_source (dir ++ "/std/io.c3") ;;;
      vec_add_source (dir ++ "/std/mem.c3") ;;;
      vec_add_source (dir ++ "/std/array.c3") ;;;
      vec_add_source (dir ++ "/std/math.c3")
  | None => ret tt
  end.

Definition load_sources : M Process (list Context) :=
  update_context global_context_clear_errors ;;;
  add_library_sources ;;;
  p <- get ;;
  parse_sources (sources (global_context p)) [].

(** [ANALYSIS_NOT_BEGUN + 1 .. ANALYSIS_LAST]. *)
Definition analysis_stages : list AnalysisStage :=
  seq (ANALYSIS_NOT_BEGUN + 1) ANALYSIS_LAST.

(** [compiler_compile]. The set-up of [std_module] between the parsing
    and the analysis touches no field kept here. The code generation and
    the linking that follow [llvm_codegen_setup] are other files: the model
    keeps which modules give an output and how the function leaves (a
    thread that cannot be spawned apart). *)
Definition compiler_compile (fuel : nat) : M Process unit :=
  contexts <- load_sources ;;
  if (length contexts =? 0)%nat
  then error_exit "No source files to compile."
  else
    analyze_stages fuel analysis_stages ;;;
    p <- get ;;
    let modules := module_list (global_context p) in
    if output_headers (active_target p) then header_gens modules
    else
      log EvCodegen ;;;
      let gen_contexts :=
        filter (fun m => llvm_gen w m (global_context p) = true) modules in
      if (length gen_contexts =? 0)%nat
      then error_exit "No output files found."
      else exit EXIT_SUCCESS.

Fixpoint expand_source_names (l : list string) (files : list string)
  : M Process (list string) :=
  match l with
  | [] => ret files
  | name :: l' =>
      match classify_source_name name with
      | Wildcard path recursive =>
          expand_source_names l' (file_add_wildcard_files w files path recursive)
      | SourceFile name => expand_source_names l' (files ++ [name])
      | InvalidName =>
          error_exit invalid_name_message
      end
  end.

Definition target_expand_source_names : M Process unit :=
  p <- get ;;
  files <- expand_source_names (target_sources (active_target p)) [] ;;
  modify (fun p => set_active_target (set_target_sources files (active_target p)) p).

(** [compile]. [global_context.sources] takes the list of the target
    before it is expanded; [symtab_init] and [target_setup] touch no field
    kept here. *)
Definition compile (fuel : nat) : M Process unit :=
  modify (fun p =>
    set_global_context
      (set_sources (target_sources (active_target p)) (global_context p)) p) ;;;
  target_expand_source_names ;;;
  p <- get ;;
  if (length (target_sources (active_target p)) =? 0)%nat
  then error_exit "No files to compile."
  else if lex_only (active_target p) then compiler_lex
  else if parse_only (active_target p) then compiler_parse
  else compiler_compile fuel.

End Driver.

(** ** Vocabulary of the statements *)

Definition exits_nonzero {S A} (o : Outcome S A) : Prop :=
  exists code, exit_code o = Some code /\ code <> 0%Z.

(** The scratch fields when the process starts: static storage is zero. *)
Definition scratch_initial (MAX_STRING_BUFFER : Z) : ScratchBuffer :=
  {| scratch_buffer := replicate (Z.to_nat MAX_STRING_BUFFER) NUL;
     scratch_buffer_len := 0%Z |}.

(** The global variables when the process starts: static storage is
    zero. *)
Definition context_zero : GlobalContext :=
  {| modules := ∅; module_list := []; generic_module_list := [];
     global_symbols := ∅; qualified_symbols := ∅; lib_dir := None;
     sources := []; in_panic_mode := false; errors_found := 0;
     warnings_found := 0; module_heap := [] |}.

Definition arenas_zero : Arenas :=
  let z := {| vmem_size := 0; allocated := 0 |} in
  {| ast_arena := z; expr_arena := z; sourceloc_arena := z;
     toktype_arena := z; tokdata_arena := z; decl_arena := z;
     type_info_arena := z |}.

(** The process once the command line has been read into the target. *)
Definition process_start (target : BuildTarget) : Process :=
  {| global_context := context_zero; active_target := target;
     arenas := arenas_zero; loaded_files := []; trace := [] |}.

(** The arenas whose index zero [compiler_init] sets aside. *)
Definition reserved_arenas : list ArenaId := [sourceloc; toktype; tokdata].

(** The declarations of a list registered under the name [n]. *)
Definition registrations (n : string) (ds : list Decl) : list Decl :=
  filter (fun d => decl_name d = n) ds.

(** The six sources of the standard library under [dir], in the order of
    the code. *)
Definition library_sources (dir : string) : list string :=
  [ (dir ++ "/std/runtime.c3")%string; (dir ++ "/std/builtin.c3")%string;
    (dir ++ "/std/io.c3")%string; (dir ++ "/std/mem.c3")%string;
    (dir ++ "/std/array.c3")%string; (dir ++ "/std/math.c3")%string ].

Definition no_effect : PassEffect :=
  {| new_modules := []; new_symbols := []; new_errors := 0 |}.

Definition module_effect (name : string) : PassEffect :=
  {| new_modules :=
       [({| path_module := name; path_len := String.length name |}, None)];
     new_symbols := []; new_errors := 0 |}.

Definition error_effect (n : nat) : PassEffect :=
  {| new_modules := []; new_symbols := []; new_errors := n |}.

(** Collaborators for the examples: no library directory, every path can
    be read, the file [a.c3] declares the module [a] and [b.c3] the module
    [b], every module gives an output, and the passes are given. *)
Definition example_parse (path : string) (g : GlobalContext) : PassEffect :=
  if decide (path = "a.c3"%string) then module_effect "a"
  else if decide (path = "b.c3"%string) then module_effect "b"
  else no_effect.

Definition example_collaborators
    (passes : AnalysisStage -> ModulePtr -> GlobalContext -> PassEffect)
  : Collaborators :=
  {| find_lib_dir := None;
     file_add_wildcard_files := fun files _ _ => files;
     source_full_path := fun path => Some path;
     parse_file := example_parse;
     sema_analysis_pass := passes;
     llvm_gen := fun _ _ => true |}.

(** Passes of which one, [REGISTER_GLOBALS] on the first module, creates
    the module [c]. *)
Definition late_module_passes (stage : AnalysisStage) (module : ModulePtr)
    (g : GlobalContext) : PassEffect :=
  if (stage =? ANALYSIS_REGISTER_GLOBALS) && (module =? 0)
  then module_effect "c" else no_effect.

(** Passes of which one, [IMPORTS] on the first module, reports an
    error. *)
Definition failing_passes (stage : AnalysisStage) (module : ModulePtr)
    (g : GlobalContext) : PassEffect :=
  if (stage =? ANALYSIS_IMPORTS) && (module =? 0)
  then error_effect 1 else no_effect.

Definition quiet_collaborators : Collaborators :=
  example_collaborators (fun _ _ _ => no_effect).

Definition example_target (sources : list string) : BuildTarget :=
  {| target_sources := sources; lex_only := false; parse_only := false;
     output_headers := false |}.

(** The whole program: [compiler_init], then [compile], from the start of
    the process. *)
Definition run (w : Collaborators) (std_lib_dir : option string)
    (target : BuildTarget) (fuel : nat) : Outcome Process unit :=
  (compiler_init w std_lib_dir ;;; compile w fuel) (process_start target).

Definition out_of_fuel {S A} (o : Outcome S A) : Prop :=
  match o with OutOfFuel _ => True | _ => False end.

(** The round of [analyze_to_stage] an event belongs to: the target stage
    and the global context of the last round started before it. *)
Definition last_round (tr : list Event) : option (AnalysisStage * GlobalContext) :=
  foldl (fun r e => match e with EvStage t g => Some (t, g) | _ => r end) None tr.

(** A pass that leaves [errors_found > 0]. *)
Definition error_pass (e : Event) : Prop :=
  match e with
  | EvPass _ _ _ after => 0 < errors_found after
  | _ => False
  end.

(** C1 in the words of the spec: when [b] begins stage [s], every module
    [a] of [module_list] has [a.stage >= s - 1]. *)
Definition lockstep (tr : list Event) : Prop :=
  forall pre b s before after post,
    tr = pre ++ EvPass b s before after :: post ->
    forall a, a ∈ module_list before -> s - 1 <= stage_of before a.

(** C1 as the code has it: the bound holds for the modules that were in
    [module_list] when the round began. *)
Definition lockstep_of_round (tr : list Event) : Prop :=
  forall pre b s before after post,
    tr = pre ++ EvPass b s before after :: post ->
    exists t g0,
      last_round pre = Some (t, g0) /\ s <= t /\
      forall a, a ∈ module_list g0 ->
        a ∈ module_list before /\ s - 1 <= t - 1 <= stage_of before a.

(** C3 in the words of the spec: after a pass that leaves errors nothing
    more runs, neither a pass nor the back end. *)
Definition stops_at_error (tr : list Event) : Prop :=
  forall pre m s before after post,
    tr = pre ++ EvPass m s before after :: post ->
    0 < errors_found after ->
    post = [].

(** C3 as the code has it: after a pass on [m] that leaves errors, all
    that runs are passes on other modules, each leaving errors as well
    (so each module runs at most one of them): no round starts and the
    back end is not reached. *)
Definition halts_after_error (tr : list Event) : Prop :=
  forall pre m s before after post,
    tr = pre ++ EvPass m s before after :: post ->
    0 < errors_found after ->
    Forall (fun e => exists m' s' before' after',
              e = EvPass m' s' before' after' /\ m' <> m /\
              0 < errors_found after') post.

(** The names of the modules a parse or a pass creates. *)
Definition effect_names (e : PassEffect) : list string :=
  (fun np => path_module np.1) <$> new_modules e.

(** The parser and the passes create modules with names of [U] only. *)
Definition names_within (w : Collaborators) (U : gset string) : Prop :=
  (forall path g n, n ∈ effect_names (parse_file w path g) -> n ∈ U) /\
  (forall s m g n, n ∈ effect_names (sema_analysis_pass w s m g) -> n ∈ U).

(** *** Invariants of the proofs *)

(** Pointers of the registry point into the heap, and [module_list] holds
    no module twice. *)
Definition ctx_wf (g : GlobalContext) : Prop :=
  NoDup (module_list g) /\
  (forall m, m ∈ module_list g -> m < length (module_heap g)) /\
  (forall n m, modules g !! n = Some m -> m < length (module_heap g)).

(** [g'] comes after [g] in the analysis. *)
Definition ctx_le (g g' : GlobalContext) : Prop :=
  module_list g `prefix_of` module_list g' /\
  length (module_heap g) <= length (module_heap g') /\
  (forall a, stage_of g a <= stage_of g' a) /\
  errors_found g <= errors_found g'.

Definition trace_ok (p : Process) : Prop :=
  lockstep_of_round (trace p) /\ halts_after_error (trace p).

(** What holds when the driver leaves with [code]. *)
Definition exit_ok (code : Z) (p : Process) : Prop :=
  trace_ok p /\
  (code = EXIT_FAILURE \/ Forall (fun e => ~ error_pass e) (trace p)).

(** Inside the round for stage [t], before the module at index [i]. *)
Definition round_inv (t : AnalysisStage) (i : nat) (p : Process) : Prop :=
  let g := global_context p in
  ctx_wf g /\
  (exists g0, last_round (trace p) = Some (t, g0) /\
     module_list g0 `prefix_of` module_list g /\
     forall a, a ∈ module_list g0 -> t - 1 <= stage_of g a) /\
  (forall m s before after, EvPass m s before after ∈ trace p ->
     errors_found after <= errors_found g) /\
  (forall m s before after, EvPass m s before after ∈ trace p ->
     0 < errors_found after -> exists j, j < i /\ module_list g !! j = Some m) /\
  (errors_found g = 0 -> forall j a, j < i -> module_list g !! j = Some a ->
     t <= stage_of g a) /\
  i <= length (module_list g) /\
  trace_ok p.

(** Between two rounds, before the round for stage [t]. *)
Definition round_ready (t : AnalysisStage) (p : Process) : Prop :=
  let g := global_context p in
  ctx_wf g /\
  (forall a, a ∈ module_list g -> t - 1 <= stage_of g a) /\
  Forall (fun e => ~ error_pass e) (trace p) /\
  trace_ok p.

(** The modules are as many as their names, all of them among [U]. *)
Definition ctx_bounded (U : gset string) (g : GlobalContext) : Prop :=
  length (module_list g) + length (generic_module_list g) <= size (modules g) /\
  dom (modules g) ⊆ U.

(** What holds of the outcome of a run: the trace is as the code has it,
    and a pass that left errors is followed by [exit(EXIT_FAILURE)]. *)
Definition outcome_safe (o : Outcome Process unit) : Prop :=
  trace_ok (final_state o) /\
  (Exists error_pass (trace (final_state o)) ->
   exit_code o = Some EXIT_FAILURE \/ out_of_fuel o).

(** Only the passes of the first stage create modules, as the contracts
    of the passes in the spec have it. *)
Definition only_imports_create (w : Collaborators) : Prop :=
  forall s m g,
    s <> ANALYSIS_IMPORTS -> new_modules (sema_analysis_pass w s m g) = [].

(** From the second stage on, [module_list] is the one of the start of
    the round. *)
Definition round_stable (tr : list Event) : Prop :=
  forall pre b s before after post,
    tr = pre ++ EvPass b s before after :: post ->
    forall t g0, last_round pre = Some (t, g0) ->
      2 <= s -> module_list before = module_list g0.

Definition stable_inv (t : AnalysisStage) (p : Process) : Prop :=
  round_stable (trace p) /\
  exists g0, last_round (trace p) = Some (t, g0) /\
    (2 <= t ->
     module_list (global_context p) = module_list g0 /\
     forall a, a ∈ module_list (global_context p) ->
       1 <= stage_of (global_context p) a).

(** Passes of which one, [IMPORTS] on the first module, creates the
    module [c]. *)
Definition import_passes (stage : AnalysisStage) (module : ModulePtr)
    (g : GlobalContext) : PassEffect :=
  if (stage =? ANALYSIS_IMPORTS) && (module =? 0)
  then module_effect "c" else no_effect.

(** ** Vocabulary of the further properties *)

(** The characters the scratch buffer holds: those before
    [scratch_buffer_len]. *)
Definition scratch_content (g : ScratchBuffer) : list ascii :=
  take (Z.to_nat (scratch_buffer_len g)) (scratch_buffer g).

(** What an operation adds to them, and how many characters that is. *)
Definition op_payload (op : ScratchOp) : list ascii :=
  match op with
  | OpClear => []
  | OpAppend s => c_str s
  | OpAppendLen s len => take (Z.to_nat len) s
  | OpAppendChar c => [c]
  end.

Definition op_size (op : ScratchOp) : Z :=
  match op with
  | OpClear => 0
  | OpAppend s => Z.of_nat (strlen s)
  | OpAppendLen s len => len
  | OpAppendChar c => 1
  end.

(** The characters held after a sequence of operations, from [acc]. *)
Fixpoint ops_content (acc : list ascii) (ops : list ScratchOp) : list ascii :=
  match ops with
  | [] => acc
  | OpClear :: ops' => ops_content [] ops'
  | op :: ops' => ops_content (acc ++ op_payload op) ops'
  end.

(** Whether a sequence of operations stays within the capacity, from a
    buffer holding [n] characters. *)
Fixpoint ops_fit (MAX_STRING_BUFFER : Z) (n : Z) (ops : list ScratchOp) : bool :=
  match ops with
  | [] => true
  | OpClear :: ops' => ops_fit MAX_STRING_BUFFER 0 ops'
  | op :: ops' =>
      (n + op_size op <=? MAX_STRING_BUFFER - 1)%Z
      && ops_fit MAX_STRING_BUFFER (n + op_size op) ops'
  end.

Definition scratch_exceeded : string :=
  "Scratch buffer size (%d chars) exceeded".

(** The entry of [name] in the sub-table of the module [module], the way
    a qualified lookup reads [qualified_symbols]. *)
Definition qualified_entry (module name : string) (g : GlobalContext)
  : option DeclRef :=
  match qualified_symbols g !! module with
  | Some space => space !! name
  | None => None
  end.

(** The entry of a table under a name, after the declarations [ds] were
    stored under that name over the entry [prev]. *)
Definition entry_after (prev : option DeclRef) (ds : list Decl)
  : option DeclRef :=
  match ds with
  | [] => prev
  | d :: rest =>
      match prev, rest with
      | None, [] => Some (decl_ref d)
      | _, _ => Some poisoned_decl
      end
  end.

(** The declarations of a list in the module [m]. *)
Definition declared_in (m : string) (ds : list Decl) : list Decl :=
  filter (fun d => decl_module d = m) ds.

(** The registry of the modules is consistent: no module is listed
    twice, the modules of the two lists are those [modules] maps a name
    to, and a name is mapped to a module of the heap that carries this
    name and is in [generic_module_list] exactly when it has
    parameters. *)
Definition registry_ok (g : GlobalContext) : Prop :=
  NoDup (module_list g ++ generic_module_list g) /\
  (forall m, m ∈ module_list g ++ generic_module_list g <->
             exists n, global_context_find_module n g = Some m) /\
  (forall n m, global_context_find_module n g = Some m ->
     exists md, module_heap g !! m = Some md /\
                 path_module (module_name md) = n /\
                 (m ∈ generic_module_list g <-> is_Some (module_parameters md))).

(** The names a list of creations asks for. *)
Definition created_names (l : list (Path * option (list TokenId)))
  : list string :=
  (fun np => path_module np.1) <$> l.

(** One turn of the loop of [sema_analyze_stage] on [module]: the stage
    is incremented and the pass of the new stage runs. *)
Definition pass_step (w : Collaborators) (module : ModulePtr) (p : Process)
  : Process :=
  let g1 := increment_stage module (global_context p) in
  let s := stage_of g1 module in
  let g2 := apply_effect (sema_analysis_pass w s module g1) g1 in
  add_event (EvPass module s g1 g2) (set_global_context g2 p).

(** [k] turns of the loop. *)
Fixpoint pass_steps (w : Collaborators) (module : ModulePtr) (k : nat)
    (p : Process) : Process :=
  match k with
  | O => p
  | S k' => pass_steps w module k' (pass_step w module p)
  end.

(** The events of [evs] are passes on [module], of the stages [stages]
    in this order. *)
Definition passes_of (module : ModulePtr) (evs : list Event)
    (stages : list AnalysisStage) : Prop :=
  Forall2 (fun e s => exists before after, e = EvPass module s before after)
          evs stages.

(** The stages of the passes of a trace on [module], in order. *)
Definition passes_on (module : ModulePtr) (tr : list Event)
  : list AnalysisStage :=
  omap (fun e => match e with
                 | EvPass m s _ _ => if decide (m = module) then Some s else None
                 | _ => None
                 end) tr.

(** What the process keeps along the analysis. *)
Definition follows (p p' : Process) : Prop :=
  ctx_le (global_context p) (global_context p') /\
  active_target p' = active_target p /\
  loaded_files p' = loaded_files p.

(** An event of the analysis: the start of a round, or a pass on a module
    of [module_list], of the stage the module has just been given, that
    leaves the context its effect yields. *)
Definition pass_event_ok (w : Collaborators) (e : Event) : Prop :=
  match e with
  | EvStage _ _ => True
  | EvPass m s before after =>
      m ∈ module_list before /\ s = stage_of before m /\
      1 <= s <= ANALYSIS_LAST /\
      after = apply_effect (sema_analysis_pass w s m before) before
  | _ => False
  end.

(** No module has been analysed. *)
Definition fresh_ctx (g : GlobalContext) : Prop :=
  registry_ok g /\ forall a, stage_of g a = ANALYSIS_NOT_BEGUN.

(** The state of the process up to the first round of the analysis. *)
Definition fresh (p : Process) : Prop :=
  trace p = [] /\ fresh_ctx (global_context p).

(** What holds all along the analysis: the registry is consistent, the
    events are rounds and passes, the passes run on a module are those of
    the stages up to its own, in order and each once, no stage is beyond
    [ANALYSIS_LAST], and a module outside [module_list] has not begun. *)
Definition analysis_inv (w : Collaborators) (p : Process) : Prop :=
  registry_ok (global_context p) /\
  Forall (pass_event_ok w) (trace p) /\
  (forall a, passes_on a (trace p) = seq 1 (stage_of (global_context p) a)) /\
  (forall a, stage_of (global_context p) a <= ANALYSIS_LAST) /\
  (forall a, a ∉ module_list (global_context p) ->
     stage_of (global_context p) a = ANALYSIS_NOT_BEGUN).

(** The analysis has gone through: no error, every module of
    [module_list] at [ANALYSIS_LAST]. *)
Definition analysed (p : Process) : Prop :=
  errors_found (global_context p) = 0 /\
  forall a, a ∈ module_list (global_context p) ->
    stage_of (global_context p) a = ANALYSIS_LAST.

(** The calls of [header_gen], one for each module of a list. *)
Definition header_events (l : list ModulePtr) : list Event :=
  EvHeaderGen <$> l.

(** The events [evs] are one pass on each module of [l], in the order of
    [l]: the pass of the stage after the one the module has in [g]. *)
Definition one_pass_each (g : GlobalContext) (evs : list Event)
    (l : list ModulePtr) : Prop :=
  Forall2 (fun e m => exists before after,
             e = EvPass m (S (stage_of g m)) before after) evs l.

(** Collaborators for the examples whose parser reports an error in every
    file, after declaring the module [a]. *)
Definition parse_error_collaborators : Collaborators :=
  {| find_lib_dir := None;
     file_add_wildcard_files := fun files _ _ => files;
     source_full_path := fun path => Some path;
     parse_file := fun _ _ =>
       {| new_modules := [({| path_module := "a"; path_len := 1 |}, None)];
          new_symbols := []; new_errors := 1 |};
     sema_analysis_pass := fun _ _ _ => no_effect;
     llvm_gen := fun _ _ => true |}.

(** The first event, if it is the start of a round, carries the context
    [g0]; before any event the context is [g0]. *)
Definition first_round (g0 : GlobalContext) (p : Process) : Prop :=
  ctx_wf (global_context p) /\
  (trace p = [] -> global_context p = g0) /\
  (forall t g tr, trace p = EvStage t g :: tr -> g = g0).

(** The events [evs] are one [ANALYSIS_IMPORTS] pass on each module of
    [l], in the order of [l]. *)
Definition imports_pass_each (evs : list Event) (l : list ModulePtr) : Prop :=
  Forall2 (fun e m => exists before after,
             e = EvPass m ANALYSIS_IMPORTS before after) evs l.

(** The list [target_expand_source_names] computes, [None] when an entry
    is invalid: the loop of the function, which reads nothing of the
    process but the entries. *)
Fixpoint expanded_names (w : Collaborators) (l : list string)
    (files : list string) : option (list string) :=
  match l with
  | [] => Some files
  | name :: l' =>
      match classify_source_name name with
      | Wildcard path recursive =>
          expanded_names w l' (file_add_wildcard_files w files path recursive)
      | SourceFile name => expanded_names w l' (files ++ [name])
      | InvalidName => None
      end
  end.

(** A source the loader can read. *)
Definition readable (w : Collaborators) (path : string) : Prop :=
  is_Some (source_full_path w path).

(** The sources of the target can be lexed or parsed: they expand to a
    list that is not empty, and each entry, as it is written, can be
    read. *)
Definition sources_ok (w : Collaborators) (l : list string) : Prop :=
  (exists files, expanded_names w l [] = Some files /\ files <> []) /\
  Forall (readable w) l.

(** The sources of a context and its library directory. *)
Definition ctx_sources (g : GlobalContext) : list string * option string :=
  (sources g, lib_dir g).
(** * Properties *)

(** ** The scratch buffer *)

Local Open Scope Z_scope.

Section ScratchFacts.

Variable MAX : Z.
Hypothesis MAX_range : 1 <= MAX <= INT_MAX.

Lemma size_t_small z : 0 <= z < 2 ^ 64 -> size_t z = z.
Proof. intros H. unfold size_t. apply Z.mod_small; lia. Qed.

Lemma uint32_t_small z : 0 <= z < 2 ^ 32 -> uint32_t z = z.
Proof. intros H. unfold uint32_t. apply Z.mod_small; lia. Qed.

Lemma scratch_initial_ok : scratch_ok MAX (scratch_initial MAX).
Proof.
  unfold scratch_ok, scratch_initial; simpl.
  rewrite length_replicate. lia.
Qed.

Lemma append_len_exit g string len :
  scratch_ok MAX g -> 0 <= len <= PTRDIFF_MAX ->
  len + scratch_buffer_len g > MAX - 1 ->
  scratch_buffer_append_len MAX string len g
  = Exited EXIT_FAILURE "Scratch buffer size (%d chars) exceeded" g.
Proof.
  intros [Hlen Hok] Hl Hgt.
  unfold scratch_buffer_append_len, bind, get, error_exit.
  unfold INT_MAX, PTRDIFF_MAX in *.
  rewrite size_t_small by lia.
  destruct (Z.gtb_spec (len + scratch_buffer_len g) (MAX - 1)); [done | lia].
Qed.

Lemma append_len_return g string len :
  scratch_ok MAX g -> 0 <= len <= PTRDIFF_MAX ->
  len + scratch_buffer_len g <= MAX - 1 ->
  scratch_buffer_append_len MAX string len g
  = Returned tt
      {| scratch_buffer :=
           take (Z.to_nat (scratch_buffer_len g)) (scratch_buffer g)
           ++ take (Z.to_nat len) string
           ++ drop (Z.to_nat (scratch_buffer_len g) + Z.to_nat len)
                   (scratch_buffer g);
         scratch_buffer_len := scratch_buffer_len g + len |}.
Proof.
  intros [Hlen Hok] Hl Hle.
  unfold scratch_buffer_append_len, bind, get, modify, memcpy.
  unfold INT_MAX, PTRDIFF_MAX in *.
  rewrite size_t_small by lia.
  destruct (Z.gtb_spec (len + scratch_buffer_len g) (MAX - 1)); [lia |].
  rewrite uint32_t_small by lia. done.
Qed.

Lemma append_char_exit g c :
  scratch_ok MAX g ->
  1 + scratch_buffer_len g > MAX - 1 ->
  scratch_buffer_append_char MAX c g
  = Exited EXIT_FAILURE "Scratch buffer size (%d chars) exceeded" g.
Proof.
  intros [Hlen Hok] Hgt.
  unfold scratch_buffer_append_char, bind, get, error_exit.
  unfold INT_MAX in *.
  rewrite uint32_t_small by lia.
  destruct (Z.gtb_spec (scratch_buffer_len g + 1) (MAX - 1)); [done | lia].
Qed.

Lemma append_char_return g c :
  scratch_ok MAX g ->
  1 + scratch_buffer_len g <= MAX - 1 ->
  scratch_buffer_append_char MAX c g
  = Returned tt
      {| scratch_buffer :=
           <[Z.to_nat (scratch_buffer_len g) := c]> (scratch_buffer g);
         scratch_buffer_len := scratch_buffer_len g + 1 |}.
Proof.
  intros [Hlen Hok] Hle.
  unfold scratch_buffer_append_char, bind, get, modify.
  unfold INT_MAX in *.
  rewrite uint32_t_small by lia.
  destruct (Z.gtb_spec (scratch_buffer_len g + 1) (MAX - 1)); [lia |].
  rewrite uint32_t_small by lia. done.
Qed.

Lemma spliced_length (buf src : list ascii) (off n : nat) :
  (off + n <= length buf)%nat -> (n <= length src)%nat ->
  length (take off buf ++ take n src ++ drop (off + n) buf) = length buf.
Proof.
  intros H1 H2.
  rewrite !length_app, !length_take, length_drop. lia.
Qed.

Lemma strlen_le (s : list ascii) : (strlen s <= length s)%nat.
Proof.
  induction s as [|c s IH]; simpl; [lia |].
  destruct (decide (c = NUL)); lia.
Qed.

Lemma strlen_terminated (buf : list ascii) (n : nat) :
  (n < length buf)%nat -> (strlen (<[n := NUL]> buf) <= n)%nat.
Proof.
  revert n. induction buf as [|c buf IH]; intros n Hn; simpl in *; [lia |].
  destruct n as [|n]; simpl.
  - destruct (decide (NUL = NUL)); [lia | done].
  - destruct (decide (c = NUL)); [lia |].
    specialize (IH n). lia.
Qed.

Lemma strlen_exact (buf : list ascii) (n : nat) :
  (n < length buf)%nat ->
  strlen (<[n := NUL]> buf) = n <-> NUL ∉ take n buf.
Proof.
  revert n. induction buf as [|c buf IH]; intros n Hn; simpl in *; [lia |].
  destruct n as [|n]; simpl.
  - destruct (decide (NUL = NUL)); [| done].
    split; [intros _; apply not_elem_of_nil | done].
  - destruct (decide (c = NUL)) as [->|Hc].
    + split; [lia |]. intros H. exfalso. apply H. left.
    + rewrite not_elem_of_cons. specialize (IH n).
      split.
      * intros H. split; [congruence |]. apply IH; lia.
      * intros [_ H]. f_equal. apply IH; [lia | done].
Qed.

Lemma scratch_op_ok op g g' :
  op_valid op -> scratch_ok MAX g ->
  scratch_op MAX op g = Returned tt g' -> scratch_ok MAX g'.
Proof.
  intros Hv Hok Hrun. pose proof Hok as [Hlen Hb].
  destruct op as [|s|s len|c]; simpl in *.
  - inversion Hrun; subst. unfold scratch_ok; simpl. lia.
  - unfold scratch_buffer_append in Hrun.
    pose proof (strlen_le s) as Hs.
    destruct (Z_le_gt_dec (Z.of_nat (strlen s) + scratch_buffer_len g) (MAX - 1))
      as [Hle|Hgt].
    + rewrite append_len_return in Hrun by (done || lia).
      inversion Hrun; subst. unfold scratch_ok; simpl.
      rewrite spliced_length by lia. lia.
    + rewrite append_len_exit in Hrun by (done || lia). done.
  - destruct (Z_le_gt_dec (len + scratch_buffer_len g) (MAX - 1)) as [Hle|Hgt].
    + rewrite append_len_return in Hrun by (done || lia).
      inversion Hrun; subst. unfold scratch_ok; simpl.
      rewrite spliced_length by lia. lia.
    + rewrite append_len_exit in Hrun by (done || lia). done.
  - destruct (Z_le_gt_dec (1 + scratch_buffer_len g) (MAX - 1)) as [Hle|Hgt].
    + rewrite append_char_return in Hrun by (done || lia).
      inversion Hrun; subst. unfold scratch_ok; simpl.
      rewrite length_insert. lia.
    + rewrite append_char_exit in Hrun by (done || lia). done.
Qed.

Lemma scratch_ops_ok ops g g' :
  Forall op_valid ops -> scratch_ok MAX g ->
  scratch_ops MAX ops g = Returned tt g' -> scratch_ok MAX g'.
Proof.
  intros Hv. revert g. induction Hv as [|op ops Hop Hops IH]; intros g Hok Hrun.
  - inversion Hrun; subst. done.
  - simpl in Hrun. unfold bind in Hrun.
    destruct (scratch_op MAX op g) as [[] g1| |] eqn:E; try done.
    eapply IH; [| exact Hrun]. eapply scratch_op_ok; eauto.
Qed.

End ScratchFacts.

(** C6. For a buffer in its normal state and a payload that exists,
    [scratch_buffer_append_len] exits non-zero exactly when
    [len + scratch_buffer_len > MAX_STRING_BUFFER - 1]; it then leaves the
    buffer as it was; otherwise (a total of exactly
    [MAX_STRING_BUFFER - 1] included) it returns with the payload added at
    the end. [scratch_buffer_append_char] does the same with one
    character. *)
Theorem scratch_buffer_append_boundary
    (MAX : Z) (g : ScratchBuffer) (string : list ascii) (len : Z) (c : ascii) :
  1 <= MAX <= INT_MAX ->
  scratch_ok MAX g ->
  0 <= len <= Z.of_nat (length string) -> len <= PTRDIFF_MAX ->
  let n := Z.to_nat (scratch_buffer_len g) in
  (exits_nonzero (scratch_buffer_append_len MAX string len g)
   <-> len + scratch_buffer_len g > MAX - 1) /\
  (len + scratch_buffer_len g > MAX - 1 ->
   final_state (scratch_buffer_append_len MAX string len g) = g) /\
  (len + scratch_buffer_len g <= MAX - 1 ->
   exists g', scratch_buffer_append_len MAX string len g = Returned tt g' /\
     scratch_ok MAX g' /\
     scratch_buffer_len g' = scratch_buffer_len g + len /\
     take (Z.to_nat (scratch_buffer_len g')) (scratch_buffer g')
     = take n (scratch_buffer g) ++ take (Z.to_nat len) string) /\
  (exits_nonzero (scratch_buffer_append_char MAX c g)
   <-> 1 + scratch_buffer_len g > MAX - 1) /\
  (1 + scratch_buffer_len g > MAX - 1 ->
   final_state (scratch_buffer_append_char MAX c g) = g) /\
  (1 + scratch_buffer_len g <= MAX - 1 ->
   exists g', scratch_buffer_append_char MAX c g = Returned tt g' /\
     scratch_ok MAX g' /\
     scratch_buffer_len g' = scratch_buffer_len g + 1 /\
     take (Z.to_nat (scratch_buffer_len g')) (scratch_buffer g')
     = take n (scratch_buffer g) ++ [c]).
Proof.
  intros HM Hok Hlen Hptr n. pose proof Hok as [Hbuf Hb].
  assert (Hexit : forall o : Outcome ScratchBuffer unit,
            (exists msg s, o = Exited EXIT_FAILURE msg s) -> exits_nonzero o).
  { intros o (msg & s & ->). exists EXIT_FAILURE. split; [done |].
    unfold EXIT_FAILURE. lia. }
  assert (Hret : forall (o : Outcome ScratchBuffer unit) s,
            o = Returned tt s -> ~ exits_nonzero o).
  { intros o s -> (code & H & _). done. }
  repeat split.
  - intros Hex.
    destruct (Z_le_gt_dec (len + scratch_buffer_len g) (MAX - 1)) as [Hle|Hgt];
      [| done].
    exfalso. eapply Hret; [| exact Hex].
    apply append_len_return; (done || lia).
  - intros Hgt. apply Hexit. eexists _, _.
    apply append_len_exit; (done || lia).
  - intros Hgt. rewrite append_len_exit by (done || lia). done.
  - intros Hle. eexists. split; [apply append_len_return; (done || lia) |].
    assert (Hop : op_valid (OpAppendLen string len)) by (simpl; lia).
    split; [| split].
    + eapply (scratch_op_ok MAX HM (OpAppendLen string len)); [done | done |].
      simpl. apply append_len_return; (done || lia).
    + done.
    + simpl. fold n.
      replace (Z.to_nat (scratch_buffer_len g + len))
        with (n + Z.to_nat len)%nat by lia.
      rewrite app_assoc.
      rewrite take_app_length'; [done |].
      rewrite length_app, !length_take. lia.
  - intros Hex.
    destruct (Z_le_gt_dec (1 + scratch_buffer_len g) (MAX - 1)) as [Hle|Hgt];
      [| done].
    exfalso. eapply Hret; [| exact Hex].
    apply append_char_return; (done || lia).
  - intros Hgt. apply Hexit. eexists _, _.
    apply append_char_exit; (done || lia).
  - intros Hgt. rewrite append_char_exit by (done || lia). done.
  - intros Hle. eexists. split; [apply append_char_return; (done || lia) |].
    split; [| split].
    + eapply (scratch_op_ok MAX HM (OpAppendChar c)); [done | done |].
      simpl. apply append_char_return; (done || lia).
    + done.
    + simpl. fold n.
      replace (Z.to_nat (scratch_buffer_len g + 1)) with (S n) by lia.
      erewrite take_S_r; [| apply list_lookup_insert_eq; lia].
      rewrite take_insert_ge by lia. done.
Qed.

(** The boundary of C6 at a capacity of 16: a buffer holding 10
    characters takes 5 more. *)
Lemma scratch_buffer_append_boundary_witness :
  exists g',
    scratch_buffer_append_len 16
      ["h"; "e"; "l"; "l"; "o"]%char 5
      {| scratch_buffer := replicate 16 "x"%char; scratch_buffer_len := 10 |}
    = Returned tt g' /\ scratch_buffer_len g' = 15.
Proof.
  pose proof (scratch_buffer_append_boundary 16
    {| scratch_buffer := replicate 16 "x"%char; scratch_buffer_len := 10 |}
    ["h"; "e"; "l"; "l"; "o"]%char 5 "!"%char) as H.
  destruct H as (_ & _ & H & _).
  - unfold INT_MAX. lia.
  - unfold scratch_ok. simpl. lia.
  - simpl. lia.
  - unfold PTRDIFF_MAX. lia.
  - destruct H as (g' & Hrun & _ & Hl & _); [simpl; lia |].
    exists g'. split; [exact Hrun | exact Hl].
Defined.

(** C10, as the code has it. From a buffer in its normal state (the
    initial one is), every sequence of operations that returns leaves
    [scratch_buffer_len <= MAX_STRING_BUFFER - 1], so
    [scratch_buffer_to_string] writes its terminator inside the buffer.
    The string returned is never longer than [scratch_buffer_len], and it
    has exactly that length when, and only when, none of the characters in
    the buffer is NUL. *)
Theorem scratch_buffer_to_string_in_bounds
    (MAX : Z) (ops : list ScratchOp) (g g' : ScratchBuffer) :
  1 <= MAX <= INT_MAX ->
  scratch_ok MAX g ->
  Forall op_valid ops ->
  scratch_ops MAX ops g = Returned tt g' ->
  let n := Z.to_nat (scratch_buffer_len g') in
  scratch_ok MAX (scratch_initial MAX) /\
  0 <= scratch_buffer_len g' <= MAX - 1 /\
  (n < length (scratch_buffer g'))%nat /\
  exists str g'',
    scratch_buffer_to_string g' = Returned str g'' /\
    scratch_buffer g'' = <[n := NUL]> (scratch_buffer g') /\
    scratch_buffer_len g'' = scratch_buffer_len g' /\
    (length str <= n)%nat /\
    (length str = n <-> NUL ∉ take n (scratch_buffer g')) /\
    (NUL ∉ take n (scratch_buffer g') -> str = take n (scratch_buffer g')).
Proof.
  intros HM Hok Hv Hrun n.
  pose proof (scratch_ops_ok MAX HM ops g g' Hv Hok Hrun) as [Hbuf Hb].
  assert (Hn : (n < length (scratch_buffer g'))%nat) by (subst n; lia).
  split; [apply scratch_initial_ok; done |].
  split; [done |]. split; [done |].
  eexists _, _. split; [reflexivity |]. simpl. fold n.
  split; [done |]. split; [done |].
  pose proof (strlen_terminated (scratch_buffer g') n Hn) as Hle.
  pose proof (strlen_exact (scratch_buffer g') n Hn) as Hex.
  assert (Hlen : length (c_str (<[n := NUL]> (scratch_buffer g')))
                 = strlen (<[n := NUL]> (scratch_buffer g'))).
  { unfold c_str. rewrite length_take.
    pose proof (strlen_le (<[n := NUL]> (scratch_buffer g'))). lia. }
  rewrite Hlen. split; [done |]. split; [done |].
  intros Hnul. unfold c_str. apply Hex in Hnul. rewrite Hnul.
  apply take_insert_ge. lia.
Qed.

Lemma scratch_buffer_to_string_in_bounds_witness :
  exists str g'',
    scratch_buffer_to_string
      {| scratch_buffer := ["h"; "i"; "x"; "x"]%char; scratch_buffer_len := 2 |}
    = Returned str g'' /\ str = ["h"; "i"]%char.
Proof.
  pose proof (scratch_buffer_to_string_in_bounds 4
    [OpClear; OpAppendChar "h"%char; OpAppend ["i"]%char]
    {| scratch_buffer := ["x"; "x"; "x"; "x"]%char; scratch_buffer_len := 3 |}
    {| scratch_buffer := ["h"; "i"; "x"; "x"]%char; scratch_buffer_len := 2 |})
    as H.
  destruct H as (_ & _ & _ & str & g'' & Hrun & _ & _ & _ & _ & Hstr).
  - unfold INT_MAX. lia.
  - unfold scratch_ok. simpl. lia.
  - repeat constructor; simpl; unfold PTRDIFF_MAX; lia.
  - reflexivity.
  - exists str, g''. split; [exact Hrun |].
    apply Hstr. simpl. intros H.
    apply elem_of_cons in H as [H|H]; [discriminate |].
    apply elem_of_cons in H as [H|H]; [discriminate |].
    by apply not_elem_of_nil in H.
Defined.

(** Appending "a", NUL, "b" to the cleared buffer, at any capacity of at
    least 4. *)
Lemma scratch_nul_example (MAX : Z) :
  4 <= MAX <= INT_MAX ->
  exists g str g',
    scratch_ops MAX
      [OpClear; OpAppendChar "a"%char; OpAppendChar NUL; OpAppendChar "b"%char]
      (scratch_initial MAX) = Returned tt g /\
    scratch_buffer_to_string g = Returned str g' /\
    scratch_buffer_len g = 3 /\
    str = ["a"%char].
Proof.
  intros HM.
  assert (HM1 : 1 <= MAX <= INT_MAX) by lia.
  pose proof (scratch_initial_ok MAX HM1) as [H0 _].
  unfold scratch_initial in *. simpl in H0.
  set (buf := replicate (Z.to_nat MAX) NUL) in *.
  eexists _, _, _. split.
  - simpl. unfold bind at 1. simpl.
    unfold bind at 1.
    rewrite (append_char_return MAX HM1) by (unfold scratch_ok; simpl; lia).
    unfold bind at 1.
    rewrite (append_char_return MAX HM1)
      by (unfold scratch_ok; simpl; rewrite ?length_insert; lia).
    unfold bind at 1.
    rewrite (append_char_return MAX HM1)
      by (unfold scratch_ok; simpl; rewrite ?length_insert; lia).
    reflexivity.
  - simpl. split; [reflexivity |]. split; [reflexivity |].
    subst buf.
    destruct (Z.to_nat MAX) as [|[|[|[|m]]]] eqn:E; try lia.
    reflexivity.
Qed.

(** C10 as stated fails when a NUL was appended: after "a", NUL, "b" the
    length kept is 3 and the string returned has length 1. *)
Lemma scratch_buffer_to_string_length_counterexample :
  exists g str g',
    scratch_ops 65536
      [OpClear; OpAppendChar "a"%char; OpAppendChar NUL; OpAppendChar "b"%char]
      (scratch_initial 65536) = Returned tt g /\
    scratch_buffer_to_string g = Returned str g' /\
    scratch_buffer_len g = 3 /\
    str = ["a"%char] /\
    Z.of_nat (length str) <> scratch_buffer_len g.
Proof.
  destruct (scratch_nul_example 65536) as (g & str & g' & H1 & H2 & H3 & H4).
  { unfold INT_MAX. lia. }
  exists g, str, g'. repeat (split; [done |]).
  rewrite H3, H4. simpl. lia.
Qed.

Local Close Scope Z_scope.

(** ** Running the monad *)

Lemma bind_returned {S A B} (m : M S A) (k : A -> M S B) s a s' :
  m s = Returned a s' -> bind m k s = k a s'.
Proof. intros H. unfold bind. by rewrite H. Qed.

Lemma bind_exited {S A B} (m : M S A) (k : A -> M S B) s c msg s' :
  m s = Exited c msg s' -> bind m k s = Exited c msg s'.
Proof. intros H. unfold bind. by rewrite H. Qed.

(** ** The arenas *)

Lemma arena_set_same a v A : arena a (set_arena a v A) = v.
Proof. destruct a; reflexivity. Qed.

Lemma arena_set_other a b v A : a <> b -> arena a (set_arena b v A) = arena a A.
Proof. intros H. destruct a, b; try reflexivity; congruence. Qed.

Lemma arena_calloc_returns a p :
  arena_calloc a p
  = Returned (allocated (arena a (arenas p)))
      (set_arenas (set_arena a (vmem_calloc (arena a (arenas p))).2 (arenas p)) p).
Proof. reflexivity. Qed.

Lemma arena_calloc_allocated a b p :
  allocated (arena b (arenas (final_state (arena_calloc a p))))
  = if decide (a = b) then S (allocated (arena b (arenas p)))
    else allocated (arena b (arenas p)).
Proof.
  rewrite arena_calloc_returns. simpl.
  destruct (decide (a = b)) as [->|Hne].
  - by rewrite arena_set_same.
  - rewrite arena_set_other by congruence. done.
Qed.

Lemma arena_callocs_above a l p :
  (1 <= allocated (arena a (arenas p)))%nat ->
  exists r p', arena_callocs l p = Returned r p' /\
    forall i, (a, i) ∈ r -> i <> 0%nat.
Proof.
  revert p. induction l as [|b l IH]; intros p Hp.
  - exists [], p. split; [done |]. intros i Hi. by apply not_elem_of_nil in Hi.
  - pose proof (arena_calloc_allocated b a p) as Hb.
    rewrite arena_calloc_returns in Hb. simpl in Hb.
    destruct (IH (set_arenas (set_arena b (vmem_calloc (arena b (arenas p))).2
                                (arenas p)) p)) as (r & p' & Hr & Hnz).
    { simpl. rewrite Hb. destruct (decide (b = a)); lia. }
    exists ((b, allocated (arena b (arenas p))) :: r), p'.
    split.
    + simpl. erewrite bind_returned; [| apply arena_calloc_returns].
      erewrite bind_returned; [| exact Hr]. done.
    + intros i Hi. apply elem_of_cons in Hi as [Hi|Hi]; [| by apply Hnz].
      inversion Hi; subst. lia.
Qed.

(** C8, as the code has it. [compiler_init] returns, and it allocates one
    object in each of the source-location, token-type and token-data
    arenas and none in the four others (the AST arena among them). So in
    those three arenas no later allocation returns index 0. *)
Theorem compiler_init_reserves_zero_index
    (w : Collaborators) (std_lib_dir : option string) (p : Process) :
  exists p1,
    compiler_init w std_lib_dir p = Returned tt p1 /\
    (forall a, allocated (arena a (arenas p1))
               = if decide (a ∈ reserved_arenas) then 1%nat else 0%nat) /\
    forall a l, a ∈ reserved_arenas ->
      exists r p2, arena_callocs l p1 = Returned r p2 /\
        forall i, (a, i) ∈ r -> i <> 0%nat.
Proof.
  assert (H : exists p1,
    compiler_init w std_lib_dir p = Returned tt p1 /\
    (forall a, allocated (arena a (arenas p1))
               = if decide (a ∈ reserved_arenas) then 1%nat else 0%nat)).
  { destruct std_lib_dir; (eexists; split; [vm_compute; reflexivity |]);
      intros a; destruct a; reflexivity. }
  destruct H as (p1 & Hinit & Halloc).
  exists p1. split; [done |]. split; [done |].
  intros a l Ha. apply arena_callocs_above.
  rewrite Halloc. destruct (decide (a ∈ reserved_arenas)); [lia | done].
Qed.

Lemma compiler_init_reserves_zero_index_witness :
  exists r p2,
    arena_callocs [sourceloc; ast; sourceloc]
      (final_state (compiler_init quiet_collaborators None (process_start (example_target []))))
    = Returned r p2 /\
    forall i, (sourceloc, i) ∈ r -> i <> 0%nat.
Proof.
  destruct (compiler_init_reserves_zero_index quiet_collaborators None (process_start (example_target []))) as (p1 & Hinit & _ & H).
  rewrite Hinit. simpl.
  apply (H sourceloc [sourceloc; ast; sourceloc]).
  unfold reserved_arenas. apply elem_of_cons. by left.
Defined.

(** C8 as stated fails for the AST arena: it is one of the indexed arenas,
    and the first allocation after [compiler_init] returns index 0. *)
Lemma compiler_init_ast_index_counterexample :
  exists p1 p2,
    compiler_init quiet_collaborators None (process_start (example_target [])) = Returned tt p1 /\
    ast ∈ indexed_arenas /\
    arena_calloc ast p1 = Returned 0%nat p2.
Proof.
  eexists _, _. split; [vm_compute; reflexivity |].
  split; [unfold indexed_arenas; apply elem_of_cons; by left |].
  vm_compute. reflexivity.
Qed.

(** ** The public-symbol registry *)

Lemma register_in_lookup (t : gmap string DeclRef) d n :
  register_in t d !! n
  = if decide (decl_name d = n)
    then Some (match t !! n with Some _ => poisoned_decl | None => decl_ref d end)
    else t !! n.
Proof.
  unfold register_in.
  destruct (decide (decl_name d = n)) as [<-|Hne].
  - destruct (t !! decl_name d); by rewrite lookup_insert_eq.
  - destruct (t !! decl_name d); by rewrite lookup_insert_ne.
Qed.

Lemma register_global_symbols d g :
  global_symbols (compiler_register_public_symbol d g)
  = register_in (global_symbols g) d.
Proof. reflexivity. Qed.

Lemma register_symbols_snoc ds d g :
  register_symbols (ds ++ [d]) g
  = compiler_register_public_symbol d (register_symbols ds g).
Proof. unfold register_symbols. by rewrite foldl_snoc. Qed.

Lemma registrations_snoc n ds d :
  registrations n (ds ++ [d])
  = registrations n ds ++ (if decide (decl_name d = n) then [d] else []).
Proof.
  unfold registrations. rewrite filter_app. f_equal.
Qed.

(** The entry of a name after a sequence of registrations into an empty
    table. *)
Lemma register_symbols_lookup ds g n :
  global_symbols (register_symbols ds (set_global_symbols ∅ g)) !! n
  = match registrations n ds with
    | [] => None
    | [d] => Some (decl_ref d)
    | _ => Some poisoned_decl
    end.
Proof.
  induction ds as [|d ds IH] using rev_ind.
  - simpl. apply lookup_empty.
  - rewrite register_symbols_snoc, register_global_symbols.
    rewrite register_in_lookup, registrations_snoc, IH.
    destruct (decide (decl_name d = n)).
    + destruct (registrations n ds) as [|d1 [|d2 l]]; simpl; done.
    + by rewrite app_nil_r.
Qed.

(** C2. One registration stores the declaration under a name with no
    entry and the poison sentinel under a name with any entry (the same
    declaration, another one or the sentinel); the sub-table of the module
    follows the same rule and starts empty when the module has none.
    After a sequence of registrations into the empty table a name maps to
    a declaration exactly when it was registered once, and to the sentinel
    exactly when it was registered twice or more. *)
Theorem compiler_register_public_symbol_poisons
    (d : Decl) (g : GlobalContext) (ds : list Decl) (n : string) :
  let name := decl_name d in
  let space := default ∅ (qualified_symbols g !! decl_module d) in
  let entry (t : gmap string DeclRef) :=
    match t !! name with Some _ => poisoned_decl | None => decl_ref d end in
  let g' := compiler_register_public_symbol d g in
  let table := global_symbols (register_symbols ds (set_global_symbols ∅ g)) in
  global_symbols g' = <[name := entry (global_symbols g)]> (global_symbols g) /\
  qualified_symbols g'
  = <[decl_module d := <[name := entry space]> space]> (qualified_symbols g) /\
  (forall d', table !! n = Some (decl_ref d') <-> registrations n ds = [d']) /\
  (table !! n = Some poisoned_decl <-> (2 <= length (registrations n ds))%nat) /\
  (table !! n = None <-> registrations n ds = []).
Proof.
  intros name space entry g' table.
  split; [| split].
  - subst g' entry name. rewrite register_global_symbols. unfold register_in.
    by destruct (global_symbols g !! decl_name d).
  - subst g' entry name space. unfold compiler_register_public_symbol. simpl.
    destruct (qualified_symbols g !! decl_module d) as [sp|]; simpl;
      unfold register_in.
    + by destruct (sp !! decl_name d).
    + by rewrite lookup_empty.
  - subst table. rewrite register_symbols_lookup.
    destruct (registrations n ds) as [|d1 [|d2 l]]; simpl.
    + repeat split; try done; try lia.
    + repeat split; try done; try lia; intros; congruence.
    + repeat split; try done; try lia.
Qed.

(** ** The module registry *)

Lemma find_existing name ps g m :
  modules g !! path_module name = Some m ->
  compiler_find_or_create_module name ps g = (m, g).
Proof.
  intros H. unfold compiler_find_or_create_module, global_context_find_module.
  by rewrite H.
Qed.

Lemma find_or_create_registers name ps g :
  modules (compiler_find_or_create_module name ps g).2 !! path_module name
  = Some (compiler_find_or_create_module name ps g).1.
Proof.
  unfold compiler_find_or_create_module, global_context_find_module.
  destruct (modules g !! path_module name) as [m|] eqn:E; [done |].
  destruct ps; simpl; by rewrite lookup_insert_eq.
Qed.

Lemma find_or_create_keeps name ps g n m :
  modules g !! n = Some m ->
  modules (compiler_find_or_create_module name ps g).2 !! n = Some m.
Proof.
  intros H.
  unfold compiler_find_or_create_module, global_context_find_module.
  destruct (modules g !! path_module name) as [m'|] eqn:E; [done |].
  assert (path_module name <> n) by congruence.
  destruct ps; simpl; by rewrite lookup_insert_ne.
Qed.

Lemma create_modules_keeps l g n m :
  modules g !! n = Some m -> modules (create_modules l g) !! n = Some m.
Proof.
  revert g. induction l as [|[name ps] l IH]; intros g H; [done |].
  simpl. apply IH. by apply find_or_create_keeps.
Qed.

(** C7. A call with a name the registry does not hold allocates a module
    at [ANALYSIS_NOT_BEGUN] and appends it to [generic_module_list] when
    [parameters] is given, to [module_list] otherwise; a call with a name
    it holds returns the module held and changes nothing. After a first
    call and any further creations, a call with the same name returns the
    module of the first call and leaves the global context as it is,
    whatever [parameters] it is given. *)
Theorem compiler_find_or_create_module_idempotent
    (name : Path) (ps ps' : option (list TokenId)) (len' : nat)
    (others : list (Path * option (list TokenId))) (g : GlobalContext) :
  let r := compiler_find_or_create_module name ps g in
  let name' := {| path_module := path_module name; path_len := len' |} in
  let g2 := create_modules others r.2 in
  match modules g !! path_module name with
  | None =>
      r.1 = length (module_heap g) /\
      module_heap r.2
      = module_heap g ++ [{| module_name := name;
                             module_stage := ANALYSIS_NOT_BEGUN;
                             module_parameters := ps;
                             module_symbols := ∅ |}] /\
      stage_of r.2 r.1 = ANALYSIS_NOT_BEGUN /\
      generic_module_list r.2
      = generic_module_list g
        ++ match ps with Some _ => [r.1] | None => [] end /\
      module_list r.2
      = module_list g ++ match ps with Some _ => [] | None => [r.1] end
  | Some m => r = (m, g)
  end /\
  compiler_find_or_create_module name' ps' r.2 = (r.1, r.2) /\
  compiler_find_or_create_module name' ps' g2 = (r.1, g2).
Proof.
  intros r name' g2.
  split; [| split].
  - subst r. unfold compiler_find_or_create_module, global_context_find_module.
    destruct (modules g !! path_module name) as [m|] eqn:E; [done |].
    unfold stage_of.
    destruct ps; simpl; rewrite ?app_nil_r;
      rewrite lookup_app_r, Nat.sub_diag by lia; done.
  - apply find_existing. subst r name'. simpl.
    apply find_or_create_registers.
  - apply find_existing. subst g2 r name'. simpl.
    apply create_modules_keeps, find_or_create_registers.
Qed.

(** ** Source names *)

Lemma string_app_cons c (s t : string) :
  (String c s ++ t)%string = String c (s ++ t)%string.
Proof. reflexivity. Qed.

Lemma string_app_nil (t : string) : (""%string ++ t)%string = t.
Proof. reflexivity. Qed.

Lemma string_length_app (s t : string) :
  String.length (s ++ t) = (String.length s + String.length t)%nat.
Proof.
  induction s as [|c s IH]; [done |].
  rewrite string_app_cons. simpl. by rewrite IH.
Qed.

Lemma char_at_app_r (s t : string) i :
  char_at (s ++ t) (String.length s + i) = char_at t i.
Proof.
  unfold char_at. rewrite (Nat.add_comm (String.length s) i).
  by rewrite <- append_correct2.
Qed.

Lemma substring_zero n (s : string) : String.substring n 0 s = ""%string.
Proof.
  revert n. induction s as [|c s IH]; intros [|n]; simpl; auto.
Qed.

Lemma substring_app_l (s t : string) k :
  String.substring 0 (String.length s + k) (s ++ t)
  = (s ++ String.substring 0 k t)%string.
Proof.
  induction s as [|c s IH]; [done |].
  rewrite !string_app_cons. simpl. by rewrite IH.
Qed.

Lemma substring_app_r (s t : string) i m :
  String.substring (String.length s + i) m (s ++ t) = String.substring i m t.
Proof.
  induction s as [|c s IH]; [done |].
  rewrite string_app_cons. simpl. done.
Qed.

Lemma substring_split (s : string) n :
  (n <= String.length s)%nat ->
  s = (String.substring 0 n s
       ++ String.substring n (String.length s - n) s)%string.
Proof.
  revert n. induction s as [|c s IH]; intros [|n] Hn; simpl in *; try lia.
  - done.
  - rewrite string_app_nil. f_equal.
    clear. induction s as [|c s IH]; simpl; [done | by rewrite <- IH].
  - rewrite string_app_cons. f_equal. apply IH. lia.
Qed.

Lemma substring_step (s : string) n m :
  (n < String.length s)%nat ->
  String.substring n (S m) s
  = String (char_at s n) (String.substring (S n) m s).
Proof.
  revert n. induction s as [|c s IH]; intros n Hn; simpl in *; [lia |].
  destruct n as [|n].
  - unfold char_at. simpl. done.
  - rewrite IH by lia. unfold char_at. simpl. done.
Qed.

(** The last [k] characters, for the suffixes of the driver. *)
Lemma last_one (s : string) :
  (1 <= String.length s)%nat ->
  s = (String.substring 0 (String.length s - 1) s
       ++ String (char_at s (String.length s - 1)) "")%string.
Proof.
  intros H.
  rewrite (substring_split s (String.length s - 1)) at 1 by lia.
  f_equal.
  replace (String.length s - (String.length s - 1))%nat with 1%nat by lia.
  rewrite substring_step by lia. by rewrite substring_zero.
Qed.

Lemma last_two (s : string) :
  (2 <= String.length s)%nat ->
  s = (String.substring 0 (String.length s - 2) s
       ++ String (char_at s (String.length s - 2))
            (String (char_at s (String.length s - 1)) ""))%string.
Proof.
  intros H.
  rewrite (substring_split s (String.length s - 2)) at 1 by lia.
  f_equal.
  replace (String.length s - (String.length s - 2))%nat with 2%nat by lia.
  rewrite substring_step by lia.
  replace (S (String.length s - 2)) with (String.length s - 1)%nat by lia.
  rewrite substring_step by lia. by rewrite substring_zero.
Qed.

Lemma last_three (s : string) :
  (3 <= String.length s)%nat ->
  s = (String.substring 0 (String.length s - 3) s
       ++ String.substring (String.length s - 3) 3 s)%string.
Proof.
  intros H.
  rewrite (substring_split s (String.length s - 3)) at 1 by lia.
  f_equal. f_equal. lia.
Qed.

Lemma last_three_chars (s : string) :
  (3 <= String.length s)%nat ->
  String.substring (String.length s - 3) 3 s
  = String (char_at s (String.length s - 3))
      (String (char_at s (String.length s - 2))
         (String (char_at s (String.length s - 1)) "")).
Proof.
  intros H.
  rewrite substring_step by lia.
  replace (S (String.length s - 3)) with (String.length s - 2)%nat by lia.
  rewrite substring_step by lia.
  replace (S (String.length s - 2)) with (String.length s - 1)%nat by lia.
  rewrite substring_step by lia. by rewrite substring_zero.
Qed.

Lemma classify_star_dir prefix :
  classify_source_name (prefix ++ "/*") = Wildcard (prefix ++ "/") false.
Proof.
  unfold classify_source_name.
  rewrite string_length_app. simpl String.length.
  replace (String.length prefix + 2 - 1)%nat
    with (String.length prefix + 1)%nat by lia.
  replace (String.length prefix + 2 - 2)%nat
    with (String.length prefix + 0)%nat by lia.
  rewrite !char_at_app_r, substring_app_l.
  destruct (String.length prefix + 2 <? 1)%nat eqn:E;
    [apply Nat.ltb_lt in E; lia |].
  simpl. by rewrite orb_true_r.
Qed.

Lemma classify_star_star_dir prefix :
  classify_source_name (prefix ++ "/**") = Wildcard (prefix ++ "/") true.
Proof.
  unfold classify_source_name.
  rewrite string_length_app. simpl String.length.
  replace (String.length prefix + 3 - 1)%nat
    with (String.length prefix + 2)%nat by lia.
  replace (String.length prefix + 3 - 2)%nat
    with (String.length prefix + 1)%nat by lia.
  replace (String.length prefix + 3 - 3)%nat
    with (String.length prefix + 0)%nat by lia.
  rewrite !char_at_app_r, !substring_app_l.
  destruct (String.length prefix + 3 <? 1)%nat eqn:E;
    [apply Nat.ltb_lt in E; lia |].
  destruct (String.length prefix + 3 =? 1)%nat eqn:E1;
    [apply Nat.eqb_eq in E1; lia |].
  simpl. by rewrite orb_true_r.
Qed.

Lemma classify_wildcard_shape name path recursive :
  classify_source_name name = Wildcard path recursive ->
  if recursive
  then ends_with "/**" name \/ name = "**"%string
  else ends_with "/*" name \/ name = "*"%string.
Proof.
  unfold classify_source_name.
  destruct (String.length name <? 1)%nat eqn:E1; [done |].
  apply Nat.ltb_ge in E1.
  destruct (decide (char_at name (String.length name - 1) = "*"%char))
    as [Hlast|Hlast].
  - destruct (String.length name =? 1)%nat eqn:E2; simpl.
    { intros [= <- <-]. right. apply Nat.eqb_eq in E2.
      rewrite (last_one name) by lia. rewrite Hlast, E2. simpl.
      by rewrite substring_zero. }
    apply Nat.eqb_neq in E2.
    destruct (bool_decide (char_at name (String.length name - 2) = "/"%char))
      eqn:E3; simpl.
    { intros [= <- <-]. left. apply bool_decide_eq_true in E3.
      eexists. rewrite (last_two name) at 1 by lia. by rewrite Hlast, E3. }
    destruct (bool_decide (char_at name (String.length name - 2) = "*"%char))
      eqn:E4; simpl; [| done].
    apply bool_decide_eq_true in E4.
    destruct (String.length name =? 2)%nat eqn:E5; simpl.
    { intros [= <- <-]. right. apply Nat.eqb_eq in E5.
      rewrite (last_two name) by lia. rewrite Hlast, E4, E5. simpl.
      by rewrite substring_zero. }
    apply Nat.eqb_neq in E5.
    destruct (bool_decide (char_at name (String.length name - 3) = "/"%char))
      eqn:E6; simpl; [| done].
    intros [= <- <-]. left. apply bool_decide_eq_true in E6.
    eexists. rewrite (last_three name) at 1 by lia.
    rewrite last_three_chars by lia. by rewrite Hlast, E4, E6.
  - destruct (String.length name <? 4)%nat; [done |].
    destruct (bool_decide _); done.
Qed.

Lemma classify_file name x :
  classify_source_name name = SourceFile x ->
  x = name /\ ends_with ".c3" name /\ (4 <= String.length name)%nat.
Proof.
  unfold classify_source_name.
  destruct (String.length name <? 1)%nat eqn:E1; [done |].
  destruct (decide (char_at name (String.length name - 1) = "*"%char)).
  - repeat (destruct (_ || _) || destruct (negb _)); done.
  - destruct (String.length name <? 4)%nat eqn:E2; [done |].
    apply Nat.ltb_ge in E2.
    destruct (bool_decide (String.substring (String.length name - 3) 3 name
                           = ".c3"%string)) eqn:E3; simpl; [| done].
    apply bool_decide_eq_true in E3.
    intros [= <-]. split; [done |]. split; [| done].
    eexists. rewrite (last_three name) at 1 by lia. by rewrite E3.
Qed.

Lemma classify_c3 prefix :
  (1 <= String.length prefix)%nat ->
  classify_source_name (prefix ++ ".c3") = SourceFile (prefix ++ ".c3").
Proof.
  intros Hp. unfold classify_source_name.
  rewrite string_length_app. simpl String.length.
  replace (String.length prefix + 3 - 1)%nat
    with (String.length prefix + 2)%nat by lia.
  replace (String.length prefix + 3 - 3)%nat
    with (String.length prefix + 0)%nat by lia.
  rewrite !char_at_app_r, substring_app_r.
  destruct (String.length prefix + 3 <? 1)%nat eqn:E;
    [apply Nat.ltb_lt in E; lia |].
  destruct (String.length prefix + 3 <? 4)%nat eqn:E1;
    [apply Nat.ltb_lt in E1; lia |].
  done.
Qed.

Lemma classify_file_no_star name x :
  classify_source_name name = SourceFile x ->
  char_at name (String.length name - 1) <> "*"%char.
Proof.
  unfold classify_source_name.
  destruct (String.length name <? 1)%nat eqn:E1; [done |].
  destruct (decide (char_at name (String.length name - 1) = "*"%char));
    [| done].
  repeat (destruct (_ || _) || destruct (negb _)); done.
Qed.

Lemma classify_not_c3 name :
  ~ ends_with ".c3" name ->
  ~ (ends_with "/*" name \/ name = "*"%string) ->
  ~ (ends_with "/**" name \/ name = "**"%string) ->
  classify_source_name name = InvalidName.
Proof.
  intros Hc3 H1 H2.
  destruct (classify_source_name name) as [|path [|]|x] eqn:E; [done | | |].
  - by apply classify_wildcard_shape in E.
  - by apply classify_wildcard_shape in E.
  - apply classify_file in E. tauto.
Qed.

Lemma classify_other_star prefix :
  ~ (ends_with "/*" (prefix ++ "*") \/ (prefix ++ "*")%string = "*"%string) ->
  ~ (ends_with "/**" (prefix ++ "*") \/ (prefix ++ "*")%string = "**"%string) ->
  classify_source_name (prefix ++ "*") = InvalidName.
Proof.
  intros H1 H2.
  destruct (classify_source_name (prefix ++ "*")) as [|path [|]|x] eqn:E;
    [done | | |].
  - by apply classify_wildcard_shape in E.
  - by apply classify_wildcard_shape in E.
  - apply classify_file_no_star in E. exfalso. apply E.
    rewrite string_length_app. simpl.
    replace (String.length prefix + 1 - 1)%nat
      with (String.length prefix + 0)%nat by lia.
    by rewrite char_at_app_r.
Qed.

Section SourceFacts.

Variable w : Collaborators.

Lemma expand_invalid before name after files p :
  Forall (fun n => classify_source_name n <> InvalidName) before ->
  classify_source_name name = InvalidName ->
  expand_source_names w (before ++ name :: after) files p
  = Exited EXIT_FAILURE invalid_name_message p.
Proof.
  intros Hb Hn. revert files.
  induction Hb as [|n before Hn' Hb IH]; intros files; simpl.
  - by rewrite Hn.
  - destruct (classify_source_name n); [done | apply IH | apply IH].
Qed.

Lemma compile_expands fuel p :
  compile w fuel p
  = let p0 := set_global_context
                (set_sources (target_sources (active_target p))
                             (global_context p)) p in
    match expand_source_names w (target_sources (active_target p)) [] p0 with
    | Returned files p1 =>
        let p2 := set_active_target
                    (set_target_sources files (active_target p1)) p1 in
        if (length files =? 0)%nat
        then Exited EXIT_FAILURE "No files to compile." p2
        else if lex_only (active_target p1)
        then compiler_lex w p2
        else if parse_only (active_target p1)
        then compiler_parse w p2
        else compiler_compile w fuel p2
    | Exited c msg p1 => Exited c msg p1
    | OutOfFuel p1 => OutOfFuel p1
    end.
Proof.
  unfold compile, target_expand_source_names, bind, get, modify, error_exit.
  simpl.
  destruct (expand_source_names _ _ _ _) as [files p1| |]; simpl; try done.
  destruct (length files =? 0)%nat; [done |].
  destruct (lex_only (active_target p1)); [done |].
  destruct (parse_only (active_target p1)); done.
Qed.

End SourceFacts.



(** ** The sources of a compilation *)

(** The sources after [add_library_sources], and the list that
    [load_sources] parses. *)
Lemma add_library_sources_spec (w : Collaborators) (p : Process) :
  let g := global_context p in
  let added :=
    match lib_dir g with Some dir => library_sources dir | None => [] end in
  exists p',
    add_library_sources p = Returned tt p' /\
    sources (global_context p') = sources g ++ added /\
    lib_dir (global_context p') = lib_dir g /\
    trace p' = trace p /\
    load_sources w p
    = parse_sources w (sources g ++ added) []
        (set_global_context
           (set_sources (sources g ++ added) (global_context_clear_errors g)) p).
Proof.
  intros g added. subst g added.
  destruct p as [g t a lf tr].
  destruct g as [ms ml gl gs qs ld src pm ef wf mh]. simpl.
  unfold load_sources, add_library_sources, vec_add_source, update_context,
    bind, get, modify, ret. simpl.
  destruct ld as [dir|]; simpl.
  - eexists. split; [reflexivity |]. simpl.
    rewrite <- !app_assoc. simpl. done.
  - eexists. split; [reflexivity |]. simpl.
    rewrite !app_nil_r. done.
Qed.



(** ** No files *)

Section LoadFacts.

Variable w : Collaborators.

Lemma expand_keeps_state l files p :
  final_state (expand_source_names w l files p) = p.
Proof.
  revert files. induction l as [|name l IH]; intros files; simpl; [done |].
  destruct (classify_source_name name); [done | apply IH | apply IH].
Qed.

Lemma source_file_load_trace path p :
  trace (final_state (source_file_load w path p)) = trace p.
Proof.
  unfold source_file_load.
  destruct (source_full_path w path); [| done].
  unfold bind, get, modify, ret. simpl.
  destruct (bool_decide _); done.
Qed.

Lemma parse_sources_trace l contexts p :
  trace (final_state (parse_sources w l contexts p)) = trace p.
Proof.
  revert contexts p. induction l as [|path l IH]; intros contexts p; [done |].
  simpl. unfold bind at 1.
  pose proof (source_file_load_trace path p) as Hl.
  destruct (source_file_load w path p) as [[full loaded] p1| |]; simpl in *;
    try done.
  destruct loaded.
  - by rewrite IH.
  - unfold run_effect, update_context, modify, bind. simpl.
    by rewrite IH.
Qed.

Lemma load_sources_trace p :
  trace (final_state (load_sources w p)) = trace p.
Proof.
  destruct (add_library_sources_spec w p) as (p' & _ & _ & _ & _ & ->).
  by rewrite parse_sources_trace.
Qed.

End LoadFacts.

(** C9. [compile] exits with [EXIT_FAILURE] and the message "No files to
    compile." when the expanded list of sources is empty, as it is for an
    empty list of sources; [compiler_compile] exits with [EXIT_FAILURE]
    and "No source files to compile." when no context was produced. In
    both cases no event of the analysis is behind it. *)
Theorem compile_without_files (w : Collaborators) (fuel : nat) (p : Process) :
  EXIT_FAILURE <> 0%Z /\
  (forall p1,
     expand_source_names w (target_sources (active_target p)) []
       (set_global_context
          (set_sources (target_sources (active_target p)) (global_context p)) p)
     = Returned [] p1 ->
     exists p', compile w fuel p = Exited EXIT_FAILURE "No files to compile." p' /\
                trace p' = trace p /\ loaded_files p' = loaded_files p) /\
  (target_sources (active_target p) = [] ->
     exists p', compile w fuel p = Exited EXIT_FAILURE "No files to compile." p' /\
                trace p' = trace p /\ loaded_files p' = loaded_files p) /\
  (forall p1,
     load_sources w p = Returned [] p1 ->
     compiler_compile w fuel p
     = Exited EXIT_FAILURE "No source files to compile." p1 /\
     trace p1 = trace p).
Proof.
  assert (H1 : forall p1,
     expand_source_names w (target_sources (active_target p)) []
       (set_global_context
          (set_sources (target_sources (active_target p)) (global_context p)) p)
     = Returned [] p1 ->
     exists p', compile w fuel p = Exited EXIT_FAILURE "No files to compile." p' /\
                trace p' = trace p /\ loaded_files p' = loaded_files p).
  { intros p1 Hex. rewrite compile_expands. simpl.
    pose proof (expand_keeps_state w (target_sources (active_target p)) []
      (set_global_context
         (set_sources (target_sources (active_target p)) (global_context p)) p))
      as Hk.
    rewrite Hex in *. simpl in Hk. subst p1. simpl.
    eexists. split; [reflexivity |]. done. }
  split; [unfold EXIT_FAILURE; lia |].
  split; [exact H1 |]. split.
  - intros Hs. eapply H1. rewrite Hs. reflexivity.
  - intros p1 Hl. pose proof (load_sources_trace w p) as Ht.
    unfold compiler_compile. erewrite bind_returned; [| exact Hl].
    rewrite Hl in Ht. simpl in *. done.
Qed.

Lemma compile_without_files_witness :
  exists p',
    compile quiet_collaborators 0 (process_start (example_target []))
    = Exited EXIT_FAILURE "No files to compile." p' /\
    trace p' = [] /\
    compiler_compile quiet_collaborators 0 (process_start (example_target []))
    = Exited EXIT_FAILURE "No source files to compile."
        (process_start (example_target [])).
Proof.
  pose proof (compile_without_files quiet_collaborators 0
                (process_start (example_target []))) as (_ & _ & H2 & H3).
  destruct H2 as (p' & Hc & Ht & _); [reflexivity |].
  exists p'. split; [exact Hc |]. split; [exact Ht |].
  apply H3. reflexivity.
Defined.

(** ** The analysis pipeline *)

(** *** Contexts along the analysis *)

Lemma ctx_le_refl g : ctx_le g g.
Proof. unfold ctx_le. repeat split; auto. Qed.

Lemma ctx_le_trans g1 g2 g3 : ctx_le g1 g2 -> ctx_le g2 g3 -> ctx_le g1 g3.
Proof.
  intros (Ha & Hb & Hc & Hd) (Ha' & Hb' & Hc' & Hd').
  unfold ctx_le. repeat split.
  - by etrans.
  - lia.
  - intros a. specialize (Hc a). specialize (Hc' a). lia.
  - lia.
Qed.

Lemma stage_of_app g m a :
  stage_of g a <= stage_of (set_module_heap (module_heap g ++ [m]) g) a.
Proof.
  unfold stage_of. simpl.
  destruct (module_heap g !! a) as [x|] eqn:E.
  - by rewrite (lookup_app_l_Some _ _ _ _ E).
  - unfold ANALYSIS_NOT_BEGUN. lia.
Qed.

Lemma find_or_create_le name ps g :
  ctx_le g (compiler_find_or_create_module name ps g).2.
Proof.
  unfold compiler_find_or_create_module, global_context_find_module.
  destruct (modules g !! path_module name); [apply ctx_le_refl |].
  unfold ctx_le.
  destruct ps; simpl; rewrite length_app; simpl;
    (repeat split; [| lia | apply stage_of_app | lia]).
  - done.
  - by apply prefix_app_r.
Qed.

Lemma find_or_create_wf name ps g :
  ctx_wf g -> ctx_wf (compiler_find_or_create_module name ps g).2.
Proof.
  intros (Hnd & Hl & Hm).
  unfold compiler_find_or_create_module, global_context_find_module.
  destruct (modules g !! path_module name) eqn:E; [done |].
  assert (Hfresh : length (module_heap g) ∉ module_list g).
  { intros Hin. apply Hl in Hin. lia. }
  assert (Hmods : forall n m,
            <[path_module name := length (module_heap g)]> (modules g) !! n
            = Some m -> m < length (module_heap g ++ [
                {| module_name := name; module_stage := ANALYSIS_NOT_BEGUN;
                   module_parameters := ps; module_symbols := ∅ |}])).
  { intros n m. rewrite length_app. simpl.
    destruct (decide (path_module name = n)) as [->|Hne].
    - rewrite lookup_insert_eq. intros [= <-]. lia.
    - rewrite lookup_insert_ne by done. intros H. apply Hm in H. lia. }
  unfold ctx_wf. destruct ps; simpl.
  - split; [done |]. split; [| exact Hmods].
    intros m Hin. rewrite length_app. apply Hl in Hin. lia.
  - split; [| split; [| exact Hmods]].
    + apply NoDup_app. split; [done |]. split; [| apply NoDup_singleton].
      intros x Hx Hx'. apply list_elem_of_singleton in Hx'. by subst.
    + intros m Hin. rewrite length_app. simpl.
      apply elem_of_app in Hin as [Hin|Hin].
      * apply Hl in Hin. lia.
      * apply list_elem_of_singleton in Hin. lia.
Qed.

Lemma create_modules_le l g : ctx_le g (create_modules l g).
Proof.
  revert g. induction l as [|[name ps] l IH]; intros g; [apply ctx_le_refl |].
  simpl. eapply ctx_le_trans; [apply find_or_create_le | apply IH].
Qed.

Lemma create_modules_wf l g : ctx_wf g -> ctx_wf (create_modules l g).
Proof.
  revert g. induction l as [|[name ps] l IH]; intros g H; [done |].
  simpl. apply IH. by apply find_or_create_wf.
Qed.

Lemma register_symbols_frame l g :
  let g' := register_symbols l g in
  modules g' = modules g /\ module_list g' = module_list g /\
  generic_module_list g' = generic_module_list g /\
  module_heap g' = module_heap g /\ errors_found g' = errors_found g.
Proof.
  revert g. induction l as [|d l IH]; intros g; [done |].
  simpl. destruct (IH (compiler_register_public_symbol d g))
    as (H1 & H2 & H3 & H4 & H5).
  simpl in *. unfold register_symbols in *. simpl.
  rewrite H1, H2, H3, H4, H5. done.
Qed.

Lemma apply_effect_frame e g :
  let g1 := create_modules (new_modules e) g in
  let g' := apply_effect e g in
  modules g' = modules g1 /\ module_list g' = module_list g1 /\
  generic_module_list g' = generic_module_list g1 /\
  module_heap g' = module_heap g1 /\
  errors_found g' = errors_found g1 + new_errors e.
Proof.
  intros g1 g'. subst g'. unfold apply_effect. simpl.
  destruct (register_symbols_frame (new_symbols e) g1)
    as (H1 & H2 & H3 & H4 & H5).
  simpl in *. fold g1. rewrite H1, H2, H3, H4, H5. done.
Qed.

Lemma apply_effect_le e g : ctx_le g (apply_effect e g).
Proof.
  destruct (apply_effect_frame e g) as (H1 & H2 & H3 & H4 & H5).
  destruct (create_modules_le (new_modules e) g) as (Ha & Hb & Hc & Hd).
  unfold ctx_le, stage_of in *. rewrite H2, H4, H5.
  repeat split; try done; lia.
Qed.

Lemma apply_effect_wf e g : ctx_wf g -> ctx_wf (apply_effect e g).
Proof.
  intros H. apply (create_modules_wf (new_modules e)) in H.
  destruct (apply_effect_frame e g) as (H1 & H2 & H3 & H4 & H5).
  unfold ctx_wf in *. rewrite H1, H2, H4. done.
Qed.

Lemma increment_stage_of m g a :
  stage_of (increment_stage m g) a
  = if decide (a = m /\ m < length (module_heap g))
    then S (stage_of g a) else stage_of g a.
Proof.
  unfold stage_of, increment_stage. simpl.
  destruct (decide (a = m)) as [->|Hne].
  - rewrite list_lookup_alter_eq.
    destruct (module_heap g !! m) as [x|] eqn:E; simpl.
    + apply lookup_lt_Some in E.
      destruct (decide _) as [_|Hn]; [done | exfalso; apply Hn; done].
    + apply lookup_ge_None in E.
      destruct (decide _) as [[_ Hlt]|_]; [lia | done].
  - rewrite list_lookup_alter_ne by done.
    destruct (decide _) as [[? _]|_]; [done | done].
Qed.

Lemma increment_stage_le m g : ctx_le g (increment_stage m g).
Proof.
  unfold ctx_le. repeat split; simpl.
  - done.
  - by rewrite length_alter.
  - intros a. rewrite increment_stage_of. destruct (decide _); lia.
  - done.
Qed.

Lemma increment_stage_wf m g : ctx_wf g -> ctx_wf (increment_stage m g).
Proof.
  unfold ctx_wf. simpl. by rewrite length_alter.
Qed.

(** *** Traces *)

Lemma last_round_snoc tr e :
  last_round (tr ++ [e])
  = match e with EvStage t g => Some (t, g) | _ => last_round tr end.
Proof. unfold last_round. rewrite foldl_snoc. by destruct e. Qed.

Lemma snoc_split {A} (tr pre post : list A) (x e : A) :
  tr ++ [x] = pre ++ e :: post ->
  (post = [] /\ e = x /\ pre = tr) \/
  (exists post', post = post' ++ [x] /\ tr = pre ++ e :: post').
Proof.
  intros H.
  destruct post as [|y post _] using rev_ind.
  - left. apply app_inj_tail in H as [-> ->]. done.
  - right. exists post.
    rewrite app_comm_cons, app_assoc in H.
    apply app_inj_tail in H as [-> ->]. done.
Qed.

Lemma lockstep_of_round_snoc tr x :
  lockstep_of_round tr ->
  match x with
  | EvPass m s before after =>
      exists t g0, last_round tr = Some (t, g0) /\ s <= t /\
        forall a, a ∈ module_list g0 ->
          a ∈ module_list before /\ s - 1 <= t - 1 <= stage_of before a
  | _ => True
  end ->
  lockstep_of_round (tr ++ [x]).
Proof.
  intros Htr Hx pre b s before after post Heq.
  apply snoc_split in Heq as [(-> & <- & ->)|(post' & -> & ->)].
  - exact Hx.
  - eapply Htr. reflexivity.
Qed.

Lemma halts_after_error_snoc tr x :
  halts_after_error tr ->
  (forall m s before after,
     EvPass m s before after ∈ tr -> 0 < errors_found after ->
     exists m' s' before' after',
       x = EvPass m' s' before' after' /\ m' <> m /\ 0 < errors_found after') ->
  halts_after_error (tr ++ [x]).
Proof.
  intros Htr Hx pre m s before after post Heq Herr.
  apply snoc_split in Heq as [(-> & <- & ->)|(post' & -> & ->)].
  - constructor.
  - apply Forall_app. split.
    + eapply Htr; [reflexivity | done].
    + constructor; [| constructor].
      eapply Hx; [| exact Herr].
      apply elem_of_app. right. left.
Qed.

Lemma trace_ok_quiet e p :
  trace_ok p ->
  Forall (fun e => ~ error_pass e) (trace p) ->
  match e with EvPass _ _ _ _ => False | _ => True end ->
  trace_ok (add_event e p) /\
  Forall (fun e => ~ error_pass e) (trace (add_event e p)).
Proof.
  intros [H1 H2] Hq He. unfold trace_ok. simpl. repeat split.
  - apply lockstep_of_round_snoc; [done |]. by destruct e.
  - apply halts_after_error_snoc; [done |].
    intros m s before after Hin Herr. exfalso.
    rewrite Forall_forall in Hq. by apply (Hq _ Hin).
  - apply Forall_app. split; [done |].
    constructor; [| constructor]. destruct e; simpl in *; tauto.
Qed.

(** *** The invariant of a round *)

Lemma round_inv_mono t i p p' :
  round_inv t i p ->
  ctx_le (global_context p) (global_context p') ->
  ctx_wf (global_context p') ->
  trace p' = trace p ->
  round_inv t i p'.
Proof.
  intros (Hwf & (g0 & Hr & Hpre & Hst) & Herr & Hmods & Hdone & Hi & Htr)
         (Hl & Hh & Hs & He) Hwf' Ht.
  unfold round_inv, trace_ok. rewrite Ht.
  split; [done |]. split; [| split; [| split; [| split; [| split]]]].
  - exists g0. split; [done |]. split; [by etrans |].
    intros a Ha. specialize (Hst a Ha). specialize (Hs a). lia.
  - intros m s before after Hin. specialize (Herr _ _ _ _ Hin). lia.
  - intros m s before after Hin Hpos.
    destruct (Hmods _ _ _ _ Hin Hpos) as (j & Hj & Hlook).
    exists j. split; [done |]. by eapply prefix_lookup_Some.
  - intros He0 j a Hj Hlook.
    assert (Hlook' : module_list (global_context p) !! j = Some a).
    { destruct (lookup_lt_is_Some_2 (module_list (global_context p)) j)
        as [a' Ha']; [lia |].
      pose proof (prefix_lookup_Some _ _ _ _ Ha' Hl) as Ha''.
      congruence. }
    specialize (Hdone ltac:(lia) j a Hj Hlook'). specialize (Hs a). lia.
  - apply prefix_length in Hl. lia.
  - done.
Qed.

Lemma round_inv_next t i p m :
  round_inv t i p ->
  module_list (global_context p) !! i = Some m ->
  0 < errors_found (global_context p) \/ t <= stage_of (global_context p) m ->
  round_inv t (S i) p.
Proof.
  intros (Hwf & Hround & Herr & Hmods & Hdone & Hi & Htr) Hm Hcase.
  unfold round_inv.
  split; [done |]. split; [done |]. split; [done |].
  split; [| split; [| split]].
  - intros m' s before after Hin Hpos.
    destruct (Hmods _ _ _ _ Hin Hpos) as (j & Hj & Hlook).
    exists j. split; [lia | done].
  - intros He0 j a Hj Hlook.
    destruct (decide (j = i)) as [->|Hne].
    + assert (a = m) as -> by congruence. lia.
    + apply (Hdone He0 j a); [lia | done].
  - apply lookup_lt_Some in Hm. lia.
  - done.
Qed.

Lemma round_inv_log t i p m s before :
  round_inv t i p ->
  module_list (global_context p) !! i = Some m ->
  ctx_le before (global_context p) ->
  s <= t ->
  (forall g0, last_round (trace p) = Some (t, g0) ->
     forall a, a ∈ module_list g0 ->
       a ∈ module_list before /\ t - 1 <= stage_of before a) ->
  let p' := add_event (EvPass m s before (global_context p)) p in
  (errors_found (global_context p) = 0 -> round_inv t i p') /\
  (0 < errors_found (global_context p) -> round_inv t (S i) p').
Proof.
  intros (Hwf & (g0 & Hr & Hpre & Hst) & Herr & Hmods & Hdone & Hi & Htr1 & Htr2)
         Hm Hle Hs Hbefore p'.
  assert (Hok : trace_ok p').
  { split; simpl.
    - apply lockstep_of_round_snoc; [done |].
      exists t, g0. split; [done |]. split; [done |].
      intros a Ha. destruct (Hbefore g0 Hr a Ha). split; [done | lia].
    - apply halts_after_error_snoc; [done |].
      intros m1 s1 b1 a1 Hin Hpos. eexists _, _, _, _. split; [done |].
      pose proof (Herr _ _ _ _ Hin) as He1.
      split; [| lia].
      destruct (Hmods _ _ _ _ Hin Hpos) as (j & Hj & Hlook).
      intros ->. destruct Hwf as (Hnd & _).
      pose proof (NoDup_lookup _ _ _ _ Hnd Hm Hlook). lia. }
  assert (Hround : exists g1, last_round (trace p') = Some (t, g1) /\
            module_list g1 `prefix_of` module_list (global_context p') /\
            forall a, a ∈ module_list g1 ->
              t - 1 <= stage_of (global_context p') a).
  { exists g0. simpl. rewrite last_round_snoc. done. }
  assert (Herr' : forall m1 s1 b1 a1, EvPass m1 s1 b1 a1 ∈ trace p' ->
            errors_found a1 <= errors_found (global_context p')).
  { simpl. intros m1 s1 b1 a1 Hin.
    apply elem_of_app in Hin as [Hin|Hin]; [by eapply Herr |].
    apply list_elem_of_singleton in Hin. injection Hin as -> -> -> ->. done. }
  split.
  - intros He0. unfold round_inv.
    split; [done |]. split; [done |]. split; [done |].
    split; [| done].
    simpl. intros m1 s1 b1 a1 Hin Hpos.
    apply elem_of_app in Hin as [Hin|Hin]; [by eapply Hmods |].
    apply list_elem_of_singleton in Hin. injection Hin as -> -> -> ->. lia.
  - intros Hpos. unfold round_inv.
    split; [done |]. split; [done |]. split; [done |].
    split; [| split; [| split; [| done]]].
    + simpl. intros m1 s1 b1 a1 Hin Hpos1.
      apply elem_of_app in Hin as [Hin|Hin].
      * destruct (Hmods _ _ _ _ Hin Hpos1) as (j & Hj & Hlook).
        exists j. split; [lia | done].
      * apply list_elem_of_singleton in Hin. injection Hin as -> -> -> ->.
        exists i. split; [lia | done].
    + simpl. intros He0. lia.
    + simpl. apply lookup_lt_Some in Hm. lia.
Qed.

(** *** The loops of the analysis are safe *)

Section Safety.

Variable w : Collaborators.

Lemma run_pass_eq s m p :
  run_pass w s m p
  = let g := global_context p in
    let g' := apply_effect (sema_analysis_pass w s m g) g in
    Returned tt (add_event (EvPass m s g g') (set_global_context g' p)).
Proof. reflexivity. Qed.

Lemma switch_eq m p :
  sema_analysis_switch w m p
  = let s := stage_of (global_context p) m in
    if s =? 0 then Exited EXIT_FAILURE "UNREACHABLE" p
    else if s <=? 6 then run_pass w s m p
    else Returned tt p.
Proof.
  unfold sema_analysis_switch, bind, get. simpl.
  destruct (stage_of (global_context p) m) as [|[|[|[|[|[|[|k]]]]]]];
    reflexivity.
Qed.

Lemma sema_loop_eq n m t p :
  sema_analyze_stage_loop w (S n) m t p
  = if stage_of (global_context p) m <? t then
      match sema_analysis_switch w m
              (set_global_context (increment_stage m (global_context p)) p) with
      | Returned _ p' =>
          if 0 <? errors_found (global_context p') then Returned tt p'
          else sema_analyze_stage_loop w n m t p'
      | Exited c msg p' => Exited c msg p'
      | OutOfFuel p' => OutOfFuel p'
      end
    else Returned tt p.
Proof.
  simpl. unfold bind at 1. unfold get at 1.
  destruct (stage_of (global_context p) m <? t); [| done].
  unfold bind at 1. unfold update_context at 1. unfold modify at 1.
  unfold bind at 1.
  destruct (sema_analysis_switch w m _) as [[] p'| |]; try done.
  unfold bind at 1. unfold get at 1.
  destruct (0 <? errors_found (global_context p')); done.
Qed.

Lemma pass_safe t i p m s :
  round_inv t i p ->
  module_list (global_context p) !! i = Some m ->
  s <= t ->
  exists p', run_pass w s m p = Returned tt p' /\
    module_list (global_context p') !! i = Some m /\
    (errors_found (global_context p') = 0 -> round_inv t i p') /\
    (0 < errors_found (global_context p') -> round_inv t (S i) p').
Proof.
  intros Hinv Hm Hs. rewrite run_pass_eq. simpl.
  set (g := global_context p).
  set (g' := apply_effect (sema_analysis_pass w s m g) g).
  eexists. split; [reflexivity |].
  pose proof (apply_effect_le (sema_analysis_pass w s m g) g) as Hle.
  fold g' in Hle.
  assert (Hm' : module_list g' !! i = Some m).
  { destruct Hle as (Hpre & _). by eapply prefix_lookup_Some. }
  split; [exact Hm' |].
  assert (Hinv1 : round_inv t i (set_global_context g' p)).
  { eapply round_inv_mono; [exact Hinv | exact Hle | | done].
    simpl. apply apply_effect_wf. by destruct Hinv. }
  apply (round_inv_log t i (set_global_context g' p) m s g Hinv1 Hm' Hle Hs).
  simpl. intros g0 Hr a Ha.
  destruct Hinv as (_ & (g1 & Hr1 & Hpre & Hst) & _).
  rewrite Hr in Hr1. injection Hr1 as <-.
  split; [| by apply Hst].
  destruct Hpre as [k Hk]. unfold g. rewrite Hk. apply elem_of_app. by left.
Qed.

Lemma sema_loop_safe n m t i p :
  round_inv t i p ->
  module_list (global_context p) !! i = Some m ->
  match sema_analyze_stage_loop w n m t p with
  | Returned _ p' => round_inv t (S i) p'
  | Exited c _ p' => exit_ok c p'
  | OutOfFuel p' => trace_ok p'
  end.
Proof.
  revert p. induction n as [|n IH]; intros p Hinv Hm.
  { simpl. by destruct Hinv as (_ & _ & _ & _ & _ & _ & Htr). }
  rewrite sema_loop_eq.
  destruct (Nat.ltb_spec (stage_of (global_context p) m) t) as [Hlt|Hge].
  2: { eapply round_inv_next; [done | done | by right]. }
  set (g1 := increment_stage m (global_context p)).
  assert (Hinv1 : round_inv t i (set_global_context g1 p)).
  { eapply round_inv_mono; [exact Hinv | apply increment_stage_le | | done].
    apply increment_stage_wf. by destruct Hinv. }
  assert (Hvalid : m < length (module_heap (global_context p))).
  { destruct Hinv as ((_ & Hl & _) & _). apply Hl.
    by eapply list_elem_of_lookup_2. }
  assert (Hs : stage_of g1 m = S (stage_of (global_context p) m)).
  { subst g1. rewrite increment_stage_of.
    destruct (decide _) as [_|Hn]; [done | exfalso; apply Hn; done]. }
  rewrite switch_eq. simpl. rewrite Hs. simpl.
  destruct (Nat.leb_spec (stage_of (global_context p) m) 5) as [H6|H6].
  - destruct (pass_safe t i (set_global_context g1 p) m
                (S (stage_of (global_context p) m)) Hinv1 Hm ltac:(lia))
      as (p' & -> & Hm' & Hzero & Hpos).
    destruct (Nat.ltb_spec 0 (errors_found (global_context p'))) as [He|He].
    + by apply Hpos.
    + apply IH; [apply Hzero; lia | done].
  - destruct (Nat.ltb_spec 0 (errors_found (global_context (set_global_context g1 p))))
      as [He|He].
    + eapply round_inv_next; [exact Hinv1 | done | by left].
    + apply IH; [exact Hinv1 | done].
Qed.

Lemma analyze_modules_safe fuel t i p :
  round_inv t i p ->
  match analyze_modules w fuel t i p with
  | Returned _ p' => round_inv t (length (module_list (global_context p'))) p'
  | Exited c _ p' => exit_ok c p'
  | OutOfFuel p' => trace_ok p'
  end.
Proof.
  revert i p. induction fuel as [|fuel IH]; intros i p Hinv.
  { simpl. by destruct Hinv as (_ & _ & _ & _ & _ & _ & Htr). }
  simpl. unfold bind at 1. unfold get at 1.
  destruct (module_list (global_context p) !! i) as [m|] eqn:Hm.
  - unfold bind. unfold sema_analyze_stage.
    pose proof (sema_loop_safe (S t) m t i p Hinv Hm) as Hs.
    destruct (sema_analyze_stage_loop w (S t) m t p) as [[] p'| |]; try done.
    by apply IH.
  - simpl. apply lookup_ge_None in Hm.
    destruct Hinv as (? & ? & ? & ? & ? & Hi & ?).
    replace (length (module_list (global_context p))) with i by lia.
    done.
Qed.

Lemma analyze_to_stage_safe fuel t p :
  round_ready t p ->
  match analyze_to_stage w fuel t p with
  | Returned _ p' => round_ready (S t) p'
  | Exited c _ p' => exit_ok c p'
  | OutOfFuel p' => trace_ok p'
  end.
Proof.
  intros (Hwf & Hst & Hq & Htr).
  unfold analyze_to_stage. unfold bind at 1. unfold get at 1.
  unfold bind at 1. unfold log at 1. unfold modify at 1.
  set (p0 := add_event (EvStage t (global_context p)) p).
  destruct (trace_ok_quiet (EvStage t (global_context p)) p Htr Hq I)
    as [Htr0 Hq0]. fold p0 in Htr0, Hq0.
  assert (Hinv : round_inv t 0 p0).
  { unfold round_inv. subst p0. simpl.
    split; [done |]. split; [| split; [| split; [| split; [| split]]]].
    - exists (global_context p). rewrite last_round_snoc. done.
    - intros m s before after Hin. rewrite Forall_forall in Hq0.
      specialize (Hq0 _ Hin). simpl in Hq0. lia.
    - intros m s before after Hin Hpos. rewrite Forall_forall in Hq0.
      specialize (Hq0 _ Hin). simpl in Hq0. lia.
    - intros. lia.
    - lia.
    - done. }
  pose proof (analyze_modules_safe fuel t 0 p0 Hinv) as Hs.
  unfold bind at 1.
  destruct (analyze_modules w fuel t 0 p0) as [[] p1| |]; try done.
  unfold halt_on_error, bind, get, exit, ret.
  destruct Hs as (Hwf1 & _ & Herr & _ & Hdone & _ & Htr1).
  destruct (Nat.ltb_spec 0 (errors_found (global_context p1))) as [He|He].
  - split; [done | by left].
  - unfold round_ready. split; [done |]. split; [| split; [| done]].
    + intros a Ha. apply list_elem_of_lookup_1 in Ha as [j Hj].
      pose proof (lookup_lt_Some _ _ _ Hj).
      specialize (Hdone ltac:(lia) j a ltac:(lia) Hj). lia.
    + apply Forall_forall. intros e Hin. destruct e; simpl; try tauto.
      specialize (Herr _ _ _ _ Hin). lia.
Qed.

Lemma analyze_stages_safe fuel n t p :
  round_ready t p ->
  match analyze_stages w fuel (seq t n) p with
  | Returned _ p' => round_ready (t + n) p'
  | Exited c _ p' => exit_ok c p'
  | OutOfFuel p' => trace_ok p'
  end.
Proof.
  revert t p. induction n as [|n IH]; intros t p Hr.
  { simpl. by rewrite Nat.add_0_r. }
  simpl. unfold bind.
  pose proof (analyze_to_stage_safe fuel t p Hr) as Hs.
  destruct (analyze_to_stage w fuel t p) as [[] p1| |]; try done.
  specialize (IH (S t) p1 Hs).
  replace (t + S n) with (S t + n) by lia. done.
Qed.

End Safety.

(** *** The whole run is safe *)

Section RunSafety.

Variable w : Collaborators.

Lemma trace_ok_nil p : trace p = [] -> trace_ok p.
Proof.
  intros H. unfold trace_ok. rewrite H. split.
  - intros pre b s before after post Heq. by destruct pre.
  - intros pre b s before after post Heq. by destruct pre.
Qed.

Lemma outcome_safe_nil (o : Outcome Process unit) :
  trace (final_state o) = [] -> outcome_safe o.
Proof.
  intros H. split; [by apply trace_ok_nil |].
  rewrite H. intros Hex. by apply Exists_nil in Hex.
Qed.

Lemma outcome_safe_quiet (o : Outcome Process unit) :
  trace_ok (final_state o) ->
  Forall (fun e => ~ error_pass e) (trace (final_state o)) ->
  outcome_safe o.
Proof.
  intros Htr Hq. split; [done |]. intros Hex. exfalso.
  apply Exists_exists in Hex as (e & Hin & He).
  rewrite Forall_forall in Hq. by apply (Hq e).
Qed.

Lemma compiler_init_spec std_lib_dir p :
  exists p1, compiler_init w std_lib_dir p = Returned tt p1 /\
    modules (global_context p1) = ∅ /\
    module_list (global_context p1) = [] /\
    generic_module_list (global_context p1) = [] /\
    active_target p1 = active_target p /\
    trace p1 = trace p.
Proof.
  destruct std_lib_dir; (eexists; split; [vm_compute; reflexivity |]);
    repeat split; reflexivity.
Qed.

Lemma source_file_load_context path p :
  global_context (final_state (source_file_load w path p)) = global_context p.
Proof.
  unfold source_file_load.
  destruct (source_full_path w path); [| done].
  unfold bind, get, modify, ret. simpl.
  destruct (bool_decide _); done.
Qed.

Lemma lex_sources_trace l p :
  trace (final_state (lex_sources w l p)) = trace p.
Proof.
  revert p. induction l as [|path l IH]; intros p; [done |].
  simpl. unfold bind at 1.
  pose proof (source_file_load_trace w path p) as Hl.
  destruct (source_file_load w path p) as [r p1| |]; simpl in *; try done.
  by rewrite IH.
Qed.

Lemma compiler_lex_trace p :
  trace (final_state (compiler_lex w p)) = trace p.
Proof.
  unfold compiler_lex. unfold bind at 1. unfold get at 1.
  pose proof (lex_sources_trace (sources (global_context p)) p) as Hl.
  unfold bind. destruct (lex_sources w _ p); simpl in *; done.
Qed.

Lemma parse_only_sources_trace l p :
  trace (final_state (parse_only_sources w l p)) = trace p.
Proof.
  revert p. induction l as [|path l IH]; intros p; [done |].
  simpl. unfold bind at 1.
  pose proof (source_file_load_trace w path p) as Hl.
  destruct (source_file_load w path p) as [[full loaded] p1| |]; simpl in *;
    try done.
  destruct loaded.
  - by rewrite IH.
  - unfold run_effect, update_context, modify, bind. simpl.
    by rewrite IH.
Qed.

Lemma compiler_parse_trace p :
  trace (final_state (compiler_parse w p)) = trace p.
Proof.
  unfold compiler_parse. unfold bind at 1. unfold get at 1.
  pose proof (parse_only_sources_trace (sources (global_context p)) p) as Hl.
  unfold bind. destruct (parse_only_sources w _ p); simpl in *; done.
Qed.

Lemma parse_sources_wf l contexts p :
  ctx_wf (global_context p) ->
  match parse_sources w l contexts p with
  | Returned _ p' => ctx_wf (global_context p')
  | _ => True
  end.
Proof.
  revert contexts p. induction l as [|path l IH]; intros contexts p Hwf;
    [done |].
  simpl. unfold bind at 1.
  pose proof (source_file_load_context path p) as Hl.
  destruct (source_file_load w path p) as [[full loaded] p1| |]; simpl in *;
    try done.
  destruct loaded.
  - apply IH. by rewrite Hl.
  - unfold run_effect, update_context, modify, bind. simpl.
    apply IH. simpl. apply apply_effect_wf. by rewrite Hl.
Qed.

Lemma load_sources_wf p :
  ctx_wf (global_context p) ->
  match load_sources w p with
  | Returned _ p' => ctx_wf (global_context p')
  | _ => True
  end.
Proof.
  intros Hwf.
  destruct (add_library_sources_spec w p) as (p' & _ & _ & _ & _ & ->).
  by apply parse_sources_wf.
Qed.

Lemma header_gens_quiet l p :
  trace_ok p -> Forall (fun e => ~ error_pass e) (trace p) ->
  exists p', header_gens l p = Returned tt p' /\
    trace_ok p' /\ Forall (fun e => ~ error_pass e) (trace p').
Proof.
  revert p. induction l as [|m l IH]; intros p Htr Hq; [by exists p |].
  simpl. unfold bind, log, modify.
  destruct (trace_ok_quiet (EvHeaderGen m) p Htr Hq I) as [Htr' Hq'].
  by apply IH.
Qed.

Lemma compiler_compile_safe fuel p :
  ctx_wf (global_context p) -> trace p = [] ->
  outcome_safe (compiler_compile w fuel p).
Proof.
  intros Hwf Htr. unfold compiler_compile. unfold bind at 1.
  pose proof (load_sources_trace w p) as Hlt.
  pose proof (load_sources_wf p Hwf) as Hlw.
  destruct (load_sources w p) as [contexts p1| |]; simpl in Hlt;
    [| apply outcome_safe_nil; simpl; congruence
     | apply outcome_safe_nil; simpl; congruence].
  destruct (length contexts =? 0);
    [apply outcome_safe_nil; simpl; congruence |].
  assert (Hready : round_ready 1 p1).
  { unfold round_ready. split; [done |]. split; [intros; lia |].
    rewrite Hlt, Htr. split; [constructor |].
    apply trace_ok_nil. congruence. }
  pose proof (analyze_stages_safe w fuel 6 1 p1 Hready) as Hs.
  unfold analysis_stages, ANALYSIS_NOT_BEGUN, ANALYSIS_LAST,
    ANALYSIS_FUNCTIONS. simpl (0 + 1).
  unfold bind at 1.
  destruct (analyze_stages w fuel (seq 1 6) p1) as [[] p2| |].
  - destruct Hs as (_ & _ & Hq & Hok).
    unfold bind at 1. unfold get at 1.
    destruct (output_headers (active_target p2)).
    + destruct (header_gens_quiet (module_list (global_context p2)) p2 Hok Hq)
        as (p3 & -> & Hok3 & Hq3).
      by apply outcome_safe_quiet.
    + unfold bind, log, modify.
      destruct (trace_ok_quiet EvCodegen p2 Hok Hq I) as [Hok3 Hq3].
      destruct (length _ =? 0); by apply outcome_safe_quiet.
  - destruct Hs as [Hok [->|Hq]].
    + split; [done |]. intros _. by left.
    + by apply outcome_safe_quiet.
  - split; [done |]. intros _. by right.
Qed.

Lemma run_safe std_lib_dir target fuel :
  outcome_safe (run w std_lib_dir target fuel).
Proof.
  unfold run. unfold bind at 1.
  destruct (compiler_init_spec std_lib_dir (process_start target))
    as (p1 & -> & Hmods & Hlist & _ & _ & Htr).
  rewrite compile_expands. simpl.
  set (p0 := set_global_context _ p1).
  pose proof (expand_keeps_state w (target_sources (active_target p1)) [] p0)
    as Hk.
  destruct (expand_source_names w _ [] p0) as [files p2| |]; simpl in Hk;
    subst; [| by apply outcome_safe_nil | by apply outcome_safe_nil].
  destruct (length files =? 0); [by apply outcome_safe_nil |].
  simpl.
  destruct (lex_only (active_target p1)).
  { apply outcome_safe_nil. by rewrite compiler_lex_trace. }
  destruct (parse_only (active_target p1)).
  { apply outcome_safe_nil. by rewrite compiler_parse_trace. }
  apply compiler_compile_safe; [| done].
  unfold ctx_wf. simpl. rewrite Hmods, Hlist.
  split; [constructor |]. split.
  - intros m Hm. by apply not_elem_of_nil in Hm.
  - intros n m Hm. by rewrite lookup_empty in Hm.
Qed.

End RunSafety.

(** *** The run ends when the names of the modules are finitely many *)

Section Liveness.

Variable w : Collaborators.
Variable U : gset string.
Hypothesis names : names_within w U.

Lemma ctx_bounded_length g :
  ctx_bounded U g -> length (module_list g) <= size U.
Proof.
  intros [Hlen Hdom].
  apply subseteq_size in Hdom. rewrite size_dom in Hdom. lia.
Qed.

Lemma find_or_create_bounded name ps g :
  ctx_bounded U g -> path_module name ∈ U ->
  ctx_bounded U (compiler_find_or_create_module name ps g).2.
Proof.
  intros [Hlen Hdom] Hin.
  unfold compiler_find_or_create_module, global_context_find_module.
  destruct (modules g !! path_module name) eqn:E; [done |].
  unfold ctx_bounded.
  destruct ps; simpl; rewrite map_size_insert_None by done;
    rewrite dom_insert_L, length_app; simpl;
    (split; [lia |]);
    (apply union_least; [by apply singleton_subseteq_l | done]).
Qed.

Lemma create_modules_bounded l g :
  ctx_bounded U g ->
  (forall n, n ∈ (fun np : Path * option (list nat) => path_module np.1) <$> l
             -> n ∈ U) ->
  ctx_bounded U (create_modules l g).
Proof.
  revert g. induction l as [|[name ps] l IH]; intros g Hb Hn; [done |].
  simpl. apply IH.
  - apply find_or_create_bounded; [done |]. apply Hn. simpl. left.
  - intros n Hin. apply Hn. simpl. by right.
Qed.

Lemma apply_effect_bounded e g :
  ctx_bounded U g -> (forall n, n ∈ effect_names e -> n ∈ U) ->
  ctx_bounded U (apply_effect e g).
Proof.
  intros Hb Hn.
  pose proof (create_modules_bounded (new_modules e) g Hb Hn) as Hb'.
  destruct (apply_effect_frame e g) as (H1 & H2 & H3 & H4 & H5).
  unfold ctx_bounded in *. rewrite H1, H2, H3. done.
Qed.

Lemma switch_live m p :
  ctx_bounded U (global_context p) ->
  stage_of (global_context p) m <> 0 ->
  exists p', sema_analysis_switch w m p = Returned tt p' /\
    ctx_bounded U (global_context p') /\
    ctx_le (global_context p) (global_context p').
Proof.
  intros Hb Hs. rewrite switch_eq. simpl.
  destruct (Nat.eqb_spec (stage_of (global_context p) m) 0); [done |].
  destruct (stage_of (global_context p) m <=? 6).
  - rewrite run_pass_eq. simpl. eexists. split; [reflexivity |]. simpl.
    split; [| apply apply_effect_le].
    apply apply_effect_bounded; [done |]. destruct names as [_ Hp]. apply Hp.
  - exists p. split; [done |]. split; [done | apply ctx_le_refl].
Qed.

Lemma sema_loop_live n m t p :
  t - stage_of (global_context p) m < n ->
  ctx_bounded U (global_context p) ->
  match sema_analyze_stage_loop w n m t p with
  | Returned _ p' =>
      ctx_bounded U (global_context p') /\
      ctx_le (global_context p) (global_context p')
  | Exited _ _ _ => True
  | OutOfFuel _ => False
  end.
Proof.
  revert p. induction n as [|n IH]; intros p Hn Hb; [lia |].
  rewrite sema_loop_eq.
  destruct (Nat.ltb_spec (stage_of (global_context p) m) t) as [Hlt|Hge];
    [| split; [done | apply ctx_le_refl]].
  set (g1 := increment_stage m (global_context p)).
  destruct (Nat.eq_dec (stage_of g1 m) 0) as [H0|H0].
  { rewrite switch_eq. simpl. fold g1. by rewrite H0. }
  assert (Hvalid : m < length (module_heap (global_context p))).
  { destruct (Nat.lt_ge_cases m (length (module_heap (global_context p))))
      as [|Hout]; [done |].
    exfalso. apply H0. subst g1. rewrite increment_stage_of.
    destruct (decide _) as [[_ ?]|_]; [lia |].
    unfold stage_of. by rewrite (lookup_ge_None_2 _ _ Hout). }
  assert (Hs : stage_of g1 m = S (stage_of (global_context p) m)).
  { subst g1. rewrite increment_stage_of.
    destruct (decide _) as [_|Hno]; [done | exfalso; apply Hno; done]. }
  destruct (switch_live m (set_global_context g1 p)) as (p' & -> & Hb' & Hle').
  { done. }
  { done. }
  simpl in Hle'.
  assert (Hle : ctx_le (global_context p) (global_context p')).
  { eapply ctx_le_trans; [apply increment_stage_le | exact Hle']. }
  destruct (0 <? errors_found (global_context p')); [done |].
  assert (Hst : stage_of g1 m <= stage_of (global_context p') m)
    by (destruct Hle' as (_ & _ & H & _); apply H).
  specialize (IH p' ltac:(lia) Hb').
  destruct (sema_analyze_stage_loop w n m t p') as [[] p''| |]; try done.
  destruct IH as [Hb'' Hle'']. split; [done |]. by eapply ctx_le_trans.
Qed.

Lemma analyze_modules_live fuel t i p :
  ctx_bounded U (global_context p) ->
  i <= length (module_list (global_context p)) ->
  size U < fuel + i ->
  match analyze_modules w fuel t i p with
  | Returned _ p' => ctx_bounded U (global_context p')
  | Exited _ _ _ => True
  | OutOfFuel _ => False
  end.
Proof.
  revert i p. induction fuel as [|fuel IH]; intros i p Hb Hi Hf.
  { apply ctx_bounded_length in Hb. lia. }
  simpl. unfold bind at 1. unfold get at 1.
  destruct (module_list (global_context p) !! i) as [m|] eqn:Hm; [| done].
  unfold bind. unfold sema_analyze_stage.
  pose proof (sema_loop_live (S t) m t p ltac:(lia) Hb) as Hs.
  destruct (sema_analyze_stage_loop w (S t) m t p) as [[] p'| |]; try done.
  destruct Hs as [Hb' (Hpre & _)].
  apply IH; [done | | lia].
  apply lookup_lt_Some in Hm. apply prefix_length in Hpre. lia.
Qed.

Lemma analyze_stages_live fuel stages p :
  ctx_bounded U (global_context p) ->
  size U < fuel ->
  match analyze_stages w fuel stages p with
  | Returned _ p' => ctx_bounded U (global_context p')
  | Exited _ _ _ => True
  | OutOfFuel _ => False
  end.
Proof.
  revert p. induction stages as [|t stages IH]; intros p Hb Hf; [done |].
  simpl. unfold bind at 1. unfold analyze_to_stage.
  unfold bind at 1. unfold get at 1. unfold bind at 1.
  unfold log at 1. unfold modify at 1. unfold bind at 1.
  pose proof (analyze_modules_live fuel t 0
                (add_event (EvStage t (global_context p)) p) Hb
                ltac:(simpl; lia) ltac:(lia)) as Hs.
  destruct (analyze_modules w fuel t 0 _) as [[] p1| |]; try done.
  unfold halt_on_error, bind, get, exit, ret.
  destruct (0 <? errors_found (global_context p1)); [done |].
  by apply IH.
Qed.

Lemma parse_sources_live l contexts p :
  ctx_bounded U (global_context p) ->
  match parse_sources w l contexts p with
  | Returned _ p' => ctx_bounded U (global_context p')
  | Exited _ _ _ => True
  | OutOfFuel _ => False
  end.
Proof.
  revert contexts p. induction l as [|path l IH]; intros contexts p Hb;
    [done |].
  simpl. unfold bind at 1.
  pose proof (source_file_load_context w path p) as Hl.
  unfold source_file_load in *.
  destruct (source_full_path w path) as [full|]; [| done].
  unfold bind, get, modify, ret in *. simpl in *.
  destruct (bool_decide (full ∈ loaded_files p)); simpl in *.
  - by apply IH.
  - apply IH. simpl. apply apply_effect_bounded; [done |].
    destruct names as [Hp _]. apply Hp.
Qed.

Lemma lex_sources_live l p : ~ out_of_fuel (lex_sources w l p).
Proof.
  revert p. induction l as [|path l IH]; intros p; [simpl; tauto |].
  simpl. unfold bind at 1. unfold source_file_load.
  destruct (source_full_path w path) as [full|]; [| simpl; tauto].
  unfold bind, get, modify, ret. simpl.
  destruct (bool_decide _); apply IH.
Qed.

Lemma parse_only_sources_live l p : ~ out_of_fuel (parse_only_sources w l p).
Proof.
  revert p. induction l as [|path l IH]; intros p; [simpl; tauto |].
  simpl. unfold bind at 1. unfold source_file_load.
  destruct (source_full_path w path) as [full|]; [| simpl; tauto].
  unfold bind, get, modify, ret. simpl.
  destruct (bool_decide _); simpl; [apply IH |].
  unfold run_effect, update_context, modify, bind. simpl. apply IH.
Qed.

Lemma compiler_compile_live fuel p :
  ctx_bounded U (global_context p) -> size U < fuel ->
  ~ out_of_fuel (compiler_compile w fuel p).
Proof.
  intros Hb Hf. unfold compiler_compile. unfold bind at 1.
  destruct (add_library_sources_spec w p) as (p' & _ & _ & _ & _ & ->).
  pose proof (parse_sources_live
    (sources (global_context p) ++
       match lib_dir (global_context p) with
       | Some dir => library_sources dir
       | None => []
       end) []
    (set_global_context
       (set_sources
          (sources (global_context p) ++
             match lib_dir (global_context p) with
             | Some dir => library_sources dir
             | None => []
             end) (global_context_clear_errors (global_context p))) p) Hb)
    as Hs.
  destruct (parse_sources w _ [] _) as [contexts p1| |]; [| simpl; tauto | done].
  destruct (length contexts =? 0); [simpl; tauto |].
  unfold bind at 1.
  pose proof (analyze_stages_live fuel analysis_stages p1 Hs Hf) as Ha.
  destruct (analyze_stages w fuel analysis_stages p1) as [[] p2| |];
    [| simpl; tauto | done].
  unfold bind at 1. unfold get at 1.
  destruct (output_headers (active_target p2)).
  - generalize (module_list (global_context p2)). intros l.
    clear. revert p2. induction l as [|m l IH]; intros p2; [simpl; tauto |].
    simpl. unfold bind, log, modify. apply IH.
  - unfold bind, log, modify.
    destruct (length _ =? 0); simpl; tauto.
Qed.

Lemma run_live std_lib_dir target fuel :
  size U < fuel -> ~ out_of_fuel (run w std_lib_dir target fuel).
Proof.
  intros Hf. unfold run. unfold bind at 1.
  destruct (compiler_init_spec w std_lib_dir (process_start target))
    as (p1 & -> & Hmods & Hlist & Hgen & _ & Htr).
  rewrite compile_expands. simpl.
  set (p0 := set_global_context _ p1).
  pose proof (expand_keeps_state w (target_sources (active_target p1)) [] p0)
    as Hk.
  assert (Hnf : forall l files p, ~ out_of_fuel (expand_source_names w l files p)).
  { clear. induction l as [|name l IH]; intros files p; [simpl; tauto |].
    simpl. destruct (classify_source_name name); [simpl; tauto | apply IH..]. }
  specialize (Hnf (target_sources (active_target p1)) [] p0).
  destruct (expand_source_names w _ [] p0) as [files p2| |]; simpl in Hk;
    subst; [| simpl; tauto | done].
  destruct (length files =? 0); [simpl; tauto |].
  simpl.
  destruct (lex_only (active_target p1)).
  { unfold compiler_lex. unfold bind at 1. unfold get at 1. unfold bind.
    pose proof (lex_sources_live
      (sources (global_context (set_active_target
         (set_target_sources files (active_target p0)) p0)))
      (set_active_target (set_target_sources files (active_target p0)) p0)).
    destruct (lex_sources w _ _); simpl in *; tauto. }
  destruct (parse_only (active_target p1)).
  { unfold compiler_parse. unfold bind at 1. unfold get at 1. unfold bind.
    pose proof (parse_only_sources_live
      (sources (global_context (set_active_target
         (set_target_sources files (active_target p0)) p0)))
      (set_active_target (set_target_sources files (active_target p0)) p0)).
    destruct (parse_only_sources w _ _); simpl in *; tauto. }
  apply compiler_compile_live; [| done].
  unfold ctx_bounded. simpl. rewrite Hmods, Hlist, Hgen.
  rewrite map_size_empty, dom_empty_L. simpl.
  split; [lia | apply empty_subseteq].
Qed.

End Liveness.

(** *** Lockstep when only the first stage creates modules *)

Lemma round_stable_snoc tr x :
  round_stable tr ->
  match x with
  | EvPass m s before after =>
      forall t g0, last_round tr = Some (t, g0) ->
        2 <= s -> module_list before = module_list g0
  | _ => True
  end ->
  round_stable (tr ++ [x]).
Proof.
  intros Htr Hx pre b s before after post Heq.
  apply snoc_split in Heq as [(-> & <- & ->)|(post' & -> & ->)].
  - exact Hx.
  - eapply Htr. reflexivity.
Qed.

Lemma round_stable_nil : round_stable [].
Proof. intros pre b s before after post Heq. by destruct pre. Qed.

Lemma lockstep_of_stable tr :
  lockstep_of_round tr -> round_stable tr -> lockstep tr.
Proof.
  intros Hl Hs pre b s before after post Heq a Ha.
  destruct (Hl _ _ _ _ _ _ Heq) as (t & g0 & Hr & Hst & Hall).
  destruct (Nat.le_gt_cases s 1) as [Hs1|Hs2]; [lia |].
  rewrite (Hs _ _ _ _ _ _ Heq t g0 Hr Hs2) in Ha.
  destruct (Hall a Ha). lia.
Qed.

Section ImportsOnly.

Variable w : Collaborators.
Hypothesis imports_only : only_imports_create w.

Lemma sema_loop_stable n m t i p :
  round_inv t i p ->
  module_list (global_context p) !! i = Some m ->
  stable_inv t p ->
  match sema_analyze_stage_loop w n m t p with
  | Returned _ p' => stable_inv t p'
  | Exited _ _ p' => round_stable (trace p')
  | OutOfFuel p' => round_stable (trace p')
  end.
Proof.
  revert p. induction n as [|n IH]; intros p Hinv Hm Hst.
  { simpl. by destruct Hst. }
  rewrite sema_loop_eq.
  destruct (Nat.ltb_spec (stage_of (global_context p) m) t) as [Hlt|Hge];
    [| done].
  pose proof (increment_stage_le m (global_context p)) as (_ & _ & Hmono & _).
  set (g1 := increment_stage m (global_context p)) in *.
  assert (Hinv1 : round_inv t i (set_global_context g1 p)).
  { eapply round_inv_mono; [exact Hinv | apply increment_stage_le | | done].
    apply increment_stage_wf. by destruct Hinv. }
  assert (Hvalid : m < length (module_heap (global_context p))).
  { destruct Hinv as ((_ & Hl & _) & _). apply Hl.
    by eapply list_elem_of_lookup_2. }
  assert (Hs : stage_of g1 m = S (stage_of (global_context p) m)).
  { subst g1. rewrite increment_stage_of.
    destruct (decide _) as [_|Hno]; [done | exfalso; apply Hno; done]. }
  destruct Hst as (Hrs & g0 & Hr & Hkeep).
  assert (Hkeep1 : 2 <= t ->
            module_list g1 = module_list g0 /\
            forall a, a ∈ module_list g1 -> 1 <= stage_of g1 a).
  { intros Ht. destruct (Hkeep Ht) as [Hl Hone].
    split; [done |]. intros a Ha. specialize (Hone a Ha).
    specialize (Hmono a). lia. }
  rewrite switch_eq. simpl. rewrite Hs. simpl.
  destruct (Nat.leb_spec (stage_of (global_context p) m) 5) as [H6|H6].
  - destruct (pass_safe w t i (set_global_context g1 p) m
                (S (stage_of (global_context p) m)) Hinv1 Hm ltac:(lia))
      as (p' & Hrun & Hm' & Hzero & Hpos).
    rewrite Hrun. rewrite run_pass_eq in Hrun. simpl in Hrun.
    injection Hrun as <-.
    set (e := sema_analysis_pass w (S (stage_of (global_context p) m)) m g1)
      in *.
    pose proof (apply_effect_le e g1) as (_ & _ & Hmono' & _).
    assert (Hlist : 2 <= t -> module_list (apply_effect e g1) = module_list g1).
    { intros Ht. destruct (Hkeep Ht) as [_ Hone].
      destruct (apply_effect_frame e g1) as (_ & -> & _).
      subst e. rewrite imports_only; [done |].
      assert (1 <= stage_of (global_context p) m);
        [| unfold ANALYSIS_IMPORTS; lia].
      apply Hone. by eapply list_elem_of_lookup_2. }
    set (p' := add_event _ _) in *.
    assert (Hst' : stable_inv t p').
    { split.
      - subst p'. cbn [global_context trace add_event set_global_context].
        apply round_stable_snoc; [done |].
        intros t' g0' Hr' H2. rewrite Hr in Hr'. injection Hr' as <- <-.
        apply Hkeep1. lia.
      - exists g0. subst p'.
        cbn [global_context trace add_event set_global_context].
        rewrite last_round_snoc. split; [done |].
        intros Ht. destruct (Hkeep1 Ht) as [Hl Hone].
        rewrite (Hlist Ht). split; [done |]. intros a Ha.
        specialize (Hone a Ha). specialize (Hmono' a). lia. }
    destruct (Nat.ltb_spec 0 (errors_found (global_context p'))) as [He|He];
      [done |].
    apply IH; [apply Hzero; lia | done | done].
  - assert (Hst1 : stable_inv t (set_global_context g1 p)).
    { split; [done |]. by exists g0. }
    destruct (Nat.ltb_spec 0 (errors_found (global_context
                                (set_global_context g1 p)))) as [He|He];
      [done |].
    apply IH; [exact Hinv1 | done | done].
Qed.

Lemma analyze_modules_stable fuel t i p :
  round_inv t i p -> stable_inv t p ->
  match analyze_modules w fuel t i p with
  | Returned _ p' => round_stable (trace p')
  | Exited _ _ p' => round_stable (trace p')
  | OutOfFuel p' => round_stable (trace p')
  end.
Proof.
  revert i p. induction fuel as [|fuel IH]; intros i p Hinv Hst.
  { simpl. by destruct Hst. }
  simpl. unfold bind at 1. unfold get at 1.
  destruct (module_list (global_context p) !! i) as [m|] eqn:Hm;
    [| by destruct Hst].
  unfold bind. unfold sema_analyze_stage.
  pose proof (sema_loop_safe w (S t) m t i p Hinv Hm) as Hs.
  pose proof (sema_loop_stable (S t) m t i p Hinv Hm Hst) as Hs'.
  destruct (sema_analyze_stage_loop w (S t) m t p) as [[] p'| |]; try done.
  by apply IH.
Qed.

Lemma analyze_stages_stable fuel n t p :
  round_ready t p -> round_stable (trace p) ->
  round_stable (trace (final_state (analyze_stages w fuel (seq t n) p))).
Proof.
  revert t p. induction n as [|n IH]; intros t p Hr Hrs; [done |].
  simpl. unfold bind at 1.
  pose proof (analyze_to_stage_safe w fuel t p Hr) as Hsafe.
  assert (Hstable : round_stable
            (trace (final_state (analyze_to_stage w fuel t p)))).
  { clear IH Hsafe. destruct Hr as (Hwf & Hst & Hq & Htr).
    unfold analyze_to_stage. unfold bind at 1. unfold get at 1.
    unfold bind at 1. unfold log at 1. unfold modify at 1.
    set (p0 := add_event (EvStage t (global_context p)) p).
    destruct (trace_ok_quiet (EvStage t (global_context p)) p Htr Hq I)
      as [Htr0 Hq0]. fold p0 in Htr0, Hq0.
    assert (Hinv : round_inv t 0 p0).
    { unfold round_inv. subst p0. simpl.
      split; [done |]. split; [| split; [| split; [| split; [| split]]]].
      - exists (global_context p). rewrite last_round_snoc. done.
      - intros m s before after Hin. rewrite Forall_forall in Hq0.
        specialize (Hq0 _ Hin). simpl in Hq0. lia.
      - intros m s before after Hin Hpos. rewrite Forall_forall in Hq0.
        specialize (Hq0 _ Hin). simpl in Hq0. lia.
      - intros. lia.
      - lia.
      - done. }
    assert (Hst0 : stable_inv t p0).
    { split.
      - subst p0. simpl. by apply round_stable_snoc.
      - exists (global_context p). subst p0. simpl. rewrite last_round_snoc.
        split; [done |]. intros Ht. split; [done |].
        intros a Ha. specialize (Hst a Ha). lia. }
    pose proof (analyze_modules_stable fuel t 0 p0 Hinv Hst0) as Hs.
    unfold bind at 1.
    destruct (analyze_modules w fuel t 0 p0) as [[] p1| |]; try done.
    unfold halt_on_error, bind, get, exit, ret.
    destruct (0 <? errors_found (global_context p1)); done. }
  destruct (analyze_to_stage w fuel t p) as [[] p1| |]; try done.
  by apply IH.
Qed.

Lemma header_gens_stable l p :
  round_stable (trace p) ->
  round_stable (trace (final_state (header_gens l p))).
Proof.
  revert p. induction l as [|m l IH]; intros p H; [done |].
  simpl. unfold bind, log, modify. apply IH. simpl.
  by apply round_stable_snoc.
Qed.

Lemma compiler_compile_stable fuel p :
  ctx_wf (global_context p) -> trace p = [] ->
  round_stable (trace (final_state (compiler_compile w fuel p))).
Proof.
  intros Hwf Htr. unfold compiler_compile. unfold bind at 1.
  pose proof (load_sources_trace w p) as Hlt.
  pose proof (load_sources_wf w p Hwf) as Hlw.
  assert (Hnil : forall p', trace p' = trace p -> round_stable (trace p')).
  { intros p' ->. rewrite Htr. apply round_stable_nil. }
  destruct (load_sources w p) as [contexts p1| |]; simpl in Hlt;
    [| by apply Hnil | by apply Hnil].
  destruct (length contexts =? 0); [by apply Hnil |].
  assert (Hready : round_ready 1 p1).
  { unfold round_ready. split; [done |]. split; [intros; lia |].
    rewrite Hlt, Htr. split; [constructor |].
    apply trace_ok_nil. congruence. }
  pose proof (analyze_stages_safe w fuel 6 1 p1 Hready) as Hs.
  pose proof (analyze_stages_stable fuel 6 1 p1 Hready (Hnil p1 Hlt)) as Hs'.
  unfold analysis_stages, ANALYSIS_NOT_BEGUN, ANALYSIS_LAST,
    ANALYSIS_FUNCTIONS. simpl (0 + 1).
  unfold bind at 1.
  destruct (analyze_stages w fuel (seq 1 6) p1) as [[] p2| |]; try done.
  simpl in Hs'. unfold bind at 1. unfold get at 1.
  destruct (output_headers (active_target p2)).
  - by apply header_gens_stable.
  - unfold bind, log, modify.
    destruct (length _ =? 0); simpl; by apply round_stable_snoc.
Qed.

Lemma run_stable std_lib_dir target fuel :
  round_stable (trace (final_state (run w std_lib_dir target fuel))).
Proof.
  unfold run. unfold bind at 1.
  destruct (compiler_init_spec w std_lib_dir (process_start target))
    as (p1 & -> & Hmods & Hlist & _ & _ & Htr).
  rewrite compile_expands. simpl.
  set (p0 := set_global_context _ p1).
  pose proof (expand_keeps_state w (target_sources (active_target p1)) [] p0)
    as Hk.
  assert (Hnil : forall tr, tr = [] -> round_stable tr).
  { intros tr ->. apply round_stable_nil. }
  destruct (expand_source_names w _ [] p0) as [files p2| |]; simpl in Hk;
    subst; [| by apply Hnil | by apply Hnil].
  destruct (length files =? 0); [by apply Hnil |].
  simpl.
  destruct (lex_only (active_target p1)).
  { apply Hnil. by rewrite compiler_lex_trace. }
  destruct (parse_only (active_target p1)).
  { apply Hnil. by rewrite compiler_parse_trace. }
  apply compiler_compile_stable; [| done].
  unfold ctx_wf. simpl. rewrite Hmods, Hlist.
  split; [constructor |]. split.
  - intros m Hm. by apply not_elem_of_nil in Hm.
  - intros n m Hm. by rewrite lookup_empty in Hm.
Qed.

End ImportsOnly.

(** *** The claims on the pipeline *)




(** C3, as the code has it. In every run, after a pass on a module that
    leaves [errors_found > 0] all that still runs are passes on other
    modules of the same round, each leaving errors too, so at most one for
    each remaining module: the module itself runs no further pass, no
    round starts and the back end is not reached. The driver then exits
    with [EXIT_FAILURE], as soon as the loop over [module_list] ends; it
    does end when the modules created have names among finitely many. *)
Theorem analysis_halts_after_error
    (w : Collaborators) (U : gset string) (std_lib_dir : option string)
    (target : BuildTarget) (fuel : nat) :
  names_within w U ->
  let o := run w std_lib_dir target fuel in
  halts_after_error (trace (final_state o)) /\
  (Exists error_pass (trace (final_state o)) ->
   exit_code o = Some EXIT_FAILURE \/ out_of_fuel o) /\
  (size U < fuel -> ~ out_of_fuel o) /\
  (size U < fuel -> Exists error_pass (trace (final_state o)) ->
   exit_code o = Some EXIT_FAILURE /\ exits_nonzero o).
Proof.
  intros Hn o.
  destruct (run_safe w std_lib_dir target fuel) as [[_ Hh] Hex].
  pose proof (run_live w U Hn std_lib_dir target fuel) as Hl.
  fold o in Hh, Hex, Hl.
  split; [done |]. split; [done |]. split; [done |].
  intros Hf He. destruct (Hex He) as [Hc|Hc]; [| by apply Hl in Hc].
  split; [done |]. exists EXIT_FAILURE. split; [done |].
  unfold EXIT_FAILURE. lia.
Qed.

Lemma example_names passes :
  (forall s m g, effect_names (passes s m g) = []) ->
  names_within (example_collaborators passes) {["a"; "b"]}%string.
Proof.
  intros Hp. split.
  - intros path g n. simpl. unfold example_parse.
    destruct (decide (path = "a.c3"%string)); simpl.
    { intros H. apply list_elem_of_singleton in H. set_solver. }
    destruct (decide (path = "b.c3"%string)); simpl.
    { intros H. apply list_elem_of_singleton in H. set_solver. }
    intros H. by apply not_elem_of_nil in H.
  - intros s m g n. simpl. rewrite Hp. intros H. by apply not_elem_of_nil in H.
Qed.

Lemma analysis_halts_after_error_witness :
  let o := run (example_collaborators failing_passes) None
               (example_target ["a.c3"; "b.c3"]%string) 3 in
  names_within (example_collaborators failing_passes) {["a"; "b"]}%string /\
  halts_after_error (trace (final_state o)) /\
  exit_code o = Some EXIT_FAILURE.
Proof.
  intros o.
  assert (Hn : names_within (example_collaborators failing_passes)
                 {["a"; "b"]}%string).
  { apply example_names. intros s m g. unfold failing_passes.
    destruct (_ && _); reflexivity. }
  destruct (analysis_halts_after_error (example_collaborators failing_passes)
              {["a"; "b"]}%string None
              (example_target ["a.c3"; "b.c3"]%string) 3 Hn)
    as (Hh & _ & _ & Hex).
  split; [exact Hn |]. split; [exact Hh |].
  apply Hex.
  - vm_compute. lia.
  - apply Exists_exists. subst o.
    eexists. split.
    + apply list_elem_of_lookup_2 with (i := 1). vm_compute. reflexivity.
    + vm_compute. lia.
Defined.

(** C3 as stated fails: with the sources [a.c3] and [b.c3] and an
    [IMPORTS] pass on [a] that reports an error, the [IMPORTS] pass on [b]
    still runs before the driver exits. *)
Lemma analysis_stops_at_error_counterexample :
  let o := run (example_collaborators failing_passes) None
               (example_target ["a.c3"; "b.c3"]%string) 4 in
  (exists g0 before after before' after',
     trace (final_state o)
     = [EvStage ANALYSIS_IMPORTS g0;
        EvPass 0 ANALYSIS_IMPORTS before after;
        EvPass 1 ANALYSIS_IMPORTS before' after'] /\
     errors_found after = 1 /\
     exit_code o = Some EXIT_FAILURE) /\
  ~ stops_at_error (trace (final_state o)).
Proof.
  intros o.
  assert (H : exists g0 before after before' after',
     trace (final_state o)
     = [EvStage ANALYSIS_IMPORTS g0;
        EvPass 0 ANALYSIS_IMPORTS before after;
        EvPass 1 ANALYSIS_IMPORTS before' after'] /\
     errors_found after = 1 /\
     exit_code o = Some EXIT_FAILURE).
  { vm_compute. eexists _, _, _, _, _. split; [reflexivity |].
    split; reflexivity. }
  split; [exact H |].
  destruct H as (g0 & before & after & before' & after' & Htr & He & _).
  intros Hstop.
  specialize (Hstop [EvStage ANALYSIS_IMPORTS g0] 0 ANALYSIS_IMPORTS
                before after [EvPass 1 ANALYSIS_IMPORTS before' after']).
  rewrite Htr in Hstop. specialize (Hstop eq_refl ltac:(lia)).
  discriminate.
Qed.

(** * Further properties *)

(** ** The scratch buffer as a string builder *)

Local Open Scope Z_scope.

Lemma c_str_terminated (buf : list ascii) (n : nat) :
  (n < length buf)%nat -> c_str (<[n := NUL]> buf) = c_str (take n buf).
Proof.
  revert n. induction buf as [|c buf IH]; intros n Hn; simpl in *; [lia |].
  destruct n as [|n]; unfold c_str in *; simpl.
  - destruct (decide (NUL = NUL)); done.
  - destruct (decide (c = NUL)); [done |]. simpl. f_equal. apply IH. lia.
Qed.

Lemma c_str_no_nul (s : list ascii) : NUL ∉ s -> c_str s = s.
Proof.
  induction s as [|c s IH]; [done |].
  rewrite not_elem_of_cons. intros [Hc Hs]. unfold c_str in *. simpl.
  destruct (decide (c = NUL)); [congruence |]. simpl. f_equal. by apply IH.
Qed.

Lemma scratch_op_content MAX op g g' :
  1 <= MAX <= INT_MAX -> op_valid op -> scratch_ok MAX g ->
  scratch_op MAX op g = Returned tt g' ->
  scratch_content g'
  = match op with
    | OpClear => []
    | _ => scratch_content g ++ op_payload op
    end /\
  scratch_buffer_len g'
  = match op with
    | OpClear => 0
    | _ => scratch_buffer_len g + op_size op
    end.
Proof.
  intros HM Hv Hok Hrun. pose proof Hok as [Hlen Hb].
  unfold scratch_content.
  assert (Hsplice : forall (s : list ascii) (len : Z),
            0 <= len <= Z.of_nat (length s) ->
            len + scratch_buffer_len g <= MAX - 1 ->
            take (Z.to_nat (scratch_buffer_len g + len))
              (take (Z.to_nat (scratch_buffer_len g)) (scratch_buffer g)
               ++ take (Z.to_nat len) s
               ++ drop (Z.to_nat (scratch_buffer_len g) + Z.to_nat len)
                       (scratch_buffer g))
            = take (Z.to_nat (scratch_buffer_len g)) (scratch_buffer g)
              ++ take (Z.to_nat len) s).
  { intros s len Hl Hfit. rewrite app_assoc.
    replace (Z.to_nat (scratch_buffer_len g + len))
      with (Z.to_nat (scratch_buffer_len g) + Z.to_nat len)%nat by lia.
    rewrite take_app_length'; [done |].
    rewrite length_app, !length_take. lia. }
  destruct op as [|s|s len|c]; simpl in *.
  - inversion Hrun; subst. done.
  - unfold scratch_buffer_append in Hrun.
    pose proof (strlen_le s) as Hs.
    destruct (Z_le_gt_dec (Z.of_nat (strlen s) + scratch_buffer_len g) (MAX - 1))
      as [Hle|Hgt].
    + rewrite (append_len_return MAX HM) in Hrun by (done || lia).
      inversion Hrun; subst. simpl. split; [| done].
      rewrite Hsplice by lia. unfold c_str. by rewrite Nat2Z.id.
    + rewrite (append_len_exit MAX HM) in Hrun by (done || lia). done.
  - destruct (Z_le_gt_dec (len + scratch_buffer_len g) (MAX - 1)) as [Hle|Hgt].
    + rewrite (append_len_return MAX HM) in Hrun by (done || lia).
      inversion Hrun; subst. simpl. split; [| done].
      by rewrite Hsplice by lia.
    + rewrite (append_len_exit MAX HM) in Hrun by (done || lia). done.
  - destruct (Z_le_gt_dec (1 + scratch_buffer_len g) (MAX - 1)) as [Hle|Hgt].
    + rewrite (append_char_return MAX HM) in Hrun by (done || lia).
      inversion Hrun; subst. simpl. split; [| done].
      replace (Z.to_nat (scratch_buffer_len g + 1))
        with (S (Z.to_nat (scratch_buffer_len g))) by lia.
      erewrite take_S_r; [| apply list_lookup_insert_eq; lia].
      by rewrite take_insert_ge by lia.
    + rewrite (append_char_exit MAX HM) in Hrun by (done || lia). done.
Qed.

Lemma scratch_ops_content_eq MAX ops g g' :
  1 <= MAX <= INT_MAX -> Forall op_valid ops -> scratch_ok MAX g ->
  scratch_ops MAX ops g = Returned tt g' ->
  scratch_content g' = ops_content (scratch_content g) ops.
Proof.
  intros HM Hv. revert g.
  induction Hv as [|op ops Hop Hops IH]; intros g Hok Hrun.
  - inversion Hrun; subst. done.
  - simpl in Hrun. unfold bind in Hrun.
    destruct (scratch_op MAX op g) as [[] g1| |] eqn:E; try done.
    pose proof (scratch_op_ok MAX HM op g g1 Hop Hok E) as Hok1.
    destruct (scratch_op_content MAX op g g1 HM Hop Hok E) as [Hc _].
    rewrite (IH g1 Hok1 Hrun), Hc. by destruct op.
Qed.

(** X1. The scratch buffer builds strings: after a sequence of operations
    that returns, the buffer holds what was appended since the last
    [scratch_buffer_clear], in order ([scratch_buffer_append] adding its
    argument up to the first NUL), and [scratch_buffer_to_string] returns
    those characters, cut at the first NUL if there is one. It leaves the
    characters and their number as they are, so that appending can go
    on. *)
Theorem scratch_buffer_builds_string
    (MAX : Z) (ops : list ScratchOp) (g g' : ScratchBuffer) :
  1 <= MAX <= INT_MAX ->
  scratch_ok MAX g ->
  Forall op_valid ops ->
  scratch_ops MAX ops g = Returned tt g' ->
  scratch_content g' = ops_content (scratch_content g) ops /\
  exists str g'',
    scratch_buffer_to_string g' = Returned str g'' /\
    str = c_str (scratch_content g') /\
    (NUL ∉ scratch_content g' -> str = scratch_content g') /\
    scratch_content g'' = scratch_content g' /\
    scratch_buffer_len g'' = scratch_buffer_len g'.
Proof.
  intros HM Hok Hv Hrun.
  split; [by eapply scratch_ops_content_eq |].
  pose proof (scratch_ops_ok MAX HM ops g g' Hv Hok Hrun) as [Hbuf Hb].
  assert (Hn : (Z.to_nat (scratch_buffer_len g') < length (scratch_buffer g'))%nat)
    by lia.
  eexists _, _. split; [reflexivity |]. simpl. unfold scratch_content. simpl.
  rewrite c_str_terminated by done.
  split; [done |]. split; [apply c_str_no_nul |].
  split; [| done]. apply take_insert_ge. lia.
Qed.

Lemma scratch_buffer_builds_string_witness :
  exists g' str g'',
    scratch_ops 16
      [OpAppendChar "x"; OpClear; OpAppend ["m"; "a"; "i"; "n"];
       OpAppendChar "."; OpAppendLen ["c"; "3"; "!"] 2]%char
      (scratch_initial 16) = Returned tt g' /\
    scratch_buffer_to_string g' = Returned str g'' /\
    str = ["m"; "a"; "i"; "n"; "."; "c"; "3"]%char.
Proof.
  destruct (scratch_ops 16
    [OpAppendChar "x"; OpClear; OpAppend ["m"; "a"; "i"; "n"];
     OpAppendChar "."; OpAppendLen ["c"; "3"; "!"] 2]%char
    (scratch_initial 16)) as [[] g'| |] eqn:E;
    try (vm_compute in E; discriminate).
  destruct (scratch_buffer_builds_string 16
    [OpAppendChar "x"; OpClear; OpAppend ["m"; "a"; "i"; "n"];
     OpAppendChar "."; OpAppendLen ["c"; "3"; "!"] 2]%char
    (scratch_initial 16) g'
    ltac:(unfold INT_MAX; lia)
    (scratch_initial_ok 16 ltac:(unfold INT_MAX; lia))
    ltac:(repeat constructor; simpl; unfold PTRDIFF_MAX; lia)
    E) as (Hc & str & g'' & Hrun & Hstr & _).
  exists g', str, g''. split; [reflexivity |]. split; [exact Hrun |].
  rewrite Hstr, Hc. reflexivity.
Defined.

Lemma scratch_ops_step MAX op ops g :
  scratch_ops MAX (op :: ops) g
  = match scratch_op MAX op g with
    | Returned _ g1 => scratch_ops MAX ops g1
    | Exited c msg g1 => Exited c msg g1
    | OutOfFuel g1 => OutOfFuel g1
    end.
Proof. simpl. unfold bind. by destruct (scratch_op MAX op g) as [[] ?| |]. Qed.

Lemma scratch_ops_fit_eq MAX ops g :
  1 <= MAX <= INT_MAX -> Forall op_valid ops -> scratch_ok MAX g ->
  if ops_fit MAX (scratch_buffer_len g) ops
  then exists g', scratch_ops MAX ops g = Returned tt g'
  else exists g', scratch_ops MAX ops g
                  = Exited EXIT_FAILURE scratch_exceeded g'.
Proof.
  intros HM Hv. revert g.
  induction Hv as [|op ops Hop Hops IH]; intros g Hok; [by exists g |].
  rewrite scratch_ops_step.
  assert (Hstep : forall g1, scratch_op MAX op g = Returned tt g1 ->
            if ops_fit MAX (scratch_buffer_len g1) ops
            then exists g', scratch_ops MAX ops g1 = Returned tt g'
            else exists g', scratch_ops MAX ops g1
                            = Exited EXIT_FAILURE scratch_exceeded g').
  { intros g1 E. apply IH. by eapply scratch_op_ok. }
  pose proof Hok as [Hlen Hb].
  pose proof (fun g1 E => proj2 (scratch_op_content MAX op g g1 HM Hop Hok E))
    as Hsize.
  destruct op as [|s|s len|c]; simpl in *.
  - specialize (Hstep _ eq_refl). done.
  - unfold scratch_buffer_append in *. pose proof (strlen_le s) as Hs.
    destruct (Z.leb_spec (scratch_buffer_len g + Z.of_nat (strlen s)) (MAX - 1))
      as [Hle|Hgt]; simpl.
    + rewrite (append_len_return MAX HM) in * by (done || lia).
      specialize (Hstep _ eq_refl). specialize (Hsize _ eq_refl).
      simpl in *. done.
    + rewrite (append_len_exit MAX HM) by (done || lia). by eexists.
  - destruct (Z.leb_spec (scratch_buffer_len g + len) (MAX - 1))
      as [Hle|Hgt]; simpl.
    + rewrite (append_len_return MAX HM) in * by (done || lia).
      specialize (Hstep _ eq_refl). done.
    + rewrite (append_len_exit MAX HM) by (done || lia). by eexists.
  - destruct (Z.leb_spec (scratch_buffer_len g + 1) (MAX - 1))
      as [Hle|Hgt]; simpl.
    + rewrite (append_char_return MAX HM) in * by (done || lia).
      specialize (Hstep _ eq_refl). done.
    + rewrite (append_char_exit MAX HM) by (done || lia). by eexists.
Qed.

Lemma append_len_empty MAX g s :
  1 <= MAX <= INT_MAX -> scratch_ok MAX g ->
  exists g',
    scratch_buffer_append_len MAX s 0 g = Returned tt g' /\
    scratch_content g' = scratch_content g /\
    scratch_buffer_len g' = scratch_buffer_len g.
Proof.
  intros HM Hok.
  assert (Hz : 0 <= 0 <= PTRDIFF_MAX) by (unfold PTRDIFF_MAX; lia).
  assert (Hfit : 0 + scratch_buffer_len g <= MAX - 1)
    by (destruct Hok; lia).
  pose proof (append_len_return MAX HM g s 0 Hok Hz Hfit) as E.
  assert (Hv : op_valid (OpAppendLen s 0))
    by (simpl; unfold PTRDIFF_MAX; lia).
  destruct (scratch_op_content MAX (OpAppendLen s 0) g _ HM Hv Hok E)
    as [Hc Hl].
  eexists. split; [exact E |]. split.
  - rewrite Hc. simpl. apply app_nil_r.
  - rewrite Hl. simpl. lia.
Qed.

(** X2. Only what was appended since the last [scratch_buffer_clear]
    counts against the capacity: from a buffer holding [n] characters a
    sequence of operations returns exactly when every append keeps the
    number of characters since the last clear within
    [MAX_STRING_BUFFER - 1], and otherwise the process exits with
    [EXIT_FAILURE]. An append of no character returns and leaves the
    characters as they are. *)
Theorem scratch_buffer_capacity
    (MAX : Z) (ops : list ScratchOp) (g : ScratchBuffer) :
  1 <= MAX <= INT_MAX ->
  scratch_ok MAX g ->
  Forall op_valid ops ->
  (ops_fit MAX (scratch_buffer_len g) ops = true <->
   exists g', scratch_ops MAX ops g = Returned tt g') /\
  (ops_fit MAX (scratch_buffer_len g) ops = false <->
   exists g', scratch_ops MAX ops g = Exited EXIT_FAILURE scratch_exceeded g') /\
  (forall s, exists g',
     scratch_buffer_append_len MAX s 0 g = Returned tt g' /\
     scratch_content g' = scratch_content g /\
     scratch_buffer_len g' = scratch_buffer_len g).
Proof.
  intros HM Hok Hv.
  pose proof (scratch_ops_fit_eq MAX ops g HM Hv Hok) as H.
  split; [| split].
  - destruct (ops_fit MAX (scratch_buffer_len g) ops); split; try done.
    destruct H as [g1 H1]. intros [g2 H2]. congruence.
  - destruct (ops_fit MAX (scratch_buffer_len g) ops); split; try done.
    destruct H as [g1 H1]. intros [g2 H2]. congruence.
  - intros s. by apply append_len_empty.
Qed.

Lemma scratch_buffer_capacity_witness :
  (exists g',
     scratch_ops 4 [OpAppend ["a"; "b"; "c"]; OpClear; OpAppendChar "d"]%char
       (scratch_initial 4) = Returned tt g') /\
  (exists g',
     scratch_ops 4 [OpAppend ["a"; "b"; "c"]; OpAppendChar "d"]%char
       (scratch_initial 4) = Exited EXIT_FAILURE scratch_exceeded g').
Proof.
  split.
  - apply (scratch_buffer_capacity 4
             [OpAppend ["a"; "b"; "c"]; OpClear; OpAppendChar "d"]%char
             (scratch_initial 4)).
    + unfold INT_MAX. lia.
    + apply scratch_initial_ok. unfold INT_MAX. lia.
    + repeat constructor; simpl; unfold PTRDIFF_MAX; lia.
    + reflexivity.
  - apply (scratch_buffer_capacity 4
             [OpAppend ["a"; "b"; "c"]; OpAppendChar "d"]%char
             (scratch_initial 4)).
    + unfold INT_MAX. lia.
    + apply scratch_initial_ok. unfold INT_MAX. lia.
    + repeat constructor; simpl; unfold PTRDIFF_MAX; lia.
    + reflexivity.
Defined.

Local Close Scope Z_scope.

(** ** Registrations over any table, and the qualified tables *)

Lemma entry_after_snoc prev l d :
  entry_after prev (l ++ [d])
  = Some (match entry_after prev l with
          | Some _ => poisoned_decl
          | None => decl_ref d
          end).
Proof.
  destruct l as [|d1 [|d2 l]]; destruct prev; simpl; try done.
Qed.

Lemma qualified_entry_register d g m n :
  qualified_entry m n (compiler_register_public_symbol d g)
  = if decide (decl_module d = m /\ decl_name d = n)
    then Some (match qualified_entry m n g with
               | Some _ => poisoned_decl
               | None => decl_ref d
               end)
    else qualified_entry m n g.
Proof.
  unfold qualified_entry, compiler_register_public_symbol. simpl.
  destruct (decide (decl_module d = m)) as [<-|Hm].
  - rewrite lookup_insert_eq, register_in_lookup.
    destruct (qualified_symbols g !! decl_module d) as [space|]; simpl.
    + destruct (decide (decl_name d = n));
        destruct (decide _) as [[_ ?]|Hn]; try done.
      exfalso. by apply Hn.
    + rewrite lookup_empty.
      destruct (decide (decl_name d = n));
        destruct (decide _) as [[_ ?]|Hn]; try done.
      exfalso. by apply Hn.
  - rewrite lookup_insert_ne by done.
    destruct (decide _) as [[? _]|_]; done.
Qed.

Lemma declared_in_snoc m l d :
  declared_in m (l ++ [d])
  = declared_in m l ++ (if decide (decl_module d = m) then [d] else []).
Proof. unfold declared_in. rewrite filter_app. f_equal. Qed.

Lemma find_symbol_registered ds g n :
  compiler_find_symbol n (register_symbols ds g)
  = entry_after (compiler_find_symbol n g) (registrations n ds).
Proof.
  induction ds as [|d ds IH] using rev_ind; [done |].
  rewrite register_symbols_snoc. unfold compiler_find_symbol in *.
  rewrite register_global_symbols, register_in_lookup, registrations_snoc, IH.
  destruct (decide (decl_name d = n)).
  - by rewrite entry_after_snoc.
  - by rewrite app_nil_r.
Qed.

Lemma qualified_entry_registered ds g m n :
  qualified_entry m n (register_symbols ds g)
  = entry_after (qualified_entry m n g) (declared_in m (registrations n ds)).
Proof.
  induction ds as [|d ds IH] using rev_ind; [done |].
  rewrite register_symbols_snoc, qualified_entry_register, IH.
  rewrite registrations_snoc.
  destruct (decide (decl_name d = n)) as [Hn|Hn].
  - rewrite declared_in_snoc.
    destruct (decide (decl_module d = m)) as [Hm|Hm].
    + rewrite entry_after_snoc.
      destruct (decide _) as [_|H]; [done | exfalso; by apply H].
    + rewrite app_nil_r. destruct (decide _) as [[? _]|_]; done.
  - rewrite app_nil_r. destruct (decide _) as [[_ ?]|_]; done.
Qed.

(** X3. Registrations over any symbol tables. After the declarations
    [ds] are registered, the global entry of a name is the entry it had
    when none of them has that name; the one declaration, when there was
    no entry and exactly one has the name; the poison sentinel otherwise.
    The entry in the sub-table of a module follows the same rule with the
    declarations of that name in that module only, so a name declared
    once in each of two modules is poisoned globally and resolved in both
    sub-tables. An entry is never removed, a poisoned entry stays
    poisoned, and the registry of the modules and the error count are not
    touched. *)
Theorem register_symbols_entries
    (ds : list Decl) (g : GlobalContext) (m n : string) :
  let g' := register_symbols ds g in
  compiler_find_symbol n g'
  = entry_after (compiler_find_symbol n g) (registrations n ds) /\
  qualified_entry m n g'
  = entry_after (qualified_entry m n g) (declared_in m (registrations n ds)) /\
  (is_Some (compiler_find_symbol n g) -> is_Some (compiler_find_symbol n g')) /\
  (compiler_find_symbol n g = Some poisoned_decl ->
   compiler_find_symbol n g' = Some poisoned_decl) /\
  (forall d1 d2,
     compiler_find_symbol n g = None ->
     qualified_entry (decl_module d1) n g = None ->
     qualified_entry (decl_module d2) n g = None ->
     decl_module d1 <> decl_module d2 ->
     registrations n ds = [d1; d2] ->
     compiler_find_symbol n g' = Some poisoned_decl /\
     qualified_entry (decl_module d1) n g' = Some (decl_ref d1) /\
     qualified_entry (decl_module d2) n g' = Some (decl_ref d2)) /\
  modules g' = modules g /\ module_list g' = module_list g /\
  generic_module_list g' = generic_module_list g /\
  module_heap g' = module_heap g /\ errors_found g' = errors_found g.
Proof.
  intros g'. subst g'.
  rewrite find_symbol_registered, qualified_entry_registered.
  split; [done |]. split; [done |]. split; [| split; [| split]].
  - intros [x Hx]. rewrite Hx.
    destruct (registrations n ds) as [|d1 [|d2 l]]; simpl; by eexists.
  - intros ->. by destruct (registrations n ds) as [|d1 [|d2 l]].
  - intros d1 d2 Hg H1 H2 Hne Hds.
    rewrite !qualified_entry_registered, Hds, Hg, H1, H2.
    unfold declared_in. simpl.
    rewrite !filter_cons, !filter_nil.
    repeat (destruct (decide _); try congruence); simpl; done.
  - apply register_symbols_frame.
Qed.

Lemma register_symbols_entries_witness :
  compiler_find_symbol "f"
    (register_symbols
       [ {| decl_id := 1; decl_name := "f"; decl_module := "a" |};
         {| decl_id := 2; decl_name := "f"; decl_module := "b" |} ]
       context_zero) = Some poisoned_decl /\
  qualified_entry "b" "f"
    (register_symbols
       [ {| decl_id := 1; decl_name := "f"; decl_module := "a" |};
         {| decl_id := 2; decl_name := "f"; decl_module := "b" |} ]
       context_zero)
  = Some (decl_ref {| decl_id := 2; decl_name := "f"; decl_module := "b" |}).
Proof.
  destruct (register_symbols_entries
    [ {| decl_id := 1; decl_name := "f"; decl_module := "a" |};
      {| decl_id := 2; decl_name := "f"; decl_module := "b" |} ]
    context_zero "a" "f") as (_ & _ & _ & _ & H & _).
  destruct (H {| decl_id := 1; decl_name := "f"; decl_module := "a" |}
              {| decl_id := 2; decl_name := "f"; decl_module := "b" |})
    as (Hg & _ & Hb); try reflexivity; [discriminate |].
  split; [exact Hg | exact Hb].
Defined.

(** ** The registry of the modules stays consistent *)

Lemma registry_ok_lt g n m :
  registry_ok g -> modules g !! n = Some m -> m < length (module_heap g).
Proof.
  intros (_ & _ & H3) Hn. destruct (H3 n m Hn) as (md & Hm & _).
  by eapply lookup_lt_Some.
Qed.

Lemma registry_ok_wf g : registry_ok g -> ctx_wf g.
Proof.
  intros Hok. pose proof Hok as (Hnd & H2 & H3).
  split; [by apply NoDup_app in Hnd as (? & _) |]. split.
  - intros m Hm.
    destruct (proj1 (H2 m)) as [n Hn]; [apply elem_of_app; by left |].
    by eapply registry_ok_lt.
  - intros n m Hn. by eapply registry_ok_lt.
Qed.

Lemma registry_ok_frame g g' :
  modules g' = modules g -> module_list g' = module_list g ->
  generic_module_list g' = generic_module_list g ->
  module_heap g' = module_heap g ->
  registry_ok g -> registry_ok g'.
Proof.
  unfold registry_ok, global_context_find_module.
  intros -> -> -> ->. done.
Qed.

Lemma find_or_create_new name ps g :
  modules g !! path_module name = None ->
  let r := compiler_find_or_create_module name ps g in
  r.1 = length (module_heap g) /\
  modules r.2 = <[path_module name := length (module_heap g)]> (modules g) /\
  module_heap r.2
  = module_heap g ++ [{| module_name := name;
                         module_stage := ANALYSIS_NOT_BEGUN;
                         module_parameters := ps;
                         module_symbols := ∅ |}] /\
  module_list r.2
  = module_list g ++ match ps with Some _ => [] | None => [r.1] end /\
  generic_module_list r.2
  = generic_module_list g ++ match ps with Some _ => [r.1] | None => [] end.
Proof.
  intros E. unfold compiler_find_or_create_module, global_context_find_module.
  rewrite E. destruct ps; simpl; rewrite ?app_nil_r; done.
Qed.

Lemma find_or_create_registry name ps g :
  registry_ok g -> registry_ok (compiler_find_or_create_module name ps g).2.
Proof.
  intros Hok.
  destruct (modules g !! path_module name) as [m|] eqn:E.
  { by rewrite (find_existing name ps g m E). }
  destruct (find_or_create_new name ps g E) as (Hr & Hmod & Hheap & Hml & Hgl).
  set (g' := (compiler_find_or_create_module name ps g).2) in *.
  set (m0 := length (module_heap g)) in *.
  rewrite Hr in Hml, Hgl.
  pose proof Hok as (Hnd & H2 & H3).
  unfold global_context_find_module in H2, H3.
  assert (Hfresh : m0 ∉ module_list g ++ generic_module_list g).
  { intros Hin. apply H2 in Hin as [n Hn].
    pose proof (registry_ok_lt g n m0 Hok Hn). lia. }
  assert (Hperm : module_list g' ++ generic_module_list g'
                  ≡ₚ m0 :: (module_list g ++ generic_module_list g)).
  { rewrite Hml, Hgl. destruct ps; rewrite ?app_nil_r.
    - rewrite app_assoc. symmetry. apply Permutation_cons_append.
    - rewrite <- app_assoc. symmetry. apply Permutation_middle. }
  unfold registry_ok, global_context_find_module.
  split; [| split].
  - rewrite Hperm. by apply NoDup_cons.
  - intros m. rewrite Hperm, elem_of_cons, H2, Hmod. split.
    + intros [-> | [n Hn]].
      * exists (path_module name). apply lookup_insert_eq.
      * exists n. rewrite lookup_insert_ne; [done | congruence].
    + intros [n Hn]. apply lookup_insert_Some in Hn as [[_ <-]|[_ Hn]].
      * by left.
      * right. by exists n.
  - intros n m. rewrite Hmod, Hheap, Hgl.
    intros Hn. apply lookup_insert_Some in Hn as [[<- <-]|[Hne Hn]].
    + eexists. split; [| split].
      * rewrite lookup_app_r by done. fold m0. by rewrite Nat.sub_diag.
      * done.
      * simpl. destruct ps; rewrite ?app_nil_r.
        -- split; [by eexists |]. intros _. apply elem_of_app. right.
           by apply list_elem_of_singleton.
        -- split; [| by intros [? ?]]. intros Hin. exfalso. apply Hfresh.
           apply elem_of_app. by right.
    + destruct (H3 n m Hn) as (md & Hm & Hname & Hgen).
      exists md. split; [by apply lookup_app_l_Some |]. split; [done |].
      rewrite <- Hgen. destruct ps; rewrite ?app_nil_r; [| done].
      rewrite elem_of_app, list_elem_of_singleton.
      split; [| by left]. intros [? | ->]; [done |].
      apply lookup_lt_Some in Hm. unfold m0 in Hm. lia.
Qed.

Lemma create_modules_registry l g :
  registry_ok g -> registry_ok (create_modules l g).
Proof.
  revert g. induction l as [|[name ps] l IH]; intros g H; [done |].
  simpl. apply IH. by apply find_or_create_registry.
Qed.

Lemma find_or_create_dom name ps g n :
  is_Some (modules (compiler_find_or_create_module name ps g).2 !! n)
  <-> is_Some (modules g !! n) \/ n = path_module name.
Proof.
  destruct (modules g !! path_module name) as [m|] eqn:E.
  - rewrite (find_existing name ps g m E). simpl. split; [by left |].
    intros [?| ->]; [done | by eexists].
  - destruct (find_or_create_new name ps g E) as (_ & -> & _).
    rewrite lookup_insert_is_Some. split.
    + intros [<-|[_ ?]]; [by right | by left].
    + intros [?| ->]; [| by left].
      destruct (decide (path_module name = n)); [by left | by right].
Qed.

Lemma create_modules_dom l g n :
  is_Some (modules (create_modules l g) !! n)
  <-> is_Some (modules g !! n) \/ n ∈ created_names l.
Proof.
  revert g. induction l as [|[name ps] l IH]; intros g; simpl.
  - split; [by left |]. intros [?|H]; [done |]. by apply elem_of_nil in H.
  - rewrite IH, find_or_create_dom. unfold created_names. simpl.
    rewrite elem_of_cons. tauto.
Qed.

Lemma registry_ok_round_trip g m :
  registry_ok g ->
  m ∈ module_list g ++ generic_module_list g ->
  exists md, module_heap g !! m = Some md /\
    global_context_find_module (path_module (module_name md)) g = Some m /\
    (m ∈ module_list g <-> module_parameters md = None).
Proof.
  intros (Hnd & H2 & H3) Hin.
  destruct (proj1 (H2 m) Hin) as [n Hn].
  destruct (H3 n m Hn) as (md & Hm & Hname & Hgen).
  exists md. split; [done |]. split; [by rewrite Hname |].
  apply NoDup_app in Hnd as (_ & Hdis & _).
  apply elem_of_app in Hin as [Hin|Hin].
  - split; [| done]. intros _.
    destruct (module_parameters md) eqn:Ep; [| done].
    exfalso. apply (Hdis m Hin). apply Hgen. by eexists.
  - split.
    + intros Hml. exfalso. by apply (Hdis m Hml).
    + intros Hp. apply Hgen in Hin as [x Hx]. congruence.
Qed.

(** X4. The registry stays consistent under creations. From a
    consistent registry (the empty one is), after any sequence of calls of
    [compiler_find_or_create_module] the registry is consistent, the
    names found by [global_context_find_module] are those found before and
    those asked for, and every module of [module_list] or
    [generic_module_list] is found again under the name it carries: a
    module is listed once, in [module_list] exactly when it has no
    parameters. *)
Theorem compiler_find_or_create_module_registry
    (l : list (Path * option (list TokenId))) (g : GlobalContext) :
  registry_ok g ->
  let g' := create_modules l g in
  registry_ok g' /\
  (forall n, is_Some (global_context_find_module n g')
             <-> is_Some (global_context_find_module n g)
                 \/ n ∈ created_names l) /\
  (forall m, m ∈ module_list g' ++ generic_module_list g' ->
     exists md, module_heap g' !! m = Some md /\
       global_context_find_module (path_module (module_name md)) g' = Some m /\
       (m ∈ module_list g' <-> module_parameters md = None)) /\
  NoDup (module_list g' ++ generic_module_list g').
Proof.
  intros Hok g'.
  pose proof (create_modules_registry l g Hok) as Hok'. fold g' in Hok'.
  split; [done |]. split; [| split].
  - intros n. apply create_modules_dom.
  - intros m. by apply registry_ok_round_trip.
  - by destruct Hok'.
Qed.

Lemma registry_ok_zero : registry_ok context_zero.
Proof.
  split; [apply NoDup_nil_2 |]. split.
  - intros m. split; [intros H; by apply elem_of_nil in H |].
    intros [n Hn]. unfold global_context_find_module in Hn. simpl in Hn.
    by rewrite lookup_empty in Hn.
  - intros n m Hn. unfold global_context_find_module in Hn. simpl in Hn.
    by rewrite lookup_empty in Hn.
Qed.

Lemma compiler_find_or_create_module_registry_witness :
  registry_ok
    (create_modules
       [ ({| path_module := "a"; path_len := 1 |}, None);
         ({| path_module := "v"; path_len := 1 |}, Some [7]);
         ({| path_module := "a"; path_len := 1 |}, Some [8]) ]
       context_zero).
Proof.
  apply (compiler_find_or_create_module_registry
           [ ({| path_module := "a"; path_len := 1 |}, None);
             ({| path_module := "v"; path_len := 1 |}, Some [7]);
             ({| path_module := "a"; path_len := 1 |}, Some [8]) ]
           context_zero registry_ok_zero).
Defined.

(** ** The loop of [sema_analyze_stage] *)

Lemma find_or_create_stage_of name ps g a :
  stage_of (compiler_find_or_create_module name ps g).2 a = stage_of g a.
Proof.
  destruct (modules g !! path_module name) as [m|] eqn:E.
  { by rewrite (find_existing name ps g m E). }
  destruct (find_or_create_new name ps g E) as (_ & _ & Hheap & _).
  unfold stage_of. rewrite Hheap.
  destruct (module_heap g !! a) as [x|] eqn:Ea.
  - by rewrite (lookup_app_l_Some _ _ _ _ Ea).
  - apply lookup_ge_None in Ea. rewrite lookup_app_r by done.
    by destruct (a - length (module_heap g)) as [|k].
Qed.

Lemma create_modules_stage_of l g a :
  stage_of (create_modules l g) a = stage_of g a.
Proof.
  revert g. induction l as [|[name ps] l IH]; intros g; [done |].
  simpl. by rewrite IH, find_or_create_stage_of.
Qed.

Lemma apply_effect_stage_of e g a :
  stage_of (apply_effect e g) a = stage_of g a.
Proof.
  destruct (apply_effect_frame e g) as (_ & _ & _ & Hheap & _).
  rewrite <- (create_modules_stage_of (new_modules e) g a).
  unfold stage_of. by rewrite Hheap.
Qed.

Lemma pass_step_context w m p :
  global_context (pass_step w m p)
  = apply_effect
      (sema_analysis_pass w (stage_of (increment_stage m (global_context p)) m)
         m (increment_stage m (global_context p)))
      (increment_stage m (global_context p)).
Proof. reflexivity. Qed.

Lemma pass_step_trace w m p :
  trace (pass_step w m p)
  = trace p
    ++ [EvPass m (stage_of (increment_stage m (global_context p)) m)
          (increment_stage m (global_context p))
          (global_context (pass_step w m p))].
Proof. reflexivity. Qed.

Lemma pass_step_le w m p :
  ctx_le (global_context p) (global_context (pass_step w m p)).
Proof.
  rewrite pass_step_context.
  eapply ctx_le_trans; [apply increment_stage_le | apply apply_effect_le].
Qed.

Lemma pass_step_stage_of w m p a :
  m < length (module_heap (global_context p)) ->
  stage_of (global_context (pass_step w m p)) a
  = if decide (a = m) then S (stage_of (global_context p) a)
    else stage_of (global_context p) a.
Proof.
  intros Hm. rewrite pass_step_context, apply_effect_stage_of.
  rewrite increment_stage_of.
  destruct (decide (a = m)) as [->|Hne].
  - destruct (decide _) as [_|Hn]; [done | exfalso; by apply Hn].
  - destruct (decide _) as [[? _]|_]; done.
Qed.

Lemma switch_pass_step w m p :
  m < length (module_heap (global_context p)) ->
  stage_of (global_context p) m < ANALYSIS_LAST ->
  sema_analysis_switch w m
    (set_global_context (increment_stage m (global_context p)) p)
  = Returned tt (pass_step w m p).
Proof.
  intros Hm Hs. rewrite switch_eq. cbn zeta.
  assert (Hst : stage_of (increment_stage m (global_context p)) m
                = S (stage_of (global_context p) m)).
  { rewrite increment_stage_of.
    destruct (decide _) as [_|Hn]; [done | exfalso; by apply Hn]. }
  cbn [global_context set_global_context]. rewrite Hst.
  unfold ANALYSIS_LAST, ANALYSIS_FUNCTIONS in Hs.
  destruct (Nat.eqb_spec (S (stage_of (global_context p) m)) 0); [lia |].
  destruct (Nat.leb_spec (S (stage_of (global_context p) m)) 6); [| lia].
  rewrite run_pass_eq. cbn zeta. unfold pass_step.
  cbn [global_context set_global_context]. by rewrite Hst.
Qed.

Lemma pass_steps_snoc w m k p :
  pass_steps w m (S k) p = pass_step w m (pass_steps w m k p).
Proof.
  revert p. induction k as [|k IH]; intros p; [done |].
  change (pass_steps w m (S (S k)) p)
    with (pass_steps w m (S k) (pass_step w m p)).
  by rewrite IH.
Qed.

Lemma pass_steps_le w m k p :
  ctx_le (global_context p) (global_context (pass_steps w m k p)).
Proof.
  revert p. induction k as [|k IH]; intros p; [apply ctx_le_refl |].
  simpl. eapply ctx_le_trans; [apply pass_step_le | apply IH].
Qed.

Lemma pass_steps_stage_of w m k p a :
  m < length (module_heap (global_context p)) ->
  stage_of (global_context (pass_steps w m k p)) a
  = if decide (a = m) then stage_of (global_context p) a + k
    else stage_of (global_context p) a.
Proof.
  revert p. induction k as [|k IH]; intros p Hm.
  { simpl. destruct (decide _); [lia | done]. }
  simpl. rewrite IH.
  - rewrite pass_step_stage_of by done. destruct (decide _); [lia | done].
  - destruct (pass_step_le w m p) as (_ & Hlen & _). lia.
Qed.

Lemma pass_steps_trace w m k p :
  m < length (module_heap (global_context p)) ->
  exists evs,
    trace (pass_steps w m k p) = trace p ++ evs /\
    passes_of m evs (seq (S (stage_of (global_context p) m)) k).
Proof.
  revert p. induction k as [|k IH]; intros p Hm.
  { exists []. simpl. rewrite app_nil_r. split; [done | constructor]. }
  simpl. destruct (IH (pass_step w m p)) as (evs & Htr & Hev).
  { destruct (pass_step_le w m p) as (_ & Hlen & _). lia. }
  rewrite pass_step_stage_of in Hev by done.
  destruct (decide (m = m)); [| done].
  eexists (_ :: evs). split.
  - rewrite Htr, pass_step_trace, <- app_assoc. reflexivity.
  - constructor; [| done]. eexists _, _. f_equal.
    rewrite increment_stage_of.
    destruct (decide _) as [_|Hn]; [done | exfalso; by apply Hn].
Qed.

Lemma sema_loop_steps w n m t p :
  m < length (module_heap (global_context p)) ->
  t <= ANALYSIS_LAST ->
  t - stage_of (global_context p) m < n ->
  exists k,
    sema_analyze_stage_loop w n m t p = Returned tt (pass_steps w m k p) /\
    k <= t - stage_of (global_context p) m /\
    (errors_found (global_context (pass_steps w m k p)) = 0 ->
     k = t - stage_of (global_context p) m) /\
    (stage_of (global_context p) m < t -> 1 <= k) /\
    (0 < errors_found (global_context p) -> k <= 1).
Proof.
  revert p. induction n as [|n IH]; intros p Hm Ht Hn; [lia |].
  rewrite sema_loop_eq.
  destruct (Nat.ltb_spec (stage_of (global_context p) m) t) as [Hlt|Hge].
  2: { exists 0. simpl. repeat apply conj; try done; lia. }
  rewrite switch_pass_step by (done || lia).
  pose proof (pass_step_le w m p) as (_ & Hlen & _ & Herr).
  pose proof (pass_step_stage_of w m p m Hm) as Hst.
  destruct (decide (m = m)); [| done].
  destruct (Nat.ltb_spec 0 (errors_found (global_context (pass_step w m p))))
    as [He|He].
  - exists 1. change (pass_steps w m 1 p) with (pass_step w m p).
    repeat apply conj; try done; lia.
  - destruct (IH (pass_step w m p)) as (k & Hrun & Hk & Hz & _ & _);
      [lia | done | lia |].
    exists (S k).
    change (pass_steps w m (S k) p) with (pass_steps w m k (pass_step w m p)).
    rewrite Hrun.
    repeat apply conj; try done; lia.
Qed.

(** X5. The contract of [sema_analyze_stage] for a module of the heap
    and a stage up to [ANALYSIS_LAST]. The call returns; the events it
    adds are passes on this module, those of the stages after its own, in
    order and each once, and the stage it leaves the module at is that of
    the last one. This stage is never beyond the one asked for, and it is
    the one asked for when no error is left at the end. When errors are
    there on entry one pass still runs, and one only, since the test
    follows the pass. No other module changes stage, and nothing happens
    at all when the module is already at the stage asked for. *)
Theorem sema_analyze_stage_contract
    (w : Collaborators) (m : ModulePtr) (t : AnalysisStage) (p : Process) :
  m < length (module_heap (global_context p)) ->
  t <= ANALYSIS_LAST ->
  exists p' evs,
    sema_analyze_stage w m t p = Returned tt p' /\
    trace p' = trace p ++ evs /\
    passes_of m evs
      (seq (S (stage_of (global_context p) m))
           (stage_of (global_context p') m - stage_of (global_context p) m)) /\
    stage_of (global_context p) m <= stage_of (global_context p') m
      <= stage_of (global_context p) m `max` t /\
    (errors_found (global_context p') = 0 ->
     stage_of (global_context p') m = stage_of (global_context p) m `max` t) /\
    (stage_of (global_context p) m < t ->
     0 < errors_found (global_context p) ->
     stage_of (global_context p') m = S (stage_of (global_context p) m)) /\
    (t <= stage_of (global_context p) m -> p' = p) /\
    (forall a, a <> m ->
       stage_of (global_context p') a = stage_of (global_context p) a) /\
    ctx_le (global_context p) (global_context p').
Proof.
  intros Hm Ht. unfold sema_analyze_stage.
  destruct (sema_loop_steps w (S t) m t p Hm Ht ltac:(lia))
    as (k & Hrun & Hk & Hz & Hone & Herr).
  destruct (pass_steps_trace w m k p Hm) as (evs & Htr & Hev).
  pose proof (pass_steps_stage_of w m k p m Hm) as Hst.
  destruct (decide (m = m)); [| done].
  exists (pass_steps w m k p), evs.
  split; [done |]. split; [done |]. rewrite Hst.
  replace (stage_of (global_context p) m + k - stage_of (global_context p) m)
    with k by lia.
  split; [done |]. split; [lia |]. split; [| split; [| split; [| split]]].
  - intros Hzero. specialize (Hz Hzero). lia.
  - intros Hlt He. specialize (Hone Hlt). specialize (Herr He). lia.
  - intros Hge. replace k with 0 by lia. done.
  - intros a Ha. rewrite pass_steps_stage_of by done.
    destruct (decide (a = m)); done.
  - apply pass_steps_le.
Qed.

Lemma sema_analyze_stage_contract_witness :
  exists p',
    sema_analyze_stage (example_collaborators failing_passes) 0 3
      (set_global_context
         (create_modules [({| path_module := "a"; path_len := 1 |}, None)]
            (set_errors false 1 0 context_zero))
         (process_start (example_target []))) = Returned tt p' /\
    stage_of (global_context p') 0 = 1.
Proof.
  destruct (sema_analyze_stage_contract (example_collaborators failing_passes)
              0 3
              (set_global_context
                 (create_modules
                    [({| path_module := "a"; path_len := 1 |}, None)]
                    (set_errors false 1 0 context_zero))
                 (process_start (example_target []))))
    as (p' & evs & Hrun & _ & _ & _ & _ & Hone & _).
  - vm_compute. lia.
  - unfold ANALYSIS_LAST, ANALYSIS_FUNCTIONS. lia.
  - exists p'. split; [exact Hrun |]. apply Hone.
    + vm_compute. lia.
    + vm_compute. lia.
Defined.

(** ** Invariants of the analysis *)

Lemma follows_refl p : follows p p.
Proof. split; [apply ctx_le_refl | done]. Qed.

Lemma follows_trans p1 p2 p3 : follows p1 p2 -> follows p2 p3 -> follows p1 p3.
Proof.
  intros (H1 & H2 & H3) (H4 & H5 & H6).
  split; [by eapply ctx_le_trans |]. split; congruence.
Qed.

Lemma pass_step_follows w m p : follows p (pass_step w m p).
Proof. split; [apply pass_step_le | done]. Qed.

Lemma pass_steps_follows w m k p : follows p (pass_steps w m k p).
Proof.
  revert p. induction k as [|k IH]; intros p; [apply follows_refl |].
  simpl. eapply follows_trans; [apply pass_step_follows | apply IH].
Qed.

Lemma follows_elem p p' m :
  follows p p' ->
  m ∈ module_list (global_context p) -> m ∈ module_list (global_context p').
Proof.
  intros ((Hpre & _) & _) Hm. destruct Hpre as [k ->].
  apply elem_of_app. by left.
Qed.

Lemma filter_length_zero {A} (P : A -> Prop) `{forall x, Decision (P x)}
    (l : list A) :
  length (filter P l) = 0 <-> Forall (fun x => ~ P x) l.
Proof.
  induction l as [|x l IH]; [by split; [constructor |] |].
  rewrite filter_cons. destruct (decide (P x)); simpl.
  - split; [lia |]. intros Hf. by apply Forall_cons in Hf as [? _].
  - rewrite IH. split; [by constructor |].
    intros Hf. by apply Forall_cons in Hf as [_ ?].
Qed.

Lemma header_gens_eq l p :
  header_gens l p
  = Returned tt (foldl (fun q m => add_event (EvHeaderGen m) q) p l).
Proof.
  revert p. induction l as [|m l IH]; intros p; [done |].
  simpl. unfold bind, log, modify. by rewrite IH.
Qed.

Lemma header_gens_trace l p :
  let p' := foldl (fun q m => add_event (EvHeaderGen m) q) p l in
  trace p' = trace p ++ header_events l /\
  global_context p' = global_context p /\
  active_target p' = active_target p.
Proof.
  revert p. induction l as [|m l IH]; intros p; simpl.
  - by rewrite app_nil_r.
  - destruct (IH (add_event (EvHeaderGen m) p)) as (-> & -> & ->).
    simpl. by rewrite <- app_assoc.
Qed.

Section Rule.

Variable w : Collaborators.
Variable I : Process -> Prop.
Hypothesis I_wf : forall p, I p -> ctx_wf (global_context p).
Hypothesis I_pass :
  forall p m, I p -> m ∈ module_list (global_context p) ->
    stage_of (global_context p) m < ANALYSIS_LAST -> I (pass_step w m p).
Hypothesis I_stage :
  forall p t, I p -> I (add_event (EvStage t (global_context p)) p).

Lemma pass_steps_rule k m p :
  I p -> m ∈ module_list (global_context p) ->
  stage_of (global_context p) m + k <= ANALYSIS_LAST ->
  I (pass_steps w m k p).
Proof.
  revert p. induction k as [|k IH]; intros p Hi Hm Hk; [done |].
  simpl. assert (Hv : m < length (module_heap (global_context p))).
  { destruct (I_wf p Hi) as (_ & Hl & _). by apply Hl. }
  apply IH.
  - apply I_pass; [done | done | lia].
  - eapply follows_elem; [apply pass_step_follows | done].
  - rewrite pass_step_stage_of by done.
    destruct (decide (m = m)); [lia | done].
Qed.

Lemma sema_analyze_stage_rule m t p :
  I p -> m ∈ module_list (global_context p) -> t <= ANALYSIS_LAST ->
  exists p', sema_analyze_stage w m t p = Returned tt p' /\
    I p' /\ follows p p'.
Proof.
  intros Hi Hm Ht.
  assert (Hv : m < length (module_heap (global_context p))).
  { destruct (I_wf p Hi) as (_ & Hl & _). by apply Hl. }
  destruct (sema_loop_steps w (S t) m t p Hv Ht ltac:(lia))
    as (k & Hrun & Hk & _).
  exists (pass_steps w m k p). split; [done |].
  split; [| apply pass_steps_follows].
  destruct k as [|k]; [done |].
  apply pass_steps_rule; [done | done | lia].
Qed.

Lemma analyze_modules_rule fuel t i p :
  I p -> t <= ANALYSIS_LAST ->
  match analyze_modules w fuel t i p with
  | Returned _ p' => I p' /\ follows p p'
  | Exited _ _ _ => False
  | OutOfFuel p' => I p' /\ follows p p'
  end.
Proof.
  revert i p. induction fuel as [|fuel IH]; intros i p Hi Ht.
  { simpl. split; [done | apply follows_refl]. }
  simpl. unfold bind at 1. unfold get at 1.
  destruct (module_list (global_context p) !! i) as [m|] eqn:Hm.
  2: { simpl. split; [done | apply follows_refl]. }
  destruct (sema_analyze_stage_rule m t p Hi
              ltac:(by eapply list_elem_of_lookup_2) Ht)
    as (p1 & Hrun & Hi1 & Hf1).
  unfold bind. rewrite Hrun.
  specialize (IH (S i) p1 Hi1 Ht).
  destruct (analyze_modules w fuel t (S i) p1) as [[] p2| |]; try done.
  - destruct IH. split; [done | by eapply follows_trans].
  - destruct IH. split; [done | by eapply follows_trans].
Qed.

Lemma analyze_to_stage_rule fuel t p :
  I p -> t <= ANALYSIS_LAST ->
  match analyze_to_stage w fuel t p with
  | Returned _ p' =>
      I p' /\ follows p p' /\ errors_found (global_context p') = 0
  | Exited c _ p' =>
      c = EXIT_FAILURE /\ I p' /\ follows p p' /\
      0 < errors_found (global_context p')
  | OutOfFuel p' => I p' /\ follows p p'
  end.
Proof.
  intros Hi Ht. unfold analyze_to_stage.
  unfold bind at 1. unfold get at 1.
  unfold bind at 1. unfold log at 1. unfold modify at 1.
  pose proof (analyze_modules_rule fuel t 0 _ (I_stage p t Hi) Ht) as Hr.
  unfold bind at 1.
  destruct (analyze_modules w fuel t 0 _) as [[] p1| |]; try done.
  destruct Hr as [Hi1 Hf1].
  assert (Hf : follows p p1).
  { eapply follows_trans; [| exact Hf1]. split; [apply ctx_le_refl | done]. }
  unfold halt_on_error, bind, get, exit, ret.
  destruct (Nat.ltb_spec 0 (errors_found (global_context p1))) as [He|He].
  - done.
  - split; [done |]. split; [done | lia].
Qed.

Lemma analyze_stages_rule fuel stages p :
  I p -> Forall (fun t => t <= ANALYSIS_LAST) stages ->
  match analyze_stages w fuel stages p with
  | Returned _ p' =>
      I p' /\ follows p p' /\
      (stages <> [] -> errors_found (global_context p') = 0)
  | Exited c _ p' =>
      c = EXIT_FAILURE /\ I p' /\ follows p p' /\
      0 < errors_found (global_context p')
  | OutOfFuel p' => I p' /\ follows p p'
  end.
Proof.
  intros Hi Hst. revert p Hi.
  induction Hst as [|t stages Ht Hst IH]; intros p Hi.
  { simpl. split; [done |]. split; [apply follows_refl | done]. }
  simpl. unfold bind.
  pose proof (analyze_to_stage_rule fuel t p Hi Ht) as Hr.
  destruct (analyze_to_stage w fuel t p) as [[] p1| |]; try done.
  destruct Hr as (Hi1 & Hf1 & He1).
  specialize (IH p1 Hi1).
  destruct stages as [|t' stages']; [done |].
  destruct (analyze_stages w fuel (t' :: stages') p1) as [[] p2| |].
  - destruct IH as (Hi2 & Hf2 & He2).
    split; [done |]. split; [by eapply follows_trans |].
    intros _. by apply He2.
  - destruct IH as (Hc & Hi2 & Hf2 & He2).
    split; [done |]. split; [done |]. split; [by eapply follows_trans | done].
  - destruct IH as (Hi2 & Hf2). split; [done | by eapply follows_trans].
Qed.

(** [compiler_compile], once the sources are loaded. *)
Lemma compiler_compile_rule fuel p contexts p1 :
  load_sources w p = Returned contexts p1 -> contexts <> [] ->
  trace p1 = [] -> I p1 ->
  match compiler_compile w fuel p with
  | Returned _ p' =>
      exists p2, I p2 /\ follows p1 p2 /\
        errors_found (global_context p2) = 0 /\
        (forall a, a ∈ module_list (global_context p2) ->
           ANALYSIS_LAST <= stage_of (global_context p2) a) /\
        output_headers (active_target p1) = true /\
        p' = foldl (fun q m => add_event (EvHeaderGen m) q) p2
               (module_list (global_context p2))
  | Exited c msg p' =>
      (c = EXIT_FAILURE /\ I p' /\ follows p1 p' /\
       0 < errors_found (global_context p')) \/
      (exists p2, I p2 /\ follows p1 p2 /\
         errors_found (global_context p2) = 0 /\
         (forall a, a ∈ module_list (global_context p2) ->
            ANALYSIS_LAST <= stage_of (global_context p2) a) /\
         output_headers (active_target p1) = false /\
         p' = add_event EvCodegen p2 /\
         ((c = EXIT_SUCCESS /\
           exists m, m ∈ module_list (global_context p2) /\
                     llvm_gen w m (global_context p2) = true) \/
          (c = EXIT_FAILURE /\
           forall m, m ∈ module_list (global_context p2) ->
                     llvm_gen w m (global_context p2) <> true)))
  | OutOfFuel p' => I p' /\ follows p1 p'
  end.
Proof.
  intros Hload Hne Htr Hi. unfold compiler_compile.
  unfold bind at 1. rewrite Hload.
  destruct contexts as [|c0 cs]; [done |].
  cbn [length Nat.eqb].
  assert (Hready : round_ready 1 p1).
  { unfold round_ready. split; [by apply I_wf |]. split; [intros; lia |].
    rewrite Htr. split; [constructor |]. by apply trace_ok_nil. }
  pose proof (analyze_stages_safe w fuel 6 1 p1 Hready) as Hs.
  assert (Hall : Forall (fun t => t <= ANALYSIS_LAST) (seq 1 6)).
  { unfold ANALYSIS_LAST, ANALYSIS_FUNCTIONS. simpl.
    repeat constructor; lia. }
  pose proof (analyze_stages_rule fuel (seq 1 6) p1 Hi Hall) as Hr.
  unfold analysis_stages, ANALYSIS_NOT_BEGUN, ANALYSIS_LAST,
    ANALYSIS_FUNCTIONS in *. simpl (0 + 1).
  unfold bind at 1.
  destruct (analyze_stages w fuel (seq 1 6) p1) as [[] p2| |].
  - destruct Hs as (_ & Hst & _ & _). destruct Hr as (Hi2 & Hf2 & He2).
    specialize (He2 ltac:(done)).
    assert (Hlast : forall a, a ∈ module_list (global_context p2) ->
                      6 <= stage_of (global_context p2) a).
    { intros a Ha. specialize (Hst a Ha). lia. }
    pose proof Hf2 as (_ & Htgt & _).
    unfold bind at 1. unfold get at 1. rewrite Htgt.
    destruct (output_headers (active_target p1)) eqn:Eh.
    + rewrite header_gens_eq. exists p2. done.
    + unfold bind at 1. unfold log at 1. unfold modify at 1.
      destruct (Nat.eqb_spec
                  (length (filter (fun m => llvm_gen w m (global_context p2) = true)
                             (module_list (global_context p2)))) 0) as [El|El].
      * unfold error_exit, exit. right. exists p2.
        split; [done |]. split; [done |]. split; [done |]. split; [done |].
        split; [done |]. split; [done |]. right. split; [done |].
        apply filter_length_zero in El. rewrite Forall_forall in El.
        exact El.
      * unfold exit. right. exists p2.
        split; [done |]. split; [done |]. split; [done |]. split; [done |].
        split; [done |]. split; [done |]. left. split; [done |].
        destruct (filter _ _) as [|m l] eqn:Ef; [done |].
        assert (Hin : m ∈ filter
                  (fun m => llvm_gen w m (global_context p2) = true)
                  (module_list (global_context p2))) by (rewrite Ef; by left).
        apply list_elem_of_filter in Hin as [? ?]. by exists m.
  - left. done.
  - done.
Qed.

End Rule.

(** ** What holds all along a run *)

Lemma increment_stage_registry m g :
  registry_ok g -> registry_ok (increment_stage m g).
Proof.
  intros (Hnd & H2 & H3). unfold registry_ok, global_context_find_module in *.
  split; [done |]. split; [done |].
  intros n a Hn. destruct (H3 n a Hn) as (md & Ha & Hname & Hgen).
  simpl. destruct (decide (a = m)) as [->|Hne].
  - rewrite list_lookup_alter_eq, Ha. simpl. eexists. split; [done |]. done.
  - rewrite list_lookup_alter_ne by done. by exists md.
Qed.

Lemma apply_effect_registry e g :
  registry_ok g -> registry_ok (apply_effect e g).
Proof.
  intros Hok. destruct (apply_effect_frame e g) as (H1 & H2 & H3 & H4 & _).
  eapply registry_ok_frame; [exact H1 | exact H2 | exact H3 | exact H4 |].
  by apply create_modules_registry.
Qed.

Lemma apply_effect_fresh e g : fresh_ctx g -> fresh_ctx (apply_effect e g).
Proof.
  intros [Hok Hst]. split; [by apply apply_effect_registry |].
  intros a. by rewrite apply_effect_stage_of.
Qed.

Lemma fresh_ctx_frame g g' :
  modules g' = modules g -> module_list g' = module_list g ->
  generic_module_list g' = generic_module_list g ->
  module_heap g' = module_heap g ->
  fresh_ctx g -> fresh_ctx g'.
Proof.
  intros H1 H2 H3 H4 [Hok Hst]. split; [by eapply registry_ok_frame |].
  intros a. specialize (Hst a). unfold stage_of in *. by rewrite H4.
Qed.

Lemma passes_on_snoc a tr e :
  passes_on a (tr ++ [e])
  = passes_on a tr
    ++ match e with
       | EvPass m s _ _ => if decide (m = a) then [s] else []
       | _ => []
       end.
Proof.
  unfold passes_on. rewrite omap_app. f_equal.
  destruct e as [| m s ? ? | |]; simpl; try done. by destruct (decide (m = a)).
Qed.

Lemma passes_on_headers a l : passes_on a (header_events l) = [].
Proof. induction l as [|m l IH]; [done |]. simpl. exact IH. Qed.

Lemma analysis_inv_wf w p : analysis_inv w p -> ctx_wf (global_context p).
Proof. intros (Hok & _). by apply registry_ok_wf. Qed.

Lemma analysis_inv_pass w p m :
  analysis_inv w p -> m ∈ module_list (global_context p) ->
  stage_of (global_context p) m < ANALYSIS_LAST ->
  analysis_inv w (pass_step w m p).
Proof.
  intros (Hok & Hev & Hon & Hmax & Hout) Hm Hs.
  assert (Hv : m < length (module_heap (global_context p))).
  { destruct (registry_ok_wf _ Hok) as (_ & Hl & _). by apply Hl. }
  assert (Hst : stage_of (increment_stage m (global_context p)) m
                = S (stage_of (global_context p) m)).
  { rewrite increment_stage_of.
    destruct (decide _) as [_|Hn]; [done | exfalso; by apply Hn]. }
  split; [| split; [| split; [| split]]].
  - rewrite pass_step_context.
    by apply apply_effect_registry, increment_stage_registry.
  - rewrite pass_step_trace. apply Forall_app. split; [done |].
    constructor; [| constructor]. simpl.
    split; [done |]. split; [done |]. split; [| done].
    rewrite Hst. lia.
  - intros a. rewrite pass_step_trace, passes_on_snoc, Hon.
    rewrite pass_step_stage_of by done.
    destruct (decide (m = a)) as [->|Hne].
    + destruct (decide (a = a)); [| done].
      rewrite Hst. by rewrite seq_S.
    + destruct (decide (a = m)); [congruence |]. by rewrite app_nil_r.
  - intros a. rewrite pass_step_stage_of by done.
    destruct (decide (a = m)) as [->|]; [lia | done].
  - intros a Ha. rewrite pass_step_stage_of by done.
    destruct (decide (a = m)) as [->|].
    + exfalso. apply Ha.
      eapply follows_elem; [apply pass_step_follows | done].
    + apply Hout. intros Hin. apply Ha.
      eapply follows_elem; [apply pass_step_follows | done].
Qed.

Lemma analysis_inv_stage w p t :
  analysis_inv w p ->
  analysis_inv w (add_event (EvStage t (global_context p)) p).
Proof.
  intros (Hok & Hev & Hon & Hmax & Hout).
  split; [done |]. split; [| split; [| done]].
  - simpl. apply Forall_app. split; [done |]. by repeat constructor.
  - intros a. simpl. rewrite passes_on_snoc, app_nil_r. apply Hon.
Qed.

Lemma fresh_analysis_inv w p : fresh p -> analysis_inv w p.
Proof.
  intros (Htr & Hok & Hst). unfold analysis_inv. rewrite Htr.
  split; [done |]. split; [constructor |]. split; [| split].
  - intros a. by rewrite Hst.
  - intros a. rewrite Hst. unfold ANALYSIS_NOT_BEGUN. lia.
  - intros a _. apply Hst.
Qed.

Section RunOutcome.

Variable w : Collaborators.

Lemma lex_sources_context l p :
  global_context (final_state (lex_sources w l p)) = global_context p.
Proof.
  revert p. induction l as [|path l IH]; intros p; [done |].
  simpl. unfold bind at 1.
  pose proof (source_file_load_context w path p) as Hl.
  destruct (source_file_load w path p) as [r p1| |]; simpl in *; try done.
  by rewrite IH.
Qed.

Lemma parse_only_sources_fresh l p :
  fresh_ctx (global_context p) ->
  fresh_ctx (global_context (final_state (parse_only_sources w l p))).
Proof.
  revert p. induction l as [|path l IH]; intros p Hf; [done |].
  simpl. unfold bind at 1.
  pose proof (source_file_load_context w path p) as Hl.
  destruct (source_file_load w path p) as [[full loaded] p1| |]; simpl in *;
    try (by rewrite Hl).
  destruct loaded.
  - apply IH. by rewrite Hl.
  - unfold run_effect, update_context, modify, bind. simpl.
    apply IH. simpl. apply apply_effect_fresh. rewrite Hl.
    eapply fresh_ctx_frame; [| | | | exact Hf]; done.
Qed.

Lemma parse_sources_fresh l contexts p :
  fresh_ctx (global_context p) ->
  match parse_sources w l contexts p with
  | Returned _ p' => fresh_ctx (global_context p')
  | Exited c _ p' => c = EXIT_FAILURE /\ fresh_ctx (global_context p')
  | OutOfFuel _ => False
  end.
Proof.
  revert contexts p. induction l as [|path l IH]; intros contexts p Hf;
    [done |].
  simpl. unfold bind at 1.
  pose proof (source_file_load_context w path p) as Hl.
  unfold source_file_load in *.
  destruct (source_full_path w path) as [full|]; [| done].
  unfold bind, get, modify, ret in *. simpl in *.
  destruct (bool_decide (full ∈ loaded_files p)); simpl in *.
  - by apply IH.
  - apply IH. simpl. by apply apply_effect_fresh.
Qed.

Lemma load_sources_fresh p :
  fresh_ctx (global_context p) ->
  match load_sources w p with
  | Returned _ p' => fresh_ctx (global_context p')
  | Exited c _ p' => c = EXIT_FAILURE /\ fresh_ctx (global_context p')
  | OutOfFuel _ => False
  end.
Proof.
  intros Hf.
  destruct (add_library_sources_spec w p) as (p' & _ & _ & _ & _ & ->).
  apply parse_sources_fresh. simpl.
  eapply fresh_ctx_frame; [| | | | exact Hf]; done.
Qed.

Lemma parse_sources_target l contexts p :
  active_target (final_state (parse_sources w l contexts p)) = active_target p.
Proof.
  revert contexts p. induction l as [|path l IH]; intros contexts p; [done |].
  simpl. unfold bind at 1. unfold source_file_load.
  destruct (source_full_path w path) as [full|]; [| done].
  unfold bind, get, modify, ret. simpl.
  destruct (bool_decide (full ∈ loaded_files p)); simpl.
  - by rewrite IH.
  - unfold run_effect, update_context, modify, bind. simpl. by rewrite IH.
Qed.

Lemma load_sources_target p :
  active_target (final_state (load_sources w p)) = active_target p.
Proof.
  destruct (add_library_sources_spec w p) as (p' & _ & _ & _ & _ & ->).
  by rewrite parse_sources_target.
Qed.

Lemma expand_outcome l files p :
  match expand_source_names w l files p with
  | Returned _ _ => True
  | Exited c _ _ => c = EXIT_FAILURE
  | OutOfFuel _ => False
  end.
Proof.
  revert files. induction l as [|n l IH]; intros files; [done |].
  simpl. destruct (classify_source_name n); [done | apply IH | apply IH].
Qed.

Lemma compiler_init_start std_lib_dir target :
  exists p1, compiler_init w std_lib_dir (process_start target) = Returned tt p1 /\
    fresh p1 /\ active_target p1 = target /\
    loaded_files p1 = [] /\
    lib_dir (global_context p1)
    = match std_lib_dir with Some dir => Some dir | None => find_lib_dir w end.
Proof.
  destruct std_lib_dir; (eexists; split; [vm_compute; reflexivity |]).
  - split; [| done]. split; [done |]. simpl.
    eapply fresh_ctx_frame with (g := context_zero); try done.
    split; [apply registry_ok_zero | done].
  - split; [| done]. split; [done |]. simpl.
    eapply fresh_ctx_frame with (g := context_zero); try done.
    split; [apply registry_ok_zero | done].
Qed.

(** A run ends before the analysis, with nothing analysed, or is
    [compiler_compile] on sources that are loaded with nothing analysed. *)
Lemma run_loaded std_lib_dir target fuel :
  (fresh (final_state (run w std_lib_dir target fuel)) /\
   exists c msg p',
     run w std_lib_dir target fuel = Exited c msg p' /\
     (lex_only target = false -> parse_only target = false ->
      c = EXIT_FAILURE)) \/
  (lex_only target = false /\ parse_only target = false /\
   exists p3 c0 cs p4,
     run w std_lib_dir target fuel = compiler_compile w fuel p3 /\
     load_sources w p3 = Returned (c0 :: cs) p4 /\
     fresh p4 /\
     output_headers (active_target p4) = output_headers target /\
     loaded_files p3 = [] /\
     sources (global_context p3) = target_sources target /\
     lib_dir (global_context p3)
     = match std_lib_dir with Some dir => Some dir | None => find_lib_dir w end).
Proof.
  unfold run. unfold bind at 1. unfold bind at 1. unfold bind at 1.
  destruct (compiler_init_start std_lib_dir target)
    as (p1 & -> & (Htr & Hfr) & Htgt & Hlf1 & Hlib1).
  rewrite compile_expands. cbn zeta.
  set (p0 := set_global_context _ p1).
  assert (Hf0 : fresh p0).
  { split; [done |]. simpl.
    eapply fresh_ctx_frame; [| | | | exact Hfr]; done. }
  pose proof (expand_keeps_state w (target_sources (active_target p1)) [] p0)
    as Hk.
  destruct (expand_source_names w _ [] p0) as [files p2|c msg p2|p2] eqn:Hex;
    simpl in Hk; subst p2.
  2: { left. split; [done |]. eexists _, _, _. split; [done |].
       intros _ _.
       pose proof (expand_outcome (target_sources (active_target p1)) [] p0)
         as Ho.
       by rewrite Hex in Ho. }
  2: { pose proof (expand_outcome (target_sources (active_target p1)) [] p0)
         as Ho.
       by rewrite Hex in Ho. }
  destruct (length files =? 0).
  { left. split; [done |]. by eexists _, _, _. }
  set (p3 := set_active_target _ p0).
  assert (Hf3 : fresh p3) by done.
  change (active_target p0) with (active_target p1). rewrite Htgt.
  destruct (lex_only target) eqn:Elex.
  { left. split.
    - split; [by rewrite compiler_lex_trace |].
      unfold compiler_lex. unfold bind at 1. unfold get at 1.
      pose proof (lex_sources_context (sources (global_context p3)) p3) as Hc.
      unfold bind.
      destruct (lex_sources w _ p3) as [[] p4| |]; simpl in *; rewrite Hc;
        by destruct Hf3.
    - unfold compiler_lex. unfold bind at 1. unfold get at 1.
      pose proof (lex_sources_live w (sources (global_context p3)) p3) as Hl.
      unfold bind.
      destruct (lex_sources w _ p3) as [[] p4| |]; simpl in *.
      + by eexists _, _, _.
      + by eexists _, _, _.
      + tauto. }
  destruct (parse_only target) eqn:Eparse.
  { left. split.
    - split; [by rewrite compiler_parse_trace |].
      unfold compiler_parse. unfold bind at 1. unfold get at 1.
      pose proof (parse_only_sources_fresh (sources (global_context p3)) p3
                    ltac:(by destruct Hf3)) as Hc.
      unfold bind.
      destruct (parse_only_sources w _ p3) as [[] p4| |]; simpl in *; done.
    - unfold compiler_parse. unfold bind at 1. unfold get at 1.
      pose proof (parse_only_sources_live w (sources (global_context p3)) p3)
        as Hl.
      unfold bind.
      destruct (parse_only_sources w _ p3) as [[] p4| |]; simpl in *.
      + by eexists _, _, _.
      + by eexists _, _, _.
      + tauto. }
  pose proof (load_sources_fresh p3 ltac:(by destruct Hf3)) as Hlf.
  pose proof (load_sources_trace w p3) as Hlt.
  destruct (load_sources w p3) as [contexts p4|code message s|] eqn:Hload;
    simpl in Hlt.
  - destruct contexts as [|c0 cs].
    + left.
      assert (Hcc : compiler_compile w fuel p3
                    = Exited EXIT_FAILURE "No source files to compile." p4).
      { unfold compiler_compile. unfold bind at 1. by rewrite Hload. }
      rewrite Hcc. split; [split; [simpl; congruence | done] |].
      by eexists _, _, _.
    + right. split; [done |]. split; [done |].
      exists p3, c0, cs, p4. split; [done |]. split; [done |].
      split; [split; [congruence | done] |].
      split; [| split; [done | split; [simpl; by rewrite Htgt | done]]].
      pose proof (load_sources_target p3) as Ht. rewrite Hload in Ht.
      simpl in Ht. rewrite Ht. simpl. by rewrite Htgt.
  - left. destruct Hlf as [-> Hlf].
    assert (Hcc : compiler_compile w fuel p3 = Exited EXIT_FAILURE message s).
    { unfold compiler_compile. unfold bind at 1. by rewrite Hload. }
    rewrite Hcc. split; [split; [simpl; congruence | done] |].
    by eexists _, _, _.
  - done.
Qed.

(** A run ends before the analysis, with nothing analysed, or goes
    through the analysis. *)
Lemma run_outcome std_lib_dir target fuel :
  (fresh (final_state (run w std_lib_dir target fuel)) /\
   exists c msg p',
     run w std_lib_dir target fuel = Exited c msg p' /\
     (lex_only target = false -> parse_only target = false ->
      c = EXIT_FAILURE)) \/
  (lex_only target = false /\ parse_only target = false /\
   match run w std_lib_dir target fuel with
   | Returned _ p' =>
       exists p2, analysis_inv w p2 /\ analysed p2 /\
         output_headers target = true /\
         p' = foldl (fun q m => add_event (EvHeaderGen m) q) p2
                (module_list (global_context p2))
   | Exited c msg p' =>
       (c = EXIT_FAILURE /\ analysis_inv w p' /\
        0 < errors_found (global_context p')) \/
       (exists p2, analysis_inv w p2 /\ analysed p2 /\
          output_headers target = false /\
          p' = add_event EvCodegen p2 /\
          ((c = EXIT_SUCCESS /\
            exists m, m ∈ module_list (global_context p2) /\
                      llvm_gen w m (global_context p2) = true) \/
           (c = EXIT_FAILURE /\
            forall m, m ∈ module_list (global_context p2) ->
                      llvm_gen w m (global_context p2) <> true)))
   | OutOfFuel p' => analysis_inv w p'
   end).
Proof.
  destruct (run_loaded std_lib_dir target fuel)
    as [Hearly|(Hlex & Hparse & p3 & c0 & cs & p4 & -> & Hload & Hf4 & Hout
                & _)];
    [by left |].
  right. split; [done |]. split; [done |].
  pose proof (compiler_compile_rule w (analysis_inv w)
                (analysis_inv_wf w) (analysis_inv_pass w)
                (analysis_inv_stage w) fuel p3 (c0 :: cs) p4 Hload
                ltac:(done) ltac:(by destruct Hf4)
                (fresh_analysis_inv w p4 Hf4)) as Hr.
  rewrite Hout in Hr.
  assert (Han : forall p2, analysis_inv w p2 ->
            errors_found (global_context p2) = 0 ->
            (forall a, a ∈ module_list (global_context p2) ->
               ANALYSIS_LAST <= stage_of (global_context p2) a) ->
            analysed p2).
  { intros p2 (_ & _ & _ & Hmax & _) He Hge. split; [done |].
    intros a Ha. specialize (Hge a Ha). specialize (Hmax a). lia. }
  destruct (compiler_compile w fuel p3) as [[] p'|c msg p'|p'].
  - destruct Hr as (p2 & Hi & _ & He & Hge & Hh & ->).
    exists p2. split; [done |]. split; [by apply Han |]. done.
  - destruct Hr as [(-> & Hi & _ & He)|
                    (p2 & Hi & _ & He & Hge & Hh & -> & Hc)].
    + by left.
    + right. exists p2. split; [done |]. split; [by apply Han |]. done.
  - by destruct Hr.
Qed.

End RunOutcome.

(** ** The outcome of a run *)

Lemma passes_on_app a tr1 tr2 :
  passes_on a (tr1 ++ tr2) = passes_on a tr1 ++ passes_on a tr2.
Proof. unfold passes_on. apply omap_app. Qed.

Lemma header_events_no_pass l m s before after :
  EvPass m s before after ∉ header_events l.
Proof.
  unfold header_events. intros Hin.
  apply list_elem_of_fmap in Hin as (x & Hx & _). done.
Qed.

(** The state a run ends in is a state of the analysis, followed by the
    calls of the back end if it was reached. *)
Lemma run_final w std_lib_dir target fuel :
  exists p2 quiet,
    analysis_inv w p2 /\
    global_context (final_state (run w std_lib_dir target fuel))
    = global_context p2 /\
    trace (final_state (run w std_lib_dir target fuel)) = trace p2 ++ quiet /\
    (quiet = [] \/ quiet = [EvCodegen] \/
     quiet = header_events (module_list (global_context p2))).
Proof.
  destruct (run_outcome w std_lib_dir target fuel)
    as [[Hf _]|(_ & _ & Hr)].
  { eexists _, []. split; [by apply fresh_analysis_inv |].
    rewrite app_nil_r. split; [done |]. split; [done | by left]. }
  destruct (run w std_lib_dir target fuel) as [[] p'|c msg p'|p'].
  - destruct Hr as (p2 & Hi & _ & _ & ->).
    destruct (header_gens_trace (module_list (global_context p2)) p2)
      as (Htr & Hg & _).
    exists p2, (header_events (module_list (global_context p2))).
    simpl. split; [done |]. split; [done |]. split; [done |]. by (right; right).
  - destruct Hr as [(_ & Hi & _)|(p2 & Hi & _ & _ & -> & _)].
    + exists p', []. rewrite app_nil_r. simpl.
      split; [done |]. split; [done |]. split; [done | by left].
    + exists p2, [EvCodegen]. simpl.
      split; [done |]. split; [done |]. split; [done |]. by (right; left).
  - exists p', []. rewrite app_nil_r. simpl.
    split; [done |]. split; [done |]. split; [done | by left].
Qed.


(** X7. Modules with parameters are set aside. However a run ends, the
    registry of the modules is consistent, and a module of
    [generic_module_list] has parameters, is not in [module_list], is
    found under its name, is still at [ANALYSIS_NOT_BEGUN], and no pass
    has run on it. *)
Theorem generic_modules_not_analysed
    (w : Collaborators) (std_lib_dir : option string) (target : BuildTarget)
    (fuel : nat) :
  let p' := final_state (run w std_lib_dir target fuel) in
  let g' := global_context p' in
  registry_ok g' /\
  forall m, m ∈ generic_module_list g' ->
    (m ∉ module_list g') /\
    stage_of g' m = ANALYSIS_NOT_BEGUN /\
    passes_on m (trace p') = [] /\
    exists md, module_heap g' !! m = Some md /\
      is_Some (module_parameters md) /\
      global_context_find_module (path_module (module_name md)) g' = Some m.
Proof.
  intros p' g'. subst g' p'.
  destruct (run_final w std_lib_dir target fuel)
    as (p2 & quiet & (Hok & Hev & Hon & Hmax & Hout) & -> & -> & Hq).
  split; [done |]. intros m Hm.
  assert (Hnot : m ∉ module_list (global_context p2)).
  { destruct Hok as (Hnd & _). apply NoDup_app in Hnd as (_ & Hdis & _).
    intros Hin. by apply (Hdis m Hin). }
  split; [done |]. split; [by apply Hout |]. split.
  - rewrite passes_on_app, Hon, (Hout m Hnot).
    destruct Hq as [->|[->| ->]]; try done. apply passes_on_headers.
  - destruct (registry_ok_round_trip (global_context p2) m Hok)
      as (md & Hmd & Hfind & Hml).
    { apply elem_of_app. by right. }
    exists md. split; [done |]. split; [| done].
    destruct (module_parameters md) eqn:Ep; [by eexists |].
    exfalso. apply Hnot. by apply Hml.
Qed.

(** X8. What a successful compilation has done. When a run that neither
    lexes nor parses only ends with [exit(EXIT_SUCCESS)], headers were
    not asked for, no error was found, every module of [module_list] is
    at [ANALYSIS_LAST] and the six passes have run on it in order, some
    module gave an output, and the start of the back end is the last
    event, after rounds and passes only. *)
Theorem compile_success
    (w : Collaborators) (std_lib_dir : option string) (target : BuildTarget)
    (fuel : nat) (msg : string) (p' : Process) :
  lex_only target = false ->
  parse_only target = false ->
  run w std_lib_dir target fuel = Exited EXIT_SUCCESS msg p' ->
  output_headers target = false /\
  errors_found (global_context p') = 0 /\
  (forall m, m ∈ module_list (global_context p') ->
     stage_of (global_context p') m = ANALYSIS_LAST /\
     passes_on m (trace p') = analysis_stages) /\
  (exists m, m ∈ module_list (global_context p') /\
             llvm_gen w m (global_context p') = true) /\
  exists tr, trace p' = tr ++ [EvCodegen] /\ Forall (pass_event_ok w) tr.
Proof.
  intros Hlex Hparse Hrun.
  destruct (run_outcome w std_lib_dir target fuel)
    as [(_ & c & msg' & p'' & Hrun' & Hc)|(_ & _ & Hr)].
  { rewrite Hrun in Hrun'. injection Hrun' as <- _ _.
    specialize (Hc Hlex Hparse). done. }
  rewrite Hrun in Hr.
  destruct Hr as [(Hc & _)|(p2 & Hi & (He & Hst) & Hh & -> & Hc)]; [done |].
  destruct Hc as [(_ & Hgen)|(Hc & _)]; [| done].
  destruct Hi as (Hok & Hev & Hon & Hmax & Hout).
  split; [done |]. split; [done |]. split; [| split; [done |]].
  - intros m Hm. split; [by apply Hst |].
    simpl. rewrite passes_on_snoc, app_nil_r, Hon. simpl in Hm.
    by rewrite (Hst m Hm).
  - by exists (trace p2).
Qed.

Lemma compile_success_witness :
  exists msg p',
    run quiet_collaborators None (example_target ["a.c3"; "b.c3"]%string) 4
    = Exited EXIT_SUCCESS msg p' /\
    passes_on 1 (trace p') = analysis_stages.
Proof.
  destruct (run quiet_collaborators None
              (example_target ["a.c3"; "b.c3"]%string) 4)
    as [|c msg p'|] eqn:E; try (vm_compute in E; discriminate).
  assert (Hc : c = EXIT_SUCCESS)
    by (vm_compute in E; injection E as <- _ _; reflexivity).
  subst c. exists msg, p'. split; [reflexivity |].
  destruct (compile_success quiet_collaborators None
              (example_target ["a.c3"; "b.c3"]%string) 4 msg p'
              eq_refl eq_refl E) as (_ & _ & Hm & _).
  apply (Hm 1). vm_compute in E. injection E as _ <-.
  simpl. apply list_elem_of_further, list_elem_of_here.
Defined.

(** X9. Headers instead of code. A run returns only when headers were
    asked for: then no error was found, every module of [module_list] is
    at [ANALYSIS_LAST], and the events end with one call of [header_gen]
    for each module, in the order of [module_list], after rounds and
    passes only, so the back end was not started. With headers asked for,
    a run that neither lexes nor parses only never ends with
    [exit(EXIT_SUCCESS)]. *)
Theorem compile_output_headers
    (w : Collaborators) (std_lib_dir : option string) (target : BuildTarget)
    (fuel : nat) :
  (forall p',
     run w std_lib_dir target fuel = Returned tt p' ->
     lex_only target = false /\ parse_only target = false /\
     output_headers target = true /\
     errors_found (global_context p') = 0 /\
     (forall m, m ∈ module_list (global_context p') ->
        stage_of (global_context p') m = ANALYSIS_LAST) /\
     exists tr,
       trace p' = tr ++ header_events (module_list (global_context p')) /\
       Forall (pass_event_ok w) tr) /\
  (output_headers target = true ->
   lex_only target = false -> parse_only target = false ->
   forall c msg p',
     run w std_lib_dir target fuel = Exited c msg p' -> c = EXIT_FAILURE).
Proof.
  split.
  - intros p' Hrun.
    destruct (run_outcome w std_lib_dir target fuel)
      as [(_ & c & msg' & p'' & Hrun' & _)|(Hlex & Hparse & Hr)];
      [congruence |].
    rewrite Hrun in Hr. destruct Hr as (p2 & Hi & (He & Hst) & Hh & ->).
    destruct (header_gens_trace (module_list (global_context p2)) p2)
      as (Htr & Hg & _).
    cbn zeta in Htr, Hg. rewrite Hg, Htr.
    split; [done |]. split; [done |]. split; [done |]. split; [done |].
    split; [done |]. exists (trace p2). split; [done |]. by destruct Hi as (_ & ? & _).
  - intros Hh Hlex Hparse c msg p' Hrun.
    destruct (run_outcome w std_lib_dir target fuel)
      as [(_ & c' & msg' & p'' & Hrun' & Hc)|(_ & _ & Hr)].
    + rewrite Hrun in Hrun'. injection Hrun' as <- _ _. by apply Hc.
    + rewrite Hrun in Hr.
      destruct Hr as [(Hc & _)|(p2 & _ & _ & Hh' & _)]; [done | congruence].
Qed.

Lemma compile_output_headers_witness :
  exists p',
    run quiet_collaborators None
      {| target_sources := ["a.c3"; "b.c3"]%string; lex_only := false;
         parse_only := false; output_headers := true |} 4
    = Returned tt p' /\
    exists tr, trace p' = tr ++ [EvHeaderGen 0; EvHeaderGen 1].
Proof.
  destruct (run quiet_collaborators None
      {| target_sources := ["a.c3"; "b.c3"]%string; lex_only := false;
         parse_only := false; output_headers := true |} 4)
    as [[] p'| |] eqn:E; try (vm_compute in E; discriminate).
  exists p'. split; [reflexivity |].
  destruct (compile_output_headers quiet_collaborators None
      {| target_sources := ["a.c3"; "b.c3"]%string; lex_only := false;
         parse_only := false; output_headers := true |} 4) as [H _].
  destruct (H p' E) as (_ & _ & _ & _ & _ & tr & Htr & _).
  exists tr. rewrite Htr. f_equal.
  vm_compute in E. injection E as <-. reflexivity.
Defined.

(** ** A round entered with errors *)

Lemma find_or_create_new_elem name ps g a :
  a ∈ module_list (compiler_find_or_create_module name ps g).2 ->
  a ∈ module_list g \/ length (module_heap g) <= a.
Proof.
  destruct (modules g !! path_module name) as [m|] eqn:E.
  { rewrite (find_existing name ps g m E). by left. }
  destruct (find_or_create_new name ps g E) as (Hr & _ & _ & -> & _).
  rewrite Hr. destruct ps; rewrite ?app_nil_r; [by left |].
  rewrite elem_of_app, list_elem_of_singleton. intros [?| ->]; [by left |].
  by right.
Qed.

Lemma create_modules_new_elem l g a :
  a ∈ module_list (create_modules l g) ->
  a ∈ module_list g \/ length (module_heap g) <= a.
Proof.
  revert g. induction l as [|[name ps] l IH]; intros g Ha; [by left |].
  simpl in Ha. apply IH in Ha as [Ha|Ha].
  - by apply find_or_create_new_elem in Ha.
  - right. destruct (find_or_create_le name ps g) as (_ & Hlen & _).
    simpl in *. lia.
Qed.

Lemma pass_step_new_elem w m p a :
  a ∈ module_list (global_context (pass_step w m p)) ->
  a ∈ module_list (global_context p)
  \/ length (module_heap (global_context p)) <= a.
Proof.
  rewrite pass_step_context. intros Ha.
  destruct (apply_effect_frame
              (sema_analysis_pass w
                 (stage_of (increment_stage m (global_context p)) m) m
                 (increment_stage m (global_context p)))
              (increment_stage m (global_context p)))
    as (_ & Hml & _).
  cbn zeta in Hml. rewrite Hml in Ha.
  apply create_modules_new_elem in Ha. simpl in Ha.
  by rewrite length_alter in Ha.
Qed.

Lemma pass_step_wf w m p :
  ctx_wf (global_context p) -> ctx_wf (global_context (pass_step w m p)).
Proof.
  intros Hwf. rewrite pass_step_context.
  by apply apply_effect_wf, increment_stage_wf.
Qed.

Lemma one_pass_each_ext g1 g evs l :
  (forall a, a ∈ l -> stage_of g1 a = stage_of g a) ->
  one_pass_each g1 evs l -> one_pass_each g evs l.
Proof.
  unfold one_pass_each. intros Heq H.
  induction H as [|e a evs l (b & af & ->) H IH]; [constructor |].
  constructor.
  - exists b, af. rewrite Heq; [done | by left].
  - apply IH. intros a' Ha'. apply Heq. by right.
Qed.

Lemma drop_S_elem_ne (l : list nat) i m a :
  NoDup l -> l !! i = Some m -> a ∈ drop (S i) l -> a <> m.
Proof.
  intros Hnd Hm Ha ->. apply list_elem_of_lookup_1 in Ha as [j Hj].
  rewrite lookup_drop in Hj.
  pose proof (NoDup_lookup l _ _ m Hnd Hm Hj). lia.
Qed.

Section Errors.

Variable w : Collaborators.

Lemma analyze_modules_errors fuel t i p :
  ctx_wf (global_context p) ->
  0 < errors_found (global_context p) ->
  t <= ANALYSIS_LAST ->
  (forall j a, i <= j -> module_list (global_context p) !! j = Some a ->
     stage_of (global_context p) a < t) ->
  match analyze_modules w fuel t i p with
  | Returned _ p' =>
      0 < errors_found (global_context p') /\
      exists evs, trace p' = trace p ++ evs /\
        one_pass_each (global_context p) evs
          (drop i (module_list (global_context p')))
  | Exited _ _ _ => False
  | OutOfFuel p' =>
      exists evs k, trace p' = trace p ++ evs /\
        one_pass_each (global_context p) evs
          (take k (drop i (module_list (global_context p'))))
  end /\
  follows p (final_state (analyze_modules w fuel t i p)) /\
  ctx_wf (global_context (final_state (analyze_modules w fuel t i p))).
Proof.
  revert i p. induction fuel as [|fuel IH]; intros i p Hwf He Ht Hst.
  { simpl. split; [| split; [apply follows_refl | done]].
    exists [], 0. rewrite app_nil_r. split; [done | constructor]. }
  simpl. unfold bind at 1 3 5. unfold get at 1 2 3.
  destruct (module_list (global_context p) !! i) as [m|] eqn:Hm.
  2: { simpl. split; [| split; [apply follows_refl | done]].
       split; [done |]. exists []. rewrite app_nil_r. split; [done |].
       apply lookup_ge_None in Hm. rewrite drop_ge by done. constructor. }
  assert (Hlt : stage_of (global_context p) m < t) by (by apply (Hst i)).
  assert (Hv : m < length (module_heap (global_context p))).
  { destruct Hwf as (_ & Hl & _). apply Hl. by eapply list_elem_of_lookup_2. }
  destruct (sema_loop_steps w (S t) m t p Hv Ht ltac:(lia))
    as (k & Hrun & _ & _ & Hge & Hle).
  specialize (Hge Hlt). specialize (Hle He).
  assert (k = 1) as -> by lia.
  change (pass_steps w m 1 p) with (pass_step w m p) in Hrun.
  unfold sema_analyze_stage. unfold bind. rewrite Hrun.
  pose proof (pass_step_follows w m p) as Hf1.
  pose proof (pass_step_wf w m p Hwf) as Hwf1.
  pose proof Hf1 as ((Hpre & _ & _ & Herr) & _).
  assert (Hm1 : module_list (global_context (pass_step w m p)) !! i = Some m)
    by (by eapply prefix_lookup_Some).
  assert (Hne : forall j a, S i <= j ->
            module_list (global_context (pass_step w m p)) !! j = Some a ->
            a <> m).
  { intros j a Hj Ha ->. destruct Hwf1 as (Hnd & _).
    pose proof (NoDup_lookup _ _ _ m Hnd Hm1 Ha). lia. }
  destruct (IH (S i) (pass_step w m p) Hwf1 ltac:(lia) Ht) as (Hr & Hf2 & Hwf2).
  { intros j a Hj Ha. rewrite pass_step_stage_of by done.
    destruct (decide (a = m)) as [->|_]; [by exfalso; eapply Hne |].
    destruct (pass_step_new_elem w m p a) as [Hin|Hnew].
    - by eapply list_elem_of_lookup_2.
    - apply list_elem_of_lookup_1 in Hin as [j' Hj'].
      assert (j' = j) as ->.
      { destruct Hwf1 as (Hnd & _). eapply NoDup_lookup; [done | | done].
        by eapply prefix_lookup_Some. }
      apply (Hst j); [lia | done].
    - unfold stage_of. rewrite (proj2 (lookup_ge_None _ _) Hnew).
      unfold ANALYSIS_NOT_BEGUN. lia. }
  split; [| split; [by eapply follows_trans | done]].
  assert (Hst1 : stage_of (increment_stage m (global_context p)) m
                 = S (stage_of (global_context p) m)).
  { rewrite increment_stage_of.
    destruct (decide _) as [_|Hn]; [done | exfalso; by apply Hn]. }
  assert (Hmi : module_list
                  (global_context
                     (final_state (analyze_modules w fuel t (S i)
                                     (pass_step w m p)))) !! i = Some m).
  { destruct Hf2 as ((Hpre2 & _) & _). by eapply prefix_lookup_Some. }
  assert (Hext : forall a,
            a ∈ drop (S i)
                  (module_list
                     (global_context
                        (final_state (analyze_modules w fuel t (S i)
                                        (pass_step w m p))))) ->
            stage_of (global_context (pass_step w m p)) a
            = stage_of (global_context p) a).
  { intros a Ha. rewrite pass_step_stage_of by done.
    destruct (decide (a = m)) as [->|_]; [| done]. exfalso.
    destruct Hwf2 as (Hnd & _). by eapply drop_S_elem_ne. }
  destruct (analyze_modules w fuel t (S i) (pass_step w m p))
    as [[] p'| |p']; cbn [final_state] in *; [| done |].
  - destruct Hr as (He' & evs & Htr & Hev). split; [done |].
    eexists (_ :: evs). split.
    + rewrite Htr, pass_step_trace, <- app_assoc. reflexivity.
    + rewrite (drop_S _ m i Hmi). constructor.
      * eexists _, _. by rewrite Hst1.
      * by eapply one_pass_each_ext.
  - destruct Hr as (evs & k & Htr & Hev).
    eexists (_ :: evs), (S k). split.
    + rewrite Htr, pass_step_trace, <- app_assoc. reflexivity.
    + rewrite (drop_S _ m i Hmi). simpl. constructor.
      * eexists _, _. by rewrite Hst1.
      * eapply one_pass_each_ext; [| exact Hev].
        intros a Ha. apply Hext.
        rewrite <- (take_drop k (drop (S i) _)). apply elem_of_app. by left.
Qed.

Lemma analyze_to_stage_errors fuel t p :
  ctx_wf (global_context p) ->
  0 < errors_found (global_context p) ->
  t <= ANALYSIS_LAST ->
  (forall a, a ∈ module_list (global_context p) ->
     stage_of (global_context p) a < t) ->
  match analyze_to_stage w fuel t p with
  | Returned _ _ => False
  | Exited c _ p' =>
      c = EXIT_FAILURE /\
      exists evs,
        trace p' = trace p ++ EvStage t (global_context p) :: evs /\
        one_pass_each (global_context p) evs (module_list (global_context p'))
  | OutOfFuel p' =>
      exists evs k,
        trace p' = trace p ++ EvStage t (global_context p) :: evs /\
        one_pass_each (global_context p) evs
          (take k (module_list (global_context p')))
  end.
Proof.
  intros Hwf He Ht Hst. unfold analyze_to_stage.
  unfold bind at 1. unfold get at 1.
  unfold bind at 1. unfold log at 1. unfold modify at 1.
  set (p0 := add_event (EvStage t (global_context p)) p).
  destruct (analyze_modules_errors fuel t 0 p0 Hwf He Ht) as (Hr & _ & _).
  { intros j a _ Ha. apply Hst. by eapply list_elem_of_lookup_2. }
  unfold bind at 1.
  destruct (analyze_modules w fuel t 0 p0) as [[] p1| |p1]; [| done |].
  - destruct Hr as (He1 & evs & Htr & Hev).
    unfold halt_on_error, bind, get, exit, ret.
    destruct (Nat.ltb_spec 0 (errors_found (global_context p1))); [| lia].
    split; [done |]. exists evs. split; [| done].
    rewrite Htr. simpl. by rewrite <- app_assoc.
  - destruct Hr as (evs & k & Htr & Hev).
    exists evs, k. split; [| done].
    rewrite Htr. simpl. by rewrite <- app_assoc.
Qed.

End Errors.

Lemma first_round_wf g0 p : first_round g0 p -> ctx_wf (global_context p).
Proof. by intros (? & _). Qed.

Lemma first_round_snoc g0 p e g' :
  first_round g0 p -> ctx_wf g' ->
  (trace p = [] -> match e with EvStage _ g => g = g0 | _ => True end) ->
  first_round g0 (add_event e (set_global_context g' p)).
Proof.
  intros (Hwf & Hnil & Hfirst) Hwf' He.
  split; [done |]. split.
  - simpl. intros Hn. by apply app_eq_nil in Hn as [_ ?].
  - simpl. intros t g tr Htr.
    destruct (trace p) as [|e0 tr0] eqn:Etr.
    + simpl in Htr. injection Htr as -> _. by apply He.
    + simpl in Htr. injection Htr as -> _. by eapply Hfirst.
Qed.

Lemma first_round_pass w g0 p m :
  first_round g0 p -> m ∈ module_list (global_context p) ->
  stage_of (global_context p) m < ANALYSIS_LAST ->
  first_round g0 (pass_step w m p).
Proof.
  intros Hf _ _. unfold pass_step.
  apply first_round_snoc; [done | | done].
  apply apply_effect_wf, increment_stage_wf. by destruct Hf.
Qed.

Lemma first_round_stage g0 p t :
  first_round g0 p ->
  first_round g0 (add_event (EvStage t (global_context p)) p).
Proof.
  intros Hf. pose proof Hf as (Hwf & Hnil & _).
  replace p with (set_global_context (global_context p) p) at 2
    by (by destruct p).
  by apply first_round_snoc.
Qed.

Lemma Forall2_imports g evs l :
  (forall a, stage_of g a = ANALYSIS_NOT_BEGUN) ->
  one_pass_each g evs l -> imports_pass_each evs l.
Proof.
  intros Hz H. unfold one_pass_each, imports_pass_each in *.
  eapply Forall2_impl; [exact H |].
  intros e m (b & a & ->). exists b, a. by rewrite Hz.
Qed.

(** X10. Errors of the parser do not stop a compilation before the
    analysis. When the first round starts with errors already found, it
    is the round of [ANALYSIS_IMPORTS], it runs the [ANALYSIS_IMPORTS]
    pass on every module of [module_list], in order and one pass each
    (on those the passes create as well), and then the process exits
    with [EXIT_FAILURE]: the run never returns, and no other round
    starts. *)
Theorem parse_errors_reach_analysis
    (w : Collaborators) (std_lib_dir : option string) (target : BuildTarget)
    (fuel : nat) (t : AnalysisStage) (g0 : GlobalContext) (rest : list Event) :
  trace (final_state (run w std_lib_dir target fuel)) = EvStage t g0 :: rest ->
  0 < errors_found g0 ->
  t = ANALYSIS_IMPORTS /\
  match run w std_lib_dir target fuel with
  | Returned _ _ => False
  | Exited c _ p' =>
      c = EXIT_FAILURE /\
      imports_pass_each rest (module_list (global_context p'))
  | OutOfFuel p' =>
      exists k, imports_pass_each rest (take k (module_list (global_context p')))
  end.
Proof.
  intros Htr He.
  destruct (run_loaded w std_lib_dir target fuel)
    as [((Hnil & _) & _)|
        (Hlex & Hparse & p3 & c0 & cs & p4 & Hrun & Hload & Hf4 & Hout & _)];
    [congruence |].
  rewrite Hrun in *. destruct Hf4 as (Htr4 & Hok4 & Hst4).
  assert (Hfr : first_round (global_context p4) p4).
  { split; [by apply registry_ok_wf |]. split; [done |].
    intros ? ? ? H. congruence. }
  assert (Hg : g0 = global_context p4).
  { pose proof (compiler_compile_rule w (first_round (global_context p4))
                  (first_round_wf _) (first_round_pass w _)
                  (first_round_stage _) fuel p3 (c0 :: cs) p4 Hload
                  ltac:(done) Htr4 Hfr) as Hr.
    destruct (compiler_compile w fuel p3) as [[] p'|c msg p'|p'];
      simpl in Htr.
    - destruct Hr as (p2 & (_ & Hn & Hfirst) & _ & _ & _ & _ & ->).
      destruct (header_gens_trace (module_list (global_context p2)) p2)
        as (Htr2 & _). cbn zeta in Htr2. rewrite Htr2 in Htr.
      destruct (trace p2) as [|e tr2] eqn:E2.
      + simpl in Htr. unfold header_events in Htr.
        destruct (module_list (global_context p2)); simpl in Htr; done.
      + simpl in Htr. injection Htr as -> _. by eapply Hfirst.
    - destruct Hr as [(_ & (_ & _ & Hfirst) & _)|
                      (p2 & (_ & _ & Hfirst) & _ & _ & _ & _ & -> & _)].
      + by eapply Hfirst.
      + simpl in Htr. destruct (trace p2) as [|e tr2] eqn:E2; [done |].
        simpl in Htr. injection Htr as -> _. by eapply Hfirst.
    - destruct Hr as ((_ & _ & Hfirst) & _). by eapply Hfirst. }
  subst g0.
  pose proof (analyze_to_stage_errors w fuel 1 p4
                (registry_ok_wf _ Hok4) He
                ltac:(unfold ANALYSIS_LAST, ANALYSIS_FUNCTIONS; lia)) as Hr.
  assert (Hcc : compiler_compile w fuel p3
                = match analyze_to_stage w fuel 1 p4 with
                  | Returned _ p5 =>
                      compiler_compile w fuel p3
                  | Exited c msg p5 => Exited c msg p5
                  | OutOfFuel p5 => OutOfFuel p5
                  end).
  { destruct (analyze_to_stage w fuel 1 p4) as [[] p5| |] eqn:Ea; [done | |].
    - unfold compiler_compile. unfold bind at 1. rewrite Hload.
      cbn [length Nat.eqb]. unfold analysis_stages, ANALYSIS_NOT_BEGUN,
        ANALYSIS_LAST, ANALYSIS_FUNCTIONS. simpl (0 + 1).
      unfold bind at 1. cbn [seq analyze_stages]. unfold bind at 1.
      by rewrite Ea.
    - unfold compiler_compile. unfold bind at 1. rewrite Hload.
      cbn [length Nat.eqb]. unfold analysis_stages, ANALYSIS_NOT_BEGUN,
        ANALYSIS_LAST, ANALYSIS_FUNCTIONS. simpl (0 + 1).
      unfold bind at 1. cbn [seq analyze_stages]. unfold bind at 1.
      by rewrite Ea. }
  rewrite Hcc in *. clear Hcc.
  destruct (analyze_to_stage w fuel 1 p4) as [[] p5|c msg p5|p5].
  - exfalso. apply Hr. intros a _. rewrite Hst4. unfold ANALYSIS_NOT_BEGUN. lia.
  - destruct Hr as (-> & evs & Htr5 & Hev).
    { intros a _. rewrite Hst4. unfold ANALYSIS_NOT_BEGUN. lia. }
    simpl in Htr. rewrite Htr5, Htr4 in Htr. simpl in Htr.
    injection Htr as <- <-. split; [done |]. split; [done |].
    by eapply Forall2_imports.
  - destruct Hr as (evs & k & Htr5 & Hev).
    { intros a _. rewrite Hst4. unfold ANALYSIS_NOT_BEGUN. lia. }
    simpl in Htr. rewrite Htr5, Htr4 in Htr. simpl in Htr.
    injection Htr as <- <-. split; [done |]. exists k.
    by eapply Forall2_imports.
Qed.

Lemma parse_errors_reach_analysis_witness :
  exists g0 before after msg p',
    trace (final_state
             (run parse_error_collaborators None (example_target ["x.c3"]%string) 4))
    = [EvStage ANALYSIS_IMPORTS g0; EvPass 0 ANALYSIS_IMPORTS before after] /\
    errors_found g0 = 1 /\
    run parse_error_collaborators None (example_target ["x.c3"]%string) 4
    = Exited EXIT_FAILURE msg p'.
Proof.
  assert (H : exists g0 before after,
    trace (final_state
             (run parse_error_collaborators None (example_target ["x.c3"]%string) 4))
    = [EvStage ANALYSIS_IMPORTS g0; EvPass 0 ANALYSIS_IMPORTS before after] /\
    errors_found g0 = 1).
  { vm_compute. eexists _, _, _. split; reflexivity. }
  destruct H as (g0 & before & after & Htr & He).
  exists g0, before, after.
  destruct (parse_errors_reach_analysis parse_error_collaborators None
              (example_target ["x.c3"]%string) 4 ANALYSIS_IMPORTS g0
              [EvPass 0 ANALYSIS_IMPORTS before after] Htr
              ltac:(rewrite He; lia)) as (_ & Hr).
  destruct (run parse_error_collaborators None
              (example_target ["x.c3"]%string) 4) as [|c msg p'|] eqn:E;
    try (vm_compute in E; discriminate).
  destruct Hr as [-> _]. by exists msg, p'.
Defined.

(** ** The sources of a target *)

Section Sources.

Variable w : Collaborators.

Lemma expand_pure l files p :
  expand_source_names w l files p
  = match expanded_names w l files with
    | Some r => Returned r p
    | None => Exited EXIT_FAILURE invalid_name_message p
    end.
Proof.
  revert files. induction l as [|n l IH]; intros files; [done |].
  simpl. destruct (classify_source_name n); [done | apply IH | apply IH].
Qed.

Lemma expanded_none_iff l files :
  expanded_names w l files = None
  <-> Exists (fun n => classify_source_name n = InvalidName) l.
Proof.
  revert files. induction l as [|n l IH]; intros files; simpl.
  - split; [done |]. intros H. by apply Exists_nil in H.
  - rewrite Exists_cons.
    destruct (classify_source_name n) eqn:E.
    + split; [by left | done].
    + rewrite IH. split; [by right |]. by intros [?|?].
    + rewrite IH. split; [by right |]. by intros [?|?].
Qed.

Lemma expanded_plain l files :
  Forall (fun n => exists x, classify_source_name n = SourceFile x) l ->
  expanded_names w l files = Some (files ++ l).
Proof.
  intros H. revert files.
  induction H as [|n l [x Hx] H IH]; intros files; simpl.
  - by rewrite app_nil_r.
  - rewrite Hx. destruct (classify_file n x Hx) as (-> & _).
    rewrite IH. by rewrite <- app_assoc.
Qed.

(** X11. [target_expand_source_names] reads the entries only and
    changes the list of the target only. It exits, with [EXIT_FAILURE]
    and the process as it was, exactly when an entry is invalid;
    otherwise it returns with the expanded list in the target, the
    options of the target, the global context (its [sources] as well),
    the loaded files and the events being as before. Entries that are all
    source files expand to themselves, in the same order, so expanding
    again changes nothing. *)
Theorem target_expand_source_names_total (p : Process) :
  let l := target_sources (active_target p) in
  target_expand_source_names w p
  = match expanded_names w l [] with
    | Some files =>
        Returned tt
          (set_active_target (set_target_sources files (active_target p)) p)
    | None => Exited EXIT_FAILURE invalid_name_message p
    end /\
  (expanded_names w l [] = None
   <-> Exists (fun n => classify_source_name n = InvalidName) l) /\
  (Forall (fun n => exists x, classify_source_name n = SourceFile x) l ->
   expanded_names w l [] = Some l /\
   exists p', target_expand_source_names w p = Returned tt p' /\
     target_sources (active_target p') = l /\
     target_expand_source_names w p' = Returned tt p').
Proof.
  intros l. subst l.
  assert (Heq : target_expand_source_names w p
    = match expanded_names w (target_sources (active_target p)) [] with
      | Some files =>
          Returned tt
            (set_active_target (set_target_sources files (active_target p)) p)
      | None => Exited EXIT_FAILURE invalid_name_message p
      end).
  { unfold target_expand_source_names. unfold bind at 1. unfold get at 1.
    unfold bind. rewrite expand_pure.
    by destruct (expanded_names w _ []). }
  split; [exact Heq |]. split; [apply expanded_none_iff |].
  intros Hplain. pose proof (expanded_plain _ [] Hplain) as He.
  simpl in He. split; [done |].
  rewrite Heq, He. eexists. split; [done |]. split; [done |].
  unfold target_expand_source_names. unfold bind at 1. unfold get at 1.
  unfold bind. rewrite expand_pure. simpl. rewrite He. done.
Qed.

End Sources.

Lemma target_expand_source_names_total_witness :
  exists p',
    target_expand_source_names quiet_collaborators
      (process_start (example_target ["a.c3"; "lib/b.c3"]%string))
    = Returned tt p' /\
    target_sources (active_target p') = ["a.c3"; "lib/b.c3"]%string.
Proof.
  destruct (target_expand_source_names_total quiet_collaborators
              (process_start (example_target ["a.c3"; "lib/b.c3"]%string)))
    as (_ & _ & H).
  destruct H as (_ & p' & Hrun & Hsrc & _).
  - repeat constructor; eexists; vm_compute; reflexivity.
  - exists p'. split; [exact Hrun | exact Hsrc].
Defined.

(** ** Lexing only, parsing only, and the contexts of a compilation *)

Lemma create_modules_errors l g :
  errors_found (create_modules l g) = errors_found g.
Proof.
  revert g. induction l as [|[name ps] l IH]; intros g; [done |].
  simpl. rewrite IH. unfold compiler_find_or_create_module.
  destruct (global_context_find_module _ g); [done |]. by destruct ps.
Qed.

Lemma apply_effect_errors e g :
  errors_found (apply_effect e g) = errors_found g + new_errors e.
Proof.
  destruct (apply_effect_frame e g) as (_ & _ & _ & _ & ->).
  by rewrite create_modules_errors.
Qed.

Lemma Forall_Exists_readable w l :
  Forall (readable w) l ->
  Exists (fun s => source_full_path w s = None) l -> False.
Proof.
  intros Hf He. apply Exists_exists in He as (s & Hin & Hs).
  rewrite Forall_forall in Hf. destruct (Hf s Hin) as [x Hx]. congruence.
Qed.

Section Modes.

Variable w : Collaborators.

Lemma source_file_load_eq path p :
  source_file_load w path p
  = match source_full_path w path with
    | None => Exited EXIT_FAILURE "Failed to open file" p
    | Some full =>
        if bool_decide (full ∈ loaded_files p) then Returned (full, true) p
        else Returned (full, false)
               (set_loaded_files (loaded_files p ++ [full]) p)
    end.
Proof.
  unfold source_file_load. destruct (source_full_path w path); [| done].
  unfold bind, get, modify, ret. by destruct (bool_decide _).
Qed.

Lemma lex_sources_outcome l p :
  match lex_sources w l p with
  | Returned _ p' => Forall (readable w) l
  | Exited c _ p' =>
      c = EXIT_FAILURE /\ Exists (fun s => source_full_path w s = None) l
  | OutOfFuel _ => False
  end.
Proof.
  revert p. induction l as [|path l IH]; intros p; [by simpl |].
  simpl. unfold bind at 1. rewrite source_file_load_eq.
  destruct (source_full_path w path) as [full|] eqn:E.
  2: { split; [done |]. by left. }
  assert (Hr : readable w path) by (by exists full).
  destruct (bool_decide _).
  - specialize (IH p). destruct (lex_sources w l p) as [[] p'| |]; try done.
    + by constructor.
    + destruct IH. split; [done | by right].
  - specialize (IH (set_loaded_files (loaded_files p ++ [full]) p)).
    destruct (lex_sources w l _) as [[] p'| |]; try done.
    + by constructor.
    + destruct IH. split; [done | by right].
Qed.

Lemma parse_only_sources_outcome l p :
  match parse_only_sources w l p with
  | Returned _ p' =>
      Forall (readable w) l /\
      ((loaded_files p' = loaded_files p /\
        global_context p' = global_context p) \/
       exists full g,
         last (loaded_files p') = Some full /\
         errors_found (global_context p')
         = new_errors (parse_file w full g))
  | Exited c _ p' =>
      c = EXIT_FAILURE /\ Exists (fun s => source_full_path w s = None) l
  | OutOfFuel _ => False
  end.
Proof.
  revert p. induction l as [|path l IH]; intros p.
  { simpl. split; [constructor | by left]. }
  simpl. unfold bind at 1. rewrite source_file_load_eq.
  destruct (source_full_path w path) as [full|] eqn:E.
  2: { split; [done |]. by left. }
  assert (Hr : readable w path) by (by exists full).
  destruct (bool_decide _); cbn [snd fst].
  - specialize (IH p).
    destruct (parse_only_sources w l p) as [[] p'| |]; try done.
    + destruct IH. split; [by constructor | done].
    + destruct IH. split; [done | by right].
  - unfold run_effect, update_context, modify.
    unfold bind at 1. unfold bind at 1.
    set (p0 := set_loaded_files (loaded_files p ++ [full]) p).
    set (g1 := global_context_clear_errors (global_context p0)).
    set (p1 := set_global_context g1 p0).
    set (p2 := set_global_context
                 (apply_effect (parse_file w full (global_context p1))
                    (global_context p1)) p1).
    specialize (IH p2).
    destruct (parse_only_sources w l p2) as [[] p'| |]; try done.
    + destruct IH as [Hf Hlast]. split; [by constructor |]. right.
      destruct Hlast as [[Hl Hg]|Hlast]; [| done].
      exists full, (global_context p1). split.
      * rewrite Hl. simpl. by rewrite last_snoc.
      * rewrite Hg. unfold p2. cbn [global_context set_global_context].
        by rewrite apply_effect_errors.
    + destruct IH. split; [done | by right].
Qed.


(** X13. Parsing only. With [parse_only] set and [lex_only] not,
    [compile] never returns and never analyses. The exit is
    [EXIT_SUCCESS] exactly when the entries expand to a list that is not
    empty and every entry, as written, can be read: the errors the parser
    reports do not count. Since the errors are cleared before each file,
    the count the process ends with is that of the last file parsed. *)
Theorem compile_parse_only (fuel : nat) (p : Process) :
  lex_only (active_target p) = false ->
  parse_only (active_target p) = true ->
  exists c msg p',
    compile w fuel p = Exited c msg p' /\
    trace p' = trace p /\
    (c = EXIT_SUCCESS \/ c = EXIT_FAILURE) /\
    (c = EXIT_SUCCESS <-> sources_ok w (target_sources (active_target p))) /\
    (c = EXIT_SUCCESS ->
     (loaded_files p' = loaded_files p /\
      global_context p'
      = set_sources (target_sources (active_target p)) (global_context p)) \/
     exists full g,
       last (loaded_files p') = Some full /\
       errors_found (global_context p') = new_errors (parse_file w full g)).
Proof.
  intros Hlex Hparse. rewrite compile_expands. cbn zeta.
  set (p0 := set_global_context _ p).
  rewrite expand_pure. unfold sources_ok.
  destruct (expanded_names w (target_sources (active_target p)) [])
    as [files|] eqn:Hex.
  2: { eexists _, _, _. split; [done |]. split; [done |].
       split; [by right |]. split; [| done].
       split; [done |]. by intros [(? & ? & _) _]. }
  destruct files as [|f files]; cbn [length Nat.eqb].
  { eexists _, _, _. split; [done |]. split; [done |].
    split; [by right |]. split; [| done]. split; [done |].
    intros [(? & ? & ?) _]. congruence. }
  change (active_target p0) with (active_target p). rewrite Hlex, Hparse.
  set (p3 := set_active_target _ p0).
  unfold compiler_parse. unfold bind at 1. unfold get at 1.
  pose proof (parse_only_sources_outcome (sources (global_context p3)) p3)
    as Ho.
  pose proof (parse_only_sources_trace w (sources (global_context p3)) p3)
    as Ht.
  unfold bind.
  destruct (parse_only_sources w _ p3) as [[] p4|c msg p4|]; [| | done];
    cbn [final_state] in *.
  - destruct Ho as [Hf Hlast]. eexists _, _, _.
    split; [done |]. split; [done |]. split; [by left |]. split.
    + split; [| done]. intros _. split; [by eexists | done].
    + intros _. exact Hlast.
  - destruct Ho as [-> Hex']. eexists _, _, _.
    split; [done |]. split; [done |]. split; [by right |]. split; [| done].
    split; [done |].
    intros [_ Hf]. exfalso. by eapply Forall_Exists_readable.
Qed.

Lemma parse_sources_outcome l contexts p :
  NoDup (loaded_files p) ->
  match parse_sources w l contexts p with
  | Returned cs p' =>
      Forall (readable w) l /\
      NoDup (loaded_files p') /\
      exists new,
        cs = contexts ++ (Build_Context <$> new) /\
        loaded_files p' = loaded_files p ++ new /\
        forall f, f ∈ new <->
          (f ∉ loaded_files p) /\
          exists path, path ∈ l /\ source_full_path w path = Some f
  | Exited c _ p' =>
      c = EXIT_FAILURE /\ Exists (fun s => source_full_path w s = None) l
  | OutOfFuel _ => False
  end.
Proof.
  revert contexts p. induction l as [|path l IH]; intros contexts p Hnd.
  { simpl. split; [constructor |]. split; [done |]. exists [].
    rewrite !app_nil_r. split; [done |]. split; [done |].
    intros f. split; [intros H; by apply elem_of_nil in H |].
    intros (_ & path & H & _). by apply elem_of_nil in H. }
  simpl. unfold bind at 1. rewrite source_file_load_eq.
  destruct (source_full_path w path) as [full|] eqn:E.
  2: { split; [done |]. by left. }
  assert (Hr : readable w path) by (by exists full).
  destruct (bool_decide_reflect (full ∈ loaded_files p)) as [Hin|Hnin];
    cbn [snd fst].
  - specialize (IH contexts p Hnd).
    destruct (parse_sources w l contexts p) as [cs p'| |]; try done.
    + destruct IH as (Hf & Hnd' & new & Hcs & Hl & Hnew).
      split; [by constructor |]. split; [done |].
      exists new. split; [done |]. split; [done |].
      intros f. rewrite Hnew. split.
      * intros (Hn & path' & Hp & Hs). split; [done |].
        exists path'. split; [by right | done].
      * intros (Hn & path' & Hp & Hs). split; [done |].
        apply elem_of_cons in Hp as [->|Hp]; [| by exists path'].
        congruence.
    + destruct IH. split; [done | by right].
  - unfold run_effect, update_context, modify.
    unfold bind at 1.
    set (p0 := set_loaded_files (loaded_files p ++ [full]) p).
    set (p1 := set_global_context _ p0).
    assert (Hnd1 : NoDup (loaded_files p1)).
    { simpl. apply NoDup_app. split; [done |]. split.
      - intros x Hx Hx'. apply list_elem_of_singleton in Hx'. by subst.
      - apply NoDup_singleton. }
    specialize (IH (contexts ++ [{| context_file := full |}]) p1 Hnd1).
    destruct (parse_sources w l _ p1) as [cs p'| |]; try done.
    + destruct IH as (Hf & Hnd' & new & Hcs & Hl & Hnew).
      split; [by constructor |]. split; [done |].
      exists (full :: new). split; [| split].
      * rewrite Hcs, <- app_assoc. done.
      * rewrite Hl. simpl. by rewrite <- app_assoc.
      * intros f. rewrite elem_of_cons, Hnew. simpl.
        rewrite elem_of_app, list_elem_of_singleton. split.
        -- intros [->|(Hn & path' & Hp & Hs)].
           ++ split; [done |]. exists path. split; [by left | done].
           ++ split; [tauto |]. exists path'. split; [by right | done].
        -- intros (Hn & path' & Hp & Hs).
           destruct (decide (f = full)) as [->|Hne]; [by left |]. right.
           split; [tauto |].
           apply elem_of_cons in Hp as [->|Hp]; [congruence |].
           by exists path'.
    + destruct IH. split; [done | by right].
Qed.


End Modes.


Lemma compile_parse_only_witness :
  exists msg p',
    compile parse_error_collaborators 4
      (process_start
         {| target_sources := ["a.c3"; "b.c3"]%string; lex_only := false;
            parse_only := true; output_headers := false |})
    = Exited EXIT_SUCCESS msg p' /\ trace p' = [].
Proof.
  destruct (compile_parse_only parse_error_collaborators 4
              (process_start
                 {| target_sources := ["a.c3"; "b.c3"]%string;
                    lex_only := false; parse_only := true;
                    output_headers := false |})
              eq_refl eq_refl) as (c & msg & p' & Hrun & Htr & _ & Hc & _).
  assert (c = EXIT_SUCCESS) as ->.
  { apply Hc. split.
    - eexists. split; [vm_compute; reflexivity | discriminate].
    - repeat constructor; by eexists. }
  by exists msg, p'.
Defined.


(** ** The exits of a compilation *)



(** ** The sources a compilation reads *)

Lemma find_or_create_sources name ps g :
  sources (compiler_find_or_create_module name ps g).2 = sources g /\
  lib_dir (compiler_find_or_create_module name ps g).2 = lib_dir g.
Proof.
  unfold compiler_find_or_create_module.
  destruct (global_context_find_module _ g); [done |]. by destruct ps.
Qed.

Lemma create_modules_sources l g :
  sources (create_modules l g) = sources g /\
  lib_dir (create_modules l g) = lib_dir g.
Proof.
  revert g. induction l as [|[name ps] l IH]; intros g; [done |].
  simpl. destruct (IH (compiler_find_or_create_module name ps g).2) as [-> ->].
  apply find_or_create_sources.
Qed.

Lemma register_symbols_sources l g :
  sources (register_symbols l g) = sources g /\
  lib_dir (register_symbols l g) = lib_dir g.
Proof.
  revert g. induction l as [|d l IH]; intros g; [done |].
  simpl. destruct (IH (compiler_register_public_symbol d g)) as [H1 H2].
  unfold register_symbols in *. simpl. by rewrite H1, H2.
Qed.

Lemma apply_effect_sources e g :
  sources (apply_effect e g) = sources g /\
  lib_dir (apply_effect e g) = lib_dir g.
Proof.
  unfold apply_effect. simpl.
  destruct (register_symbols_sources (new_symbols e)
              (create_modules (new_modules e) g)) as [-> ->].
  apply create_modules_sources.
Qed.

Lemma pass_step_sources w m p :
  sources (global_context (pass_step w m p)) = sources (global_context p) /\
  lib_dir (global_context (pass_step w m p)) = lib_dir (global_context p).
Proof.
  rewrite pass_step_context.
  destruct (apply_effect_sources
              (sema_analysis_pass w
                 (stage_of (increment_stage m (global_context p)) m) m
                 (increment_stage m (global_context p)))
              (increment_stage m (global_context p))) as [-> ->].
  done.
Qed.

Lemma parse_sources_sources w l contexts p :
  ctx_sources (global_context (final_state (parse_sources w l contexts p)))
  = ctx_sources (global_context p).
Proof.
  revert contexts p. induction l as [|path l IH]; intros contexts p; [done |].
  simpl parse_sources. unfold bind at 1. rewrite source_file_load_eq.
  destruct (source_full_path w path) as [full|]; [| reflexivity].
  destruct (bool_decide _); cbn [snd fst].
  - apply IH.
  - unfold run_effect, update_context, modify. unfold bind at 1.
    rewrite IH. unfold ctx_sources.
    cbn [global_context set_global_context set_loaded_files].
    destruct (apply_effect_sources
                (parse_file w full (global_context p)) (global_context p))
      as [-> ->].
    done.
Qed.

Lemma header_gens_loaded l p :
  loaded_files (foldl (fun q m => add_event (EvHeaderGen m) q) p l)
  = loaded_files p.
Proof. revert p. induction l as [|m l IH]; intros p; [done |]. simpl. by rewrite IH. Qed.

(** X16. The sources a compilation reads. When the analysis of a run
    has begun, the sources of the global context are the entries of the
    target as they were written, not their expansion, followed by the six
    files of the library directory: the one given to [compiler_init] if
    one is, the one [find_lib_dir] finds otherwise, and no file when there
    is none. Each of these sources can be read, and the files loaded are
    their canonical paths, each once. *)
Theorem compilation_sources
    (w : Collaborators) (std_lib_dir : option string) (target : BuildTarget)
    (fuel : nat) :
  let p' := final_state (run w std_lib_dir target fuel) in
  let lib := match std_lib_dir with
             | Some dir => Some dir
             | None => find_lib_dir w
             end in
  trace p' <> [] ->
  lib_dir (global_context p') = lib /\
  sources (global_context p')
  = target_sources target
    ++ match lib with Some dir => library_sources dir | None => [] end /\
  Forall (readable w) (sources (global_context p')) /\
  NoDup (loaded_files p') /\
  forall f, f ∈ loaded_files p' <->
    exists path, path ∈ sources (global_context p') /\
                 source_full_path w path = Some f.
Proof.
  intros p' lib Htr. subst p'.
  destruct (run_loaded w std_lib_dir target fuel)
    as [((Hnil & _) & _)|
        (_ & _ & p3 & c0 & cs & p4 & Hrun & Hload & Hf4 & _ & Hlf3 & Hsrc3
           & Hlib3)];
    [done |].
  fold lib in Hlib3. rewrite Hrun in *. clear Hrun.
  set (l := target_sources target
            ++ match lib with Some dir => library_sources dir | None => [] end).
  destruct (add_library_sources_spec w p3) as (p1 & _ & _ & _ & _ & Hls).
  rewrite Hsrc3, Hlib3 in Hls. fold l in Hls.
  set (q := set_global_context
              (set_sources l (global_context_clear_errors (global_context p3)))
              p3) in *.
  pose proof (parse_sources_outcome w l [] q) as Ho.
  pose proof (parse_sources_sources w l [] q) as Hs.
  rewrite <- Hls, Hload in Ho, Hs. cbn [final_state] in Hs.
  unfold ctx_sources in Hs. injection Hs as Hs4 Hl4.
  destruct Ho as (Hread & Hnd & new & _ & Hlf & Hnew).
  { simpl. rewrite Hlf3. apply NoDup_nil_2. }
  simpl in Hs4, Hl4, Hlf.
  change (loaded_files q) with (loaded_files p3) in Hnew.
  rewrite Hlf3 in Hlf, Hnew. simpl in Hlf.
  assert (Hgoal : forall p',
            sources (global_context p') = sources (global_context p4) ->
            lib_dir (global_context p') = lib_dir (global_context p4) ->
            loaded_files p' = loaded_files p4 ->
            lib_dir (global_context p') = lib /\
            sources (global_context p') = l /\
            Forall (readable w) (sources (global_context p')) /\
            NoDup (loaded_files p') /\
            forall f, f ∈ loaded_files p' <->
              exists path, path ∈ sources (global_context p') /\
                           source_full_path w path = Some f).
  { intros p' -> -> ->. rewrite Hs4, Hl4, Hlib3.
    split; [done |]. split; [done |]. split; [done |]. split; [done |].
    intros f. rewrite Hlf, Hnew. split.
    - by intros (_ & ?).
    - intros ?. split; [| done]. intros H'. by apply elem_of_nil in H'. }
  pose proof (compiler_compile_rule w
    (fun p => ctx_wf (global_context p) /\
              sources (global_context p) = sources (global_context p4) /\
              lib_dir (global_context p) = lib_dir (global_context p4))
    ltac:(by intros ? (? & _))
    ltac:(intros p m (Hwf & <- & <-) _ _;
          split; [by apply pass_step_wf | apply pass_step_sources])
    ltac:(by intros p t (? & ? & ?))
    fuel p3 (c0 :: cs) p4 Hload ltac:(done) ltac:(by destruct Hf4)
    ltac:(split; [apply registry_ok_wf; by destruct Hf4 as (_ & ? & _) | done]))
    as Hr.
  destruct (compiler_compile w fuel p3) as [[] p'|c msg p'|p'];
    cbn [final_state].
  - destruct Hr as (p2 & (_ & Hs2 & Hl2) & (_ & _ & Hlf2) & _ & _ & _ & ->).
    destruct (header_gens_trace (module_list (global_context p2)) p2)
      as (_ & Hg & _). cbn zeta in Hg.
    apply Hgoal; rewrite ?Hg, ?header_gens_loaded; done.
  - destruct Hr as [(_ & (_ & Hs2 & Hl2) & (_ & _ & Hlf2) & _)|
                    (p2 & (_ & Hs2 & Hl2) & (_ & _ & Hlf2) & _ & _ & _ & -> & _)].
    + by apply Hgoal.
    + by apply Hgoal.
  - destruct Hr as ((_ & Hs2 & Hl2) & (_ & _ & Hlf2)). by apply Hgoal.
Qed.

Lemma compilation_sources_witness :
  sources (global_context
             (final_state
                (run quiet_collaborators (Some "lib"%string)
                   (example_target ["a.c3"]%string) 4)))
  = ["a.c3"; "lib/std/runtime.c3"; "lib/std/builtin.c3"; "lib/std/io.c3";
     "lib/std/mem.c3"; "lib/std/array.c3"; "lib/std/math.c3"]%string.
Proof.
  destruct (compilation_sources quiet_collaborators (Some "lib"%string)
              (example_target ["a.c3"]%string) 4) as (_ & Hs & _).
  - vm_compute. discriminate.
  - rewrite Hs. reflexivity.
Defined.
